(** * dynamo: trajectory integration and least-action paths

    A shallow embedding of
      - [dynamo/prediction/least_action_path.py]  (module [Lap]),
      - the arc-curve and integration helpers of [dynamo/tools/utils.py]
        (module [Utils]),
      - [dynamo/tools/fate.py]                     (module [FateM]),
      - the dictionary, nearest-cell, triangular-matrix and fitting
        helpers of [dynamo/tools/utils.py]         (module [UtilsMore]),
      - the accessors of [LeastActionPath]         (module [LapMore]),
    together with the properties of these functions.

    Conventions.  Python floats are read as real numbers ([R]); a one
    dimensional array is a [list R], a two dimensional array is the list of
    its rows.  A Python exception is a value [Raise e] of the [result] type;
    the [while] loop of the arclength sampler runs on fuel and yields
    [OutOfFuel] when the fuel is used up.  The libraries the code calls
    (the ODE solver, the optimizer, the neighbour and graph searches) are
    parameters of the functions that use them. *)

From Stdlib Require String.
From Stdlib Require Import Reals Lra Lia List Bool Arith.
Import ListNotations String.StringSyntax.
Open Scope string_scope.
Open Scope R_scope.

(** ** Exceptions and results *)

Inductive exn : Type :=
| IndexError
| ValueError
| ZeroDivisionError
| UnboundLocalError
| TypeError
| NetworkXNoPath
| PyException (msg : String.string).

Inductive result (A : Type) : Type :=
| Ok (a : A)
| Raise (e : exn)
| OutOfFuel.

Arguments Ok {A} a.
Arguments Raise {A} e.
Arguments OutOfFuel {A}.

Definition bind {A B} (m : result A) (k : A -> result B) : result B :=
  match m with
  | Ok a => k a
  | Raise e => Raise e
  | OutOfFuel => OutOfFuel
  end.

Notation "x <- m ;; k" := (bind m (fun x => k))
  (at level 61, m at next level, right associativity).
Notation "' pat <- m ;; k" := (bind m (fun x => match x with pat => k end))
  (at level 61, pat pattern, m at next level, right associativity).

(** What a Python function hands back: a value, or [None] when its body ends
    without a [return] statement. *)
Inductive pyret (A : Type) : Type :=
| PyNone
| PyReturn (a : A).

Arguments PyNone {A}.
Arguments PyReturn {A} a.

(** ** Arrays *)

Definition vec := list R.
Definition matrix := list vec.

Inductive ndarray : Type :=
| Scalar (r : R)
| Arr1 (v : vec)
| Arr2 (m : matrix).

Definition Rltb (a b : R) : bool := if Rlt_dec a b then true else false.
Definition Rgeb (a b : R) : bool := if Rge_dec a b then true else false.

Module Np.

Fixpoint map2 {A B C} (f : A -> B -> C) (u : list A) (v : list B) : list C :=
  match u, v with
  | a :: u', b :: v' => f a b :: map2 f u' v'
  | _, _ => []
  end.

(** Element-wise operations, for operands of one shape.  (On operands of
    different shapes numpy broadcasts or raises; the embedding is not meant
    for them: [map2] stops at the shorter operand.) *)
Definition vadd (u v : vec) : vec := map2 Rplus u v.
Definition vsub (u v : vec) : vec := map2 Rminus u v.
Definition vscale (c : R) (v : vec) : vec := map (fun a => c * a) v.
Definition vmulr (v : vec) (c : R) : vec := map (fun a => a * c) v.
Definition vdiv (v : vec) (c : R) : vec := map (fun a => a / c) v.

Definition madd (A B : matrix) : matrix := map2 vadd A B.
Definition msub (A B : matrix) : matrix := map2 vsub A B.
Definition mmulr (A : matrix) (c : R) : matrix := map (fun r => vmulr r c) A.
Definition mdiv (A : matrix) (c : R) : matrix := map (fun r => vdiv r c) A.
Definition mscale (c : R) (A : matrix) : matrix := map (vscale c) A.

Definition sum (v : vec) : R := fold_right Rplus 0 v.

(** [u.dot(v)] *)
Definition dot (u v : vec) : R := sum (map2 Rmult u v).

(** [np.linalg.norm] of a one dimensional array *)
Definition norm (v : vec) : R := sqrt (dot v v).

(** [a[:-1]] and [a[1:]] along the first axis *)
Definition init {A} (l : list A) : list A := removelast l.
Definition rest {A} (l : list A) : list A := tl l.

(** [np.diff(path, axis=0)] *)
Definition diff0 (path : matrix) : matrix := msub (rest path) (init path).

(** [a.flatten()] of a two dimensional array *)
Definition flatten (A : matrix) : vec := concat A.

Definition zeros (n : nat) : vec := repeat 0 n.
Definition zeros2 (n m : nat) : matrix := repeat (zeros m) n.

(** [a[i]] with Python's bounds check *)
Definition getitem {A} (l : list A) (i : nat) : result A :=
  match nth_error l i with
  | Some a => Ok a
  | None => Raise IndexError
  end.

(** [a[-1]] *)
Definition getlast {A} (l : list A) : result A :=
  match l with
  | [] => Raise IndexError
  | a :: l' => Ok (last l' a)
  end.

(** [a[i] = x] for an index the caller keeps in range *)
Fixpoint setitem {A} (l : list A) (i : nat) (x : A) : list A :=
  match l, i with
  | [], _ => []
  | _ :: l', O => x :: l'
  | a :: l', S i' => a :: setitem l' i' x
  end.

(** [np.arange(n)] and [-t] *)
Definition arange (n : nat) : vec := map INR (seq 0 n).
Definition vneg (v : vec) : vec := map Ropp v.

(** [np.array(Y)] of a Python list of points: an empty list gives the
    one dimensional array of shape (0,). *)
Definition np_array (Y : list vec) : ndarray :=
  match Y with
  | [] => Arr1 []
  | _ :: _ => Arr2 Y
  end.

Definition atleast_2d (a : ndarray) : matrix :=
  match a with
  | Scalar r => [[r]]
  | Arr1 v => [v]
  | Arr2 m => m
  end.

Definition same_width (rows : matrix) : bool :=
  match rows with
  | [] => true
  | r :: rows' => forallb (fun r' => length r' =? length r)%nat rows'
  end.

(** [np.vstack(blocks)]: the blocks are made two dimensional and joined
    along the first axis; blocks of different widths are rejected.  (A two
    dimensional block without rows carries no width in this
    representation and is accepted next to any other block.) *)
Definition vstack (blocks : list ndarray) : result matrix :=
  let rows := concat (map atleast_2d blocks) in
  if same_width rows then Ok rows else Raise ValueError.

(** [np.vstack(blocks)] when one of the blocks is known to have [width]
    columns (the others may have no rows at all). *)
Definition vstack_w (width : nat) (blocks : list matrix) : result matrix :=
  if forallb (forallb (fun r => length r =? width)%nat) blocks
  then Ok (concat blocks) else Raise ValueError.

(** [a.reshape(rows, cols)] of a one dimensional array *)
Fixpoint chunks (rows cols : nat) (a : vec) : matrix :=
  match rows with
  | O => []
  | S rows' => firstn cols a :: chunks rows' cols (skipn cols a)
  end.

Definition reshape (a : vec) (rows cols : nat) : result matrix :=
  if (length a =? rows * cols)%nat then Ok (chunks rows cols a)
  else Raise ValueError.

(** [v @ M]: the combination of the rows of [M] with the weights [v] *)
Definition vecmat (v : vec) (M : matrix) : vec :=
  fold_right vadd (zeros (length (hd [] M))) (map2 vscale v M).

(** [np.hstack((a, b))] of two dimensional arrays: joined along the second
    axis, row by row; the row counts must agree. *)
Definition hstack (a b : matrix) : result matrix :=
  if (length a =? length b)%nat then Ok (map2 (@app R) a b)
  else Raise ValueError.

(** [a[idx, :]] for a list of row indices *)
Fixpoint take_rows (a : matrix) (idx : list nat) : result matrix :=
  match idx with
  | [] => Ok []
  | i :: idx' =>
      r <- getitem a i ;;
      rs <- take_rows a idx' ;;
      Ok (r :: rs)
  end.

(** [a[~mask]] *)
Fixpoint select_not {A} (mask : list bool) (l : list A) : list A :=
  match mask, l with
  | m :: mask', a :: l' =>
      if m then select_not mask' l' else a :: select_not mask' l'
  | _, _ => []
  end.

(** [a.shape[0]] and [a.shape[1]].  A two dimensional array without rows
    does not carry its column count here; it is read as 0. *)
Definition shape0 (a : ndarray) : result nat :=
  match a with
  | Scalar _ => Raise IndexError
  | Arr1 v => Ok (length v)
  | Arr2 m => Ok (length m)
  end.

Definition shape1 (a : ndarray) : result nat :=
  match a with
  | Arr2 m => Ok (length (hd [] m))
  | _ => Raise IndexError
  end.

(** [a[i, :]] *)
Definition row_of (a : ndarray) (i : nat) : result vec :=
  match a with
  | Arr2 m => getitem m i
  | _ => Raise IndexError
  end.

(** [a[i, :] = row] for an array [a] of width [width]: [row] must have
    that width, or one element, which is then repeated. *)
Definition assign_row (a : matrix) (width i : nat) (row : vec)
  : result matrix :=
  if (length a <=? i)%nat then Raise IndexError
  else if (length row =? width)%nat then Ok (setitem a i row)
  else match row with
       | [c] => Ok (setitem a i (repeat c width))
       | _ => Raise ValueError
       end.

(** [np.mean(rows, 0)]: the mean of each column *)
Definition mean0 (rows : matrix) : vec :=
  vdiv (fold_right vadd (zeros (length (hd [] rows))) rows)
       (INR (length rows)).

End Np.

(** * dynamo/tools/utils.py *)

Module Utils.
Import Np.

(** ** Arc curves *)

(** One turn of the loop of lines 1448-1451: [discard[i + 1] = True] when
    point [i + 1] is closer than [tol] to point [i] of the input. *)
Definition discard_step (X : matrix) (tol : R)
           (discard : list bool) (i : nat) : list bool :=
  let dist := norm (vsub (nth (i + 1) X []) (nth i X [])) in
  if Rltb dist tol then setitem discard (i + 1) true else discard.

(** One turn of the loop of lines 1457-1461. *)
Definition arclength_step (X : matrix) (x0 : vec)
           (arclength : R) (i : nat) : R :=
  let tangent :=
    if (i =? 1)%nat then vsub (nth i X []) x0
    else vsub (nth i X []) (nth (i - 1) X []) in
  let d := norm tangent in
  arclength + d.

(** [remove_redundant_points_trajectory(X, tol, output_discard=True)],
    lines 1443-1466, for a two dimensional [X]. *)
Definition remove_redundant_points_trajectory (X : matrix) (tol : R)
  : result (matrix * R * list bool) :=
  let discard := repeat false (length X) in
  let discard :=
    if (1 <? length X)%nat
    then fold_left (discard_step X tol) (seq 0 (length X - 1)) discard
    else discard in
  let X := if (1 <? length X)%nat then select_not discard X else X in
  x0 <- getitem X 0 ;;
  let arclength :=
    fold_left (arclength_step X x0) (seq 1 (length X - 1)) 0 in
  Ok (X, arclength, discard).

(** The local variables of [arclength_sampling] that live across turns of
    its [while] loop. *)
Record sampler : Type := mkSampler {
  s_Y : list vec;
  s_x0 : vec;
  s_T : option (list R);
  s_t0 : option R;
  s_i : nat;
  s_terminate : bool;
  s_arclength : R
}.

(** How the inner [for] loop ends: at its [break], or with its range used
    up; [l] and [d] are the values the two variables hold afterwards. *)
Inductive scan : Type :=
| Hit (j : nat) (y : vec) (tau : option R) (l d : R)
| Miss (l d : R).

(** [tau = t0 if j == i else t[j - 1]; tau += (step_length - l) / d *
    (t[j] - tau)], when [t] is given. *)
Definition interpolate_time (t : option vec) (t0 : option R)
           (i j : nat) (step_length l d : R) : result (option R) :=
  match t, t0 with
  | Some t, Some t0 =>
      tau <- (if (j =? i)%nat then Ok t0 else getitem t (j - 1)) ;;
      tj <- getitem t j ;;
      Ok (Some (tau + (step_length - l) / d * (tj - tau)))
  | _, _ => Ok None
  end.

(** The [for j in range(i, len(X) - 1)] loop, lines 1481-1497, over the
    indices [js] still to visit.  Every [j] it visits is below
    [len(X) - 1], so the reads of [X] are in range. *)
Fixpoint scan_segments (X : matrix) (t : option vec) (step_length : R)
         (x0 : vec) (t0 : option R) (i : nat)
         (js : list nat) (l d : R) : result scan :=
  match js with
  | [] => Ok (Miss l d)
  | j :: js' =>
      let tangent :=
        if (j =? i)%nat then vsub (nth j X []) x0
        else vsub (nth j X []) (nth (j - 1) X []) in
      let d := norm tangent in
      if Rgeb (l + d) step_length then
        let x := if (j =? i)%nat then x0 else nth (j - 1) X [] in
        let y := vadd x (vdiv (vscale (step_length - l) tangent) d) in
        tau <- interpolate_time t t0 i j step_length l d ;;
        Ok (Hit j y tau l d)
      else scan_segments X t step_length x0 t0 i js' (l + d) d
  end.

Definition append_time (T : option (list R)) (tau : option R)
  : option (list R) :=
  match T, tau with
  | Some T, Some tau => Some (T ++ [tau])
  | _, _ => T
  end.

(** One turn of the [while] loop, lines 1479-1500.  The inner loop starts
    with [l = 0]; its range is not empty when the turn runs, so the initial
    value given to [d] here is never read. *)
Definition sampler_turn (X : matrix) (t : option vec) (step_length : R)
           (st : sampler) : result sampler :=
  let i := s_i st in
  r <- scan_segments X t step_length (s_x0 st) (s_t0 st) i
                     (seq i (length X - 1 - i)) 0 0 ;;
  match r with
  | Hit j y tau l d =>
      Ok {| s_Y := s_Y st ++ [y];
            s_x0 := y;
            s_T := append_time (s_T st) tau;
            s_t0 := match tau with Some _ => tau | None => s_t0 st end;
            s_i := j;
            s_terminate :=
              if Rltb (l + d) step_length then true else s_terminate st;
            s_arclength := s_arclength st + step_length |}
  | Miss l d =>
      Ok {| s_Y := s_Y st;
            s_x0 := s_x0 st;
            s_T := s_T st;
            s_t0 := s_t0 st;
            s_i := s_i st;
            s_terminate :=
              if Rltb (l + d) step_length then true else s_terminate st;
            s_arclength := s_arclength st + step_length |}
  end.

(** The [while i < len(X) - 1 and not terminate] loop on fuel. *)
Fixpoint sampler_loop (fuel : nat) (X : matrix) (t : option vec)
         (step_length : R) (st : sampler) : result sampler :=
  if (s_i st <? length X - 1)%nat && negb (s_terminate st) then
    match fuel with
    | O => OutOfFuel
    | S fuel' =>
        st' <- sampler_turn X t step_length st ;;
        sampler_loop fuel' X t step_length st'
    end
  else Ok st.

(** [arclength_sampling(X, step_length, t)], lines 1469-1505.  The result
    is written with its third component also when [t] is [None] (Python
    then returns the pair of the first two). *)
Definition arclength_sampling (fuel : nat) (X : matrix) (step_length : R)
           (t : option vec) : result (ndarray * R * option (list R)) :=
  x0 <- getitem X 0 ;;
  t0 <- match t with
        | Some t => (t0 <- getitem t 0 ;; Ok (Some t0))
        | None => Ok None
        end ;;
  st <- sampler_loop fuel X t step_length
          {| s_Y := [];
             s_x0 := x0;
             s_T := match t with Some _ => Some [] | None => None end;
             s_t0 := t0;
             s_i := 1;
             s_terminate := false;
             s_arclength := 0 |} ;;
  Ok (np_array (s_Y st), s_arclength st, s_T st).

(** ** Integration along the vector field *)

Definition direction_error : exn :=
  PyException
    "both, forward, backward are the only valid direction argument strings".

Section Integrate.

(** [scipy.integrate.odeint(lambda x, t: f(x), y0, t, args=args)]: the
    states at the times of [t], one row per time. *)
Variable odeint : (vec -> vec) -> vec -> vec -> matrix.

(** The direction dispatch of one loop turn, lines 1121-1138. *)
Definition integrate_one (integration_direction : String.string)
           (f : vec -> vec) (y0 : vec) (t : vec) : result matrix :=
  if String.eqb integration_direction "forward" then
    Ok (odeint f y0 t)
  else if String.eqb integration_direction "backward" then
    Ok (odeint f y0 (vneg t))
  else if String.eqb integration_direction "both" then
    let y_f := odeint f y0 t in
    let y_b := odeint f y0 (vneg t) in
    hstack (rev y_b) y_f
  else Raise direction_error.

(** The loop over the cells, lines 1119-1144; [Y] is [None] before the
    first turn. *)
Fixpoint integrate_cells (integration_direction : String.string)
         (f : vec -> vec) (t : vec) (init_states : ndarray)
         (cells : list nat) (Y : option matrix)
  : result (option matrix) :=
  match cells with
  | [] => Ok Y
  | i :: cells' =>
      y0 <- row_of init_states i ;;
      y <- integrate_one integration_direction f y0 t ;;
      Y' <- match Y with
            | None => Ok y
            | Some Y => vstack [Arr2 Y; Arr2 y]
            end ;;
      integrate_cells integration_direction f t init_states cells'
                      (Some Y')
  end.

(** The averaging loop, lines 1163-1165. *)
Fixpoint average_rows (n_cell n_feature t_len : nat) (Y : matrix)
         (steps : list nat) (avg : matrix) : result matrix :=
  match steps with
  | [] => Ok avg
  | i :: steps' =>
      rows <- take_rows Y (map (fun k => k * t_len + i)%nat
                               (seq 0 n_cell)) ;;
      avg' <- assign_row avg n_feature i (mean0 rows) ;;
      average_rows n_cell n_feature t_len Y steps' avg'
  end.

(** [integrate_vf(init_states, t, args, integration_direction, f,
    interpolation_num=None, average)], lines 1097-1167, with
    [interpolation_num] at its default [None]: the blocks guarded by
    [interpolation_num is not None] do not run.  [args] is only handed
    on to the solver. *)
Definition integrate_vf (init_states : ndarray) (t : vec)
           (integration_direction : String.string) (f : vec -> vec)
           (average : bool) : result (vec * option matrix) :=
  n_cell <- shape0 init_states ;;
  n_feature <- shape1 init_states ;;
  let n_steps := length t in
  let avg :=
    if (1 <? n_cell)%nat then
      if String.eqb integration_direction "both" then
        if average then Some (zeros2 (n_steps * 2) n_feature) else None
      else
        if average then Some (zeros2 n_steps n_feature) else None
    else None in
  Y <- integrate_cells integration_direction f t init_states
                       (seq 0 n_cell) None ;;
  if (1 <? n_cell)%nat && average then
    match Y, avg with
    | Some Y, Some avg =>
        let t_len := (length t / n_cell)%nat in
        avg' <- average_rows n_cell n_feature t_len Y (seq 0 t_len) avg ;;
        Ok (t, Some avg')
    | _, _ => Raise TypeError
    end
  else Ok (t, Y).

End Integrate.

End Utils.

(** * dynamo/tools/fate.py *)

Module FateM.
Import Np Utils.

Section Fate.

Variable odeint : (vec -> vec) -> vec -> vec -> matrix.

(** [prediction[a:b, :] = y] for a [prediction] of width [width]: [y]
    must be an array of [b - a] rows of that width.  (numpy also takes a
    [y] that broadcasts to this shape; the model rejects it.) *)
Definition assign_block (prediction : matrix) (width a b : nat)
           (y : option matrix) : result matrix :=
  match y with
  | None => Raise TypeError
  | Some y =>
      if (length y =? b - a)%nat
         && forallb (fun r => length r =? width)%nat y
      then Ok (firstn a prediction ++ y ++ skipn b prediction)
      else Raise ValueError
  end.

(** The loop [for j in range(len(t))] of lines 125-126 and 136-137; the
    row index inside uses the cell number [i]. *)
Fixpoint fate_average (n_cell n_feature n_steps i : nat)
         (prediction : matrix) (js : list nat) (avg : matrix)
  : result matrix :=
  match js with
  | [] => Ok avg
  | j :: js' =>
      rows <- take_rows prediction
                (map (fun c => c * n_steps + i)%nat (seq 0 n_cell)) ;;
      avg' <- assign_row avg n_feature j (mean0 rows) ;;
      fate_average n_cell n_feature n_steps i prediction js' avg'
  end.

(** The loop over the cells, lines 121-126 with [k = 2] and lines
    132-137 with [k = 1].  The state is [(t, prediction, avg)]; [t] is
    unbound before the first turn. *)
Fixpoint fate_cells (k n_cell n_feature n_steps : nat)
         (direction : String.string) (V_func : vec -> vec)
         (init_states : ndarray) (t_linspace : vec)
         (cells : list nat) (st : option vec * matrix * matrix)
  : result (option vec * matrix * matrix) :=
  match cells with
  | [] => Ok st
  | i :: cells' =>
      let '(_, prediction, avg) := st in
      y0 <- row_of init_states i ;;
      ' (t, y) <- integrate_vf odeint (Arr1 y0) t_linspace direction
                               V_func true ;;
      prediction' <- assign_block prediction n_feature
                       (n_steps * i * k) (n_steps * (i + 1) * k) y ;;
      avg' <- fate_average n_cell n_feature n_steps i prediction'
                           (seq 0 (length t)) avg ;;
      fate_cells k n_cell n_feature n_steps direction V_func
                 init_states t_linspace cells' (Some t, prediction', avg')
  end.

(** [fate(VecFld, init_states, VecFld_true, t_end, step_size, direction,
    average)] from line 114 on; [V_func] (line 107) and [t_linspace]
    (lines 109-112) are taken as given. *)
Definition fate (V_func : vec -> vec) (init_states : ndarray)
           (t_linspace : vec) (direction : String.string)
           (average : bool) : result (vec * matrix * matrix) :=
  n_cell <- shape0 init_states ;;
  n_feature <- shape1 init_states ;;
  let n_steps := length t_linspace in
  ' (t, prediction, avg) <-
    (if String.eqb direction "both" then
       let prediction := zeros2 (n_cell * n_steps * 2) n_feature in
       let avg := zeros2 (n_steps * 2) n_feature in
       fate_cells 2 n_cell n_feature n_steps direction V_func
                  init_states t_linspace (seq 0 n_cell)
                  (None, prediction, avg)
     else if String.eqb direction "forward"
             || String.eqb direction "backward" then
       let prediction := zeros2 (n_cell * n_steps) n_feature in
       let avg := zeros2 n_steps n_feature in
       fate_cells 1 n_cell n_feature n_steps direction V_func
                  init_states t_linspace (seq 0 n_cell)
                  (None, prediction, avg)
     else Raise direction_error) ;;
  let prediction := if average then avg else prediction in
  match t with
  | None => Raise UnboundLocalError
  | Some t => Ok (t, prediction, avg)
  end.

End Fate.

End FateM.



(** * dynamo/prediction/least_action_path.py *)

Module Lap.
Import Np Utils.

(** [action(path, vf_func, D, dt)], lines 14-22.  [vf_func] receives the
    whole array of segment centres. *)
Definition action (path : matrix) (vf_func : matrix -> matrix)
           (D dt : R) : R :=
  let x := mmulr (madd (init path) (rest path)) 0.5 in
  let v := mdiv (diff0 path) dt in
  let s := flatten (msub v (vf_func x)) in
  0.5 * dot s s * dt / D.

(** [reshape_path(path_flatten, dim, start, end)], lines 48-54.
    [int(len(path_flatten) / dim)] divides by [dim]. *)
Definition reshape_path (path_flatten : vec) (dim : nat)
           (start end_ : option vec) : result matrix :=
  if (dim =? 0)%nat then Raise ZeroDivisionError else
  path <- reshape path_flatten (length path_flatten / dim)%nat dim ;;
  path <- match start with
          | Some start => vstack_w dim [[start]; path]
          | None => Ok path
          end ;;
  match end_ with
  | Some end_ => vstack_w dim [path; [end_]]
  | None => Ok path
  end.

(** [action_aux], lines 25-27 *)
Definition action_aux (path_flatten : vec) (vf_func : matrix -> matrix)
           (dim : nat) (start end_ : option vec) (D dt : R) : result R :=
  path <- reshape_path path_flatten dim start end_ ;;
  Ok (action path vf_func D dt).

(** The array [J] of [jac_func]: [J[a][b][s]] is the entry [(a, b)] of the
    Jacobian at centre [s]; [slice_last J s] is [J[:, :, s]]. *)
Definition tensor3 := list (list vec).

Definition slice_last (J : tensor3) (s : nat) : matrix :=
  map (map (fun l => nth s l 0)) J.

(** [action_grad], lines 30-40, for arrays of the shapes the interface
    promises: [vf_func x] of the shape of [x], and [J] of shape
    [dim x dim x batch].  On other shapes numpy raises ([IndexError] for a
    missing slice, [ValueError] for a failed broadcast or product), while
    this function is total and its value there stands for nothing: what
    is proved of it below is to be read for arrays of these shapes. *)
Definition action_grad (path : matrix) (vf_func : matrix -> matrix)
           (jac_func : matrix -> tensor3) (D dt : R) : matrix :=
  let x := mmulr (madd (init path) (rest path)) 0.5 in
  let v := mdiv (diff0 path) dt in
  let dv := msub v (vf_func x) in
  let J := jac_func x in
  let z := zeros2 (length dv) (length (hd [] dv)) in
  let z := fold_left
             (fun z s => setitem z s (vecmat (nth s dv []) (slice_last J s)))
             (seq 0 (length dv)) z in
  msub (mdiv (msub (init dv) (rest dv)) D)
       (mscale (dt / (2 * D)) (madd (init z) (rest z))).

(** [action_grad_aux], lines 43-45 *)
Definition action_grad_aux (path_flatten : vec)
           (vf_func : matrix -> matrix) (jac_func : matrix -> tensor3)
           (dim : nat) (start end_ : option vec) (D dt : R) : result vec :=
  path <- reshape_path path_flatten dim start end_ ;;
  Ok (flatten (action_grad path vf_func jac_func D dt)).

(** The two closures of [least_action_path], lines 67-71.  Each calls its
    helper and ends without a [return] statement. *)
Definition fun_ (vf_func : matrix -> matrix) (dim : nat) (path_0 : matrix)
           (D dt_0 : R) (x : vec) : result (pyret R) :=
  start <- getitem path_0 0 ;;
  end_ <- getlast path_0 ;;
  _ <- action_aux x vf_func dim (Some start) (Some end_) D dt_0 ;;
  Ok PyNone.

Definition jac (vf_func : matrix -> matrix) (jac_func : matrix -> tensor3)
           (dim : nat) (path_0 : matrix) (D dt_0 : R) (x : vec)
  : result (pyret vec) :=
  start <- getitem path_0 0 ;;
  end_ <- getlast path_0 ;;
  _ <- action_grad_aux x vf_func jac_func dim (Some start) (Some end_)
                       D dt_0 ;;
  Ok PyNone.

(** [np.linspace(0, 1, n + 1, endpoint=True)] *)
Definition linspace01 (n : nat) : vec :=
  map (fun k => INR k / INR n) (seq 0 (n + 1)).

(** The straight seed of lines 60-63: row [k] is
    [start + linspace[k] * (end - start)]. *)
Definition straight_path (start end_ : vec) (n_points : nat) : matrix :=
  map (fun c => vadd start (vscale c (vsub end_ start)))
      (linspace01 n_points).

(** The fields of scipy's [OptimizeResult] that the code reads. *)
Record OptimizeResult : Type := mkResult {
  res_x : vec;
  res_fun : R;
  res_message : String.string
}.

Section Solver.

(** [scipy.optimize.minimize(fun, x0, jac=jac)] *)
Variable minimize :
  (vec -> result (pyret R)) -> option (vec -> result (pyret vec)) ->
  ndarray -> result OptimizeResult.

(** [least_action_path], lines 57-79.  The objective of the second
    minimisation gets the one-element array [t] and uses it as [dt]. *)
Definition least_action_path (start end_ : vec)
           (vf_func : matrix -> matrix) (jac_func : matrix -> tensor3)
           (n_points : nat) (init_path : option matrix) (D dt_0 : R)
  : result (matrix * R * R * OptimizeResult) :=
  let dim := length start in
  let path_0 :=
    match init_path with
    | None => straight_path start end_ n_points
    | Some init_path => init_path
    end in
  sol_dict <- minimize (fun_ vf_func dim path_0 D dt_0)
                       (Some (jac vf_func jac_func dim path_0 D dt_0))
                       (Arr2 (init (rest path_0))) ;;
  first <- getitem path_0 0 ;;
  last_ <- getlast path_0 ;;
  path_sol <- reshape_path (res_x sol_dict) dim (Some first) (Some last_) ;;
  t_dict <- minimize
              (fun t => Ok (PyReturn (action path_sol vf_func D (hd 0 t))))
              None (Scalar dt_0) ;;
  let action_opt := res_fun t_dict in
  dt_sol <- getitem (res_x t_dict) 0 ;;
  Ok (path_sol, dt_sol, action_opt, sol_dict).

End Solver.

Section InitPath.

Variable graph : Type.

(** [nearest_neighbors(x, coords, k)]: for each query the indices of its
    [k] nearest rows of [coords]. *)
Variable nearest_neighbors : vec -> matrix -> nat -> list (list nat).

(** [nx.shortest_path(G, source, target)] *)
Variable shortest_path : graph -> nat -> nat -> result (list nat).

(** [get_init_path], lines 82-96.  Its two helpers are imported from
    [dynamo/prediction/utils.py], which is not among the sources; the
    functions of these names in [dynamo/tools/utils.py] are taken for
    them.

    The step is the quotient of the arclength by [interpolation_num - 1].
    For [interpolation_num = 1] the divisor is 0.  When the filtered path
    has a single point the arclength is still the Python integer 0 and the
    division raises [ZeroDivisionError]; otherwise the arclength is a numpy
    float, and the quotient is [inf], or [nan] when the arclength is 0.
    These are no real numbers and the sampler is not run on them here.
    No sum of segment lengths reaches [inf] and every such sum is below it:
    the sampler emits nothing and ends after at most one turn.  Every
    comparison with [nan] is false: the sampler emits nothing and, once its
    loop is entered (three or more points), never ends. *)
Definition get_init_path (fuel : nat) (G : graph) (start end_ : vec)
           (coords : matrix) (interpolation_num : nat)
  : result matrix :=
  nn_s <- getitem (nearest_neighbors start coords 1) 0 ;;
  source_ind <- getitem nn_s 0 ;;
  nn_t <- getitem (nearest_neighbors end_ coords 1) 0 ;;
  target_ind <- getitem nn_t 0 ;;
  path <- shortest_path G source_ind target_ind ;;
  init_path <- take_rows coords path ;;
  ' (kept, arclen, _) <-
    remove_redundant_points_trajectory init_path (1 / 10000) ;;
  init_path_final <-
    (if (interpolation_num =? 1)%nat then
       if (length kept <=? 1)%nat then Raise ZeroDivisionError
       else if Rltb 0 arclen || (length init_path <? 3)%nat
            then Ok (np_array [])
            else OutOfFuel
     else
       let arc_stepsize := arclen / (INR interpolation_num - 1) in
       ' (init_path_final, _, _) <-
         arclength_sampling fuel init_path arc_stepsize
                            (Some (arange (length init_path))) ;;
       Ok init_path_final) ;;
  vstack [Arr1 start; init_path_final; Arr1 end_].

End InitPath.

(** Modelled from the spec: the base class [Trajectory] of
    [dynamo/prediction/trajectory.py], which is not among the sources; it
    owns the path [X] and the time grid [t] it is constructed with. *)
Record Trajectory : Type := mkTrajectory {
  X : matrix;
  t : vec
}.

Record LeastActionPath : Type := mkLeastActionPath {
  base : Trajectory;
  func : matrix -> matrix;
  D : R;
  _action : vec
}.

(** [LeastActionPath.__init__(X, vf_func, D, dt)], lines 151-157 *)
Definition LeastActionPath_init (X0 : matrix) (vf_func : matrix -> matrix)
           (D0 dt : R) : LeastActionPath :=
  let self_base := mkTrajectory X0 (vmulr (arange (length X0)) dt) in
  let self_func := vf_func in
  let self_D := D0 in
  let self_action := zeros (length X0) in
  let self_action :=
    fold_left
      (fun acc i =>
         setitem acc i
                 (action (firstn (i + 1) (X self_base)) self_func self_D dt))
      (seq 1 (length self_action - 1)) self_action in
  mkLeastActionPath self_base self_func self_D self_action.

(** ** The formula of the specification

    Written from its words: midpoints [m_i = (x_i + x_{i+1}) / 2],
    finite-difference velocities [v_i = (x_{i+1} - x_i) / dt], and
    [action = (dt / 2D) * sum_i |v_i - f(m_i)|^2]. *)
Definition midpoint (a b : vec) : vec := vdiv (vadd a b) 2.
Definition velocity (dt : R) (a b : vec) : vec := vdiv (vsub b a) dt.

Fixpoint segments (path : matrix) : list (vec * vec) :=
  match path with
  | a :: ((b :: _) as tl) => (a, b) :: segments tl
  | _ => []
  end.

Definition mismatch (f : vec -> vec) (dt : R) (seg : vec * vec) : R :=
  Rsqr (norm (vsub (velocity dt (fst seg) (snd seg))
                   (f (midpoint (fst seg) (snd seg))))).

Definition action_formula (path : matrix) (f : vec -> vec) (D dt : R) : R :=
  dt / (2 * D) * sum (map (mismatch f dt) (segments path)).

End Lap.

(** * Stand-ins for the external collaborators

    The solver, the optimizer, the neighbour search and the graph search
    are parameters of the embedding.  The worked examples below run it with
    these simple instances. *)

Module StandIns.
Import Np Lap.

(** The flattened starting point an optimizer works on. *)
Definition ravel (a : ndarray) : vec :=
  match a with
  | Scalar r => [r]
  | Arr1 v => v
  | Arr2 m => flatten m
  end.

(** An optimizer that, like scipy's, first evaluates the objective at the
    flattened starting point: an exception of the objective propagates,
    and a value that is no number ([None]) is a [TypeError] in the
    arithmetic that follows.  It then gives up and hands back the starting
    point with the value found there. *)
Definition minimize_checked
           (objective : vec -> result (pyret R))
           (gradient : option (vec -> result (pyret vec)))
           (x0 : ndarray) : result OptimizeResult :=
  value <- objective (ravel x0) ;;
  match value with
  | PyReturn f0 =>
      Ok (mkResult (ravel x0) f0 "stopped at the starting point")
  | PyNone => Raise TypeError
  end.

(** A one-step solver: the state at time [tk] is [y0 + tk * f(y0)]. *)
Definition odeint_tangent (f : vec -> vec) (y0 : vec) (t : vec) : matrix :=
  map (fun tk => vadd y0 (vscale tk (f y0))) t.

(** Three cells on a line, at 0, 1 and 2, joined in a chain. *)
Definition line_coords : matrix := [[0]; [1]; [2]].

Definition line_neighbors (x : vec) (coords : matrix) (k : nat)
  : list (list nat) :=
  if Rltb (hd 0 x) (1 / 2) then [[0%nat]] else [[2%nat]].

Definition line_shortest_path (G : unit) (source target : nat)
  : result (list nat) :=
  Ok (seq source (target - source + 1)).

End StandIns.

(** * Further functions of dynamo/tools/utils.py *)

Module UtilsMore.
Import Np Utils.

(** ** Dictionaries

    A Python [dict] with string keys: its items in insertion order, every
    key at most once. *)
Definition pydict (V : Type) : Type := list (String.string * V).

(** [d.get(k)] *)
Fixpoint dict_get {V} (d : pydict V) (k : String.string) : option V :=
  match d with
  | [] => None
  | (k', v) :: d' => if String.eqb k' k then Some v else dict_get d' k
  end.

(** [d[k] = v]: a present key keeps its place, a new key goes last. *)
Fixpoint dict_set {V} (d : pydict V) (k : String.string) (v : V)
  : pydict V :=
  match d with
  | [] => [(k, v)]
  | (k', v') :: d' =>
      if String.eqb k' k then (k', v) :: d'
      else (k', v') :: dict_set d' k v
  end.

(** [dict(items)] *)
Definition dict_of_items {V} (items : list (String.string * V)) : pydict V :=
  fold_left (fun d kv => dict_set d (fst kv) (snd kv)) items [].

(** [get_mapper()], lines 13-27 *)
Definition get_mapper : pydict String.string :=
  [ ("X_spliced", "M_s");
    ("X_unspliced", "M_u");
    ("X_new", "M_n");
    ("X_old", "M_o");
    ("X_total", "M_t");
    ("X_uu", "M_uu");
    ("X_ul", "M_ul");
    ("X_su", "M_su");
    ("X_sl", "M_sl");
    ("X_protein", "M_p");
    ("X", "X") ].

(** [get_mapper_inverse()], lines 30-33 *)
Definition get_mapper_inverse : pydict String.string :=
  let mapper := get_mapper in
  dict_of_items (map (fun kv => (snd kv, fst kv)) mapper).

(** [dict1.keys() & dict2.keys()].  Python iterates this set in an order of
    its own; here it is listed in the order of [dict1]. *)
Definition common_keys {V} (dict1 dict2 : pydict V) : list String.string :=
  filter (fun k => match dict_get dict2 k with
                   | Some _ => true
                   | None => false
                   end)
         (map fst dict1).

(** [update_dict(dict1, dict2)], lines 42-45.  [dict2[k]] is read for keys
    of [dict2] only, so it cannot fail. *)
Definition update_dict {V} (dict1 dict2 : pydict V) : pydict V :=
  fold_left (fun d k => match dict_get dict2 k with
                        | Some v => dict_set d k v
                        | None => d
                        end)
            (common_keys dict1 dict2) dict1.

(** ** Nearest cell *)




(** ** Means *)

(** [np.mean] of a one dimensional array *)
Definition mean (v : vec) : R := sum v / INR (length v).

(** ** Upper triangular matrices *)

(** [np.ceil(r)] as an integer *)
Definition Rceil (r : R) : Z := (1 - up (- r))%Z.

(** [M[i, j] = v] *)
Definition setitem2 (M : matrix) (i j : nat) (v : R) : matrix :=
  setitem M i (setitem (nth i M []) j v).

(** The inner loop of [form_triu_matrix], lines 106-112, over the columns
    [js] still to visit; it stops at the [break]. *)
Fixpoint triu_row (arr : vec) (i : nat) (js : list nat)
         (M : matrix) (c : nat) : matrix * nat :=
  match js with
  | [] => (M, c)
  | j :: js' =>
      if (i <=? j)%nat then
        if (c <? length arr)%nat
        then triu_row arr i js' (setitem2 M i j (nth c arr 0)) (S c)
        else (M, c)
      else triu_row arr i js' M c
  end.

(** [form_triu_matrix(arr)], lines 97-112 *)
Definition form_triu_matrix (arr : vec) : matrix :=
  let n := Z.to_nat (Rceil ((sqrt (1 + 8 * INR (length arr)) - 1) * 0.5)) in
  let M := zeros2 n n in
  fst (fold_left (fun Mc i => triu_row arr i (seq 0 n) (fst Mc) (snd Mc))
                 (seq 0 n) (M, 0%nat)).

(** ** Goodness of fit *)

(** [a.T] of a two dimensional array with at least one row *)
Fixpoint transpose (m : matrix) : matrix :=
  match m with
  | [] => []
  | r :: m' =>
      match m' with
      | [] => map (fun a => [a]) r
      | _ :: _ => map2 cons r (transpose m')
      end
  end.

(** [np.einsum('ij,ij -> i', d, d)] and [np.einsum('ij,ij -> j', d, d)] *)
Definition row_squares (d : matrix) : vec := map (fun r => dot r r) d.
Definition column_squares (d : matrix) : vec :=
  fold_right vadd (zeros (length (hd [] d)))
             (map (fun r => map2 Rmult r r) d).

(** The default [f] of [calc_R2]: [np.einsum('ij,i -> ij', X, k)] *)
Definition scale_rows (X : matrix) (k : vec) : matrix := map2 vscale k X.

Definition SS_tot (Y : matrix) : R :=
  let Y_bar := map mean Y in
  let d := map (fun row => vsub row Y_bar) (transpose Y) in
  sum (row_squares d).

(** [calc_R2(X, Y, k, f)], lines 816-833, for two dimensional [X] and [Y]
    and a one dimensional [k]. *)
Definition calc_R2 (X Y : matrix) (k : vec)
           (f : matrix -> vec -> matrix) : R :=
  let Y_bar := map mean Y in
  let d := map (fun row => vsub row Y_bar) (transpose Y) in
  let SS_tot := sum (row_squares d) in
  let F := f X k in
  let d := msub F Y in
  let SS_res := sum (column_squares d) in
  1 - SS_res / SS_tot.

End UtilsMore.

(** * Further functions of dynamo/prediction/least_action_path.py *)

Module LapMore.
Import Np Lap.

(** [LeastActionPath.get_t], lines 159-160 *)
Definition get_t (self : LeastActionPath) : vec := t (base self).

(** [LeastActionPath.mfpt(action)], lines 171-174 *)
Definition mfpt (self : LeastActionPath) (action : option vec) : vec :=
  let action := match action with
                | None => _action self
                | Some a => a
                end in
  map (fun a => 1 / exp (- a)) action.

End LapMore.

(** * Readings used in the statements *)

Section Readings.
Import Np Utils Lap FateM.

(** All rows have [dim] entries. *)
Definition has_width (dim : nat) (rows : matrix) : Prop :=
  Forall (fun r : vec => length r = dim) rows.

(** Whether point [i + 1] of [X] is closer than [tol] to point [i]. *)
Definition close_to_previous (X : matrix) (tol : R) (i : nat) : bool :=
  Rltb (norm (vsub (nth (i + 1) X []) (nth i X []))) tol.

(** The structural reading of the filter: a point is kept when it is not
    closer than [tol] to the point just before it in the input. *)
Fixpoint close_flags (prev : vec) (points : matrix) (tol : R) : list bool :=
  match points with
  | [] => []
  | x :: points' =>
      Rltb (norm (vsub x prev)) tol :: close_flags x points' tol
  end.

Fixpoint keep_far (prev : vec) (points : matrix) (tol : R) : matrix :=
  match points with
  | [] => []
  | x :: points' =>
      if Rltb (norm (vsub x prev)) tol then keep_far x points' tol
      else x :: keep_far x points' tol
  end.

(** The length of a polyline as lines 1454-1461 add it up. *)
Definition polyline_length (X : matrix) : R :=
  fold_left (arclength_step X (hd [] X)) (seq 1 (length X - 1)) 0.

(** The sampler's variables with another value of [arclength]. *)
Definition with_arclength (st : sampler) (a : R) : sampler :=
  mkSampler (s_Y st) (s_x0 st) (s_T st) (s_t0 st) (s_i st)
            (s_terminate st) a.

(** The block the direction ['both'] produces for one cell: row [j] holds
    row [j] of the reversed backward run and, to its right, row [j] of the
    forward run. *)
Definition side_by_side (odeint : (vec -> vec) -> vec -> vec -> matrix)
           (f : vec -> vec) (t y0 : vec) : matrix :=
  map2 (@app R) (rev (odeint f y0 (vneg t))) (odeint f y0 t).

(** The three strings the integration functions accept. *)
Definition valid_direction (direction : String.string) : Prop :=
  direction = "forward" \/ direction = "backward" \/ direction = "both".

(** The claim as the specification words it: in the output every two
    consecutive retained points are at least [tol] apart. *)
Definition retained_neighbours_far_apart : Prop :=
  forall (X : matrix) (tol : R) X' arclength discard,
    remove_redundant_points_trajectory X tol = Ok (X', arclength, discard) ->
    forall i q p,
      nth_error X' i = Some q -> nth_error X' (i + 1) = Some p ->
      norm (vsub p q) >= tol.

End Readings.

(** * Readings used in the further statements *)

Section ReadingsMore.
Import Np Utils.

(** The length of the polyline that starts at [prev] and runs through
    [points]. *)
Fixpoint polyline_from (prev : vec) (points : matrix) : R :=
  match points with
  | [] => 0
  | x :: points' => norm (vsub x prev) + polyline_from x points'
  end.

(** Whether the list of times [T] goes with the samples [Y]: absent when no
    times were given, else one time for every sample. *)
Definition times_match (t : option vec) (Y : list vec)
           (T : option (list R)) : Prop :=
  match t with
  | None => T = None
  | Some _ => exists times, T = Some times /\ length times = length Y
  end.

(** The points [X[i], ..., X[j - 1]]. *)
Definition points_between (X : matrix) (i j : nat) : matrix :=
  firstn (j - i) (skipn i X).

(** The run of one cell in the direction ['forward'] or ['backward']: the
    solver's states on [t] or on [-t]. *)
Definition one_way (odeint : (vec -> vec) -> vec -> vec -> matrix)
           (f : vec -> vec) (t : vec) (direction : String.string)
           (y0 : vec) : matrix :=
  odeint f y0 (if String.eqb direction "backward" then vneg t else t).

(** The mean over the cells [k] of the rows [k * t_len + i] of [Y]. *)
Definition strided_mean (Y : matrix) (n_cell t_len i : nat) : vec :=
  mean0 (map (fun k => nth (k * t_len + i)%nat Y []) (seq 0 n_cell)).

(** The number of entries in the upper triangles of the rows before row
    [i] of an [n] by [n] matrix. *)
Fixpoint triu_offset (n i : nat) : nat :=
  match i with
  | O => O
  | S i' => (triu_offset n i' + (n - i'))%nat
  end.

End ReadingsMore.

(** * Properties *)

Section ActionProps.
Import Np Lap.

Lemma sum_app u v : sum (u ++ v) = sum u + sum v.
Proof.
  unfold sum. induction u as [|a u IH]; simpl; [lra | rewrite IH; lra].
Qed.

Lemma map2_app {A B C} (f : A -> B -> C) u u' v v' :
  length u = length v ->
  map2 f (u ++ u') (v ++ v') = map2 f u v ++ map2 f u' v'.
Proof.
  revert v. induction u as [|a u IH]; intros [|b v] H; simpl in *;
    try discriminate; auto.
  f_equal. apply IH. lia.
Qed.

Lemma dot_self_nonneg v : 0 <= dot v v.
Proof.
  unfold dot, sum. induction v as [|a v IH]; simpl; [lra | nra].
Qed.

Lemma sqr_norm v : Rsqr (norm v) = dot v v.
Proof.
  unfold norm. apply Rsqr_sqrt, dot_self_nonneg.
Qed.

Lemma dot_concat (rows : matrix) :
  dot (flatten rows) (flatten rows) = sum (map (fun r => dot r r) rows).
Proof.
  unfold flatten. induction rows as [|r rows IH]; simpl; [reflexivity|].
  unfold dot at 1. rewrite map2_app by reflexivity.
  rewrite sum_app. fold (dot r r). fold (dot (concat rows) (concat rows)).
  rewrite IH. reflexivity.
Qed.

Lemma init_cons2 {A} (a b : A) l : init (a :: b :: l) = a :: init (b :: l).
Proof. reflexivity. Qed.

(** The rows of [v - f(x)] computed with array slices are the per-segment
    mismatches of the formula. *)
Lemma residual_rows (f : vec -> vec) dt path :
  msub (mdiv (diff0 path) dt)
       (map f (mmulr (madd (init path) (rest path)) 0.5))
  = map (fun seg => vsub (velocity dt (fst seg) (snd seg))
                         (f (midpoint (fst seg) (snd seg))))
        (segments path).
Proof.
  destruct path as [|a path]; [reflexivity|].
  revert a. induction path as [|b path IH]; intros a; [reflexivity|].
  specialize (IH b).
  unfold diff0, rest in *. rewrite init_cons2.
  cbn [tl] in *.
  change (segments (a :: b :: path)) with ((a, b) :: segments (b :: path)).
  cbn [map fst snd].
  rewrite <- IH. clear IH.
  unfold msub, mdiv, mmulr, madd. cbn [map2 map].
  f_equal. unfold velocity, midpoint. f_equal. f_equal.
  unfold vmulr, vdiv. apply map_ext. intros; lra.
Qed.

End ActionProps.

Section ActionTheorems.
Import Np Lap.

Lemma action_as_sum (path : matrix) (f : vec -> vec) (D dt : R) :
  action path (map f) D dt = action_formula path f D dt.
Proof.
  unfold action, action_formula.
  rewrite residual_rows, dot_concat, map_map.
  erewrite map_ext with (g := mismatch f dt);
    [| intros seg; unfold mismatch; now rewrite sqr_norm].
  unfold Rdiv. rewrite Rinv_mult.
  replace 0.5 with (/ 2) by lra. ring.
Qed.

Lemma sum_nonneg (v : vec) : Forall (fun a => 0 <= a) v -> 0 <= sum v.
Proof.
  unfold sum. induction 1; simpl; lra.
Qed.

Lemma action_formula_nonneg path f D dt :
  0 < D -> 0 < dt -> 0 <= action_formula path f D dt.
Proof.
  intros HD Hdt. unfold action_formula.
  apply Rmult_le_pos.
  - apply Rlt_le, Rdiv_lt_0_compat; lra.
  - apply sum_nonneg, Forall_forall. intros a Ha.
    apply in_map_iff in Ha. destruct Ha as [seg [<- _]].
    unfold mismatch. apply Rle_0_sqr.
Qed.

(** The scenario of the specification: along the constant field (1,1) the
    straight step from (0,0) to (1,1) in time 1 costs nothing. *)
Example action_of_matching_step :
  action [[0; 0]; [1; 1]] (map (fun _ : vec => [1; 1])) 1 1 = 0.
Proof.
  unfold action, dot, sum. simpl. lra.
Qed.

(** C6.  [action] is [(dt / 2D)] times the sum over the segments of the
    squared Euclidean norm of [v_i - f(m_i)]; hence for [D > 0] and
    [dt > 0] it is non-negative, and it is zero on a single-point path. *)
Theorem action_scaled_squared_mismatch :
  forall (path : matrix) (f : vec -> vec) (D dt : R),
    action path (map f) D dt
    = dt / (2 * D) * sum (map (mismatch f dt) (segments path))
    /\ (0 < D -> 0 < dt -> 0 <= action path (map f) D dt)
    /\ (forall x0 : vec, action [x0] (map f) D dt = 0).
Proof.
  intros path f D dt. split; [apply action_as_sum|]. split.
  - intros HD Hdt. rewrite action_as_sum.
    now apply action_formula_nonneg.
  - intros x0. rewrite action_as_sum. unfold action_formula. simpl.
    unfold sum. simpl. ring.
Qed.

Lemma action_scaled_squared_mismatch_witness :
  0 < 1 /\ 0 < 1
  /\ 0 <= action [[0; 0]; [1; 1]] (map (fun x : vec => [1; 1])) 1 1.
Proof.
  split; [lra|]. split; [lra|].
  apply (proj1 (proj2 (action_scaled_squared_mismatch
                         [[0; 0]; [1; 1]] (fun _ => [1; 1]) 1 1))); lra.
Defined.

End ActionTheorems.

Section ListFacts.
Import Np.

Lemma getitem_Ok {A} (l : list A) i a :
  getitem l i = Ok a <-> nth_error l i = Some a.
Proof.
  unfold getitem. destruct (nth_error l i); split; intros H;
    inversion H; subst; reflexivity.
Qed.

Lemma getlast_app {A} (l : list A) a : getlast (l ++ [a]) = Ok a.
Proof.
  destruct l as [|b l]; [reflexivity|].
  simpl. f_equal. now rewrite last_last.
Qed.

Lemma length_setitem {A} (l : list A) i x : length (setitem l i x) = length l.
Proof.
  revert i. induction l as [|a l IH]; intros [|i]; simpl; auto.
Qed.

Lemma nth_error_setitem {A} (l : list A) i j x :
  nth_error (setitem l i x) j =
  if (j =? i)%nat then (if (i <? length l)%nat then Some x else None)
  else nth_error l j.
Proof.
  revert i j. induction l as [|a l IH]; intros i j.
  - simpl. destruct (j =? i)%nat; destruct i, j; reflexivity.
  - destruct i as [|i], j as [|j]; simpl; auto.
Qed.

(** A loop [for i in range(a, a + k): acc[i] = g(acc, i)] that stays inside
    [acc] leaves the entries outside the range alone and writes the others
    once. *)
Lemma fold_setitem_nth {A} (g : nat -> A) k :
  forall a (l : list A) i,
    (a + k <= length l)%nat ->
    nth_error (fold_left (fun acc j => setitem acc j (g j)) (seq a k) l) i
    = if ((a <=? i) && (i <? a + k))%nat then Some (g i) else nth_error l i.
Proof.
  induction k as [|k IH]; intros a l i Hlen; simpl.
  - replace (i <? a + 0)%nat with (i <? a)%nat by (f_equal; lia).
    destruct (a <=? i)%nat eqn:E1; destruct (i <? a)%nat eqn:E2; simpl; auto.
    apply Nat.leb_le in E1. apply Nat.ltb_lt in E2. lia.
  - rewrite IH by (rewrite length_setitem; lia).
    rewrite nth_error_setitem.
    destruct (Nat.eq_dec i a) as [->|Hne].
    + rewrite Nat.eqb_refl.
      replace (S a <=? a)%nat with false by (symmetry; apply Nat.leb_gt; lia).
      rewrite Nat.leb_refl. simpl.
      replace (a <? length l)%nat with true
        by (symmetry; apply Nat.ltb_lt; lia).
      replace (a <? a + S k)%nat with true
        by (symmetry; apply Nat.ltb_lt; lia).
      reflexivity.
    + replace (i =? a)%nat with false by (symmetry; now apply Nat.eqb_neq).
      replace (i <? a + S k)%nat with (i <? S a + k)%nat by (f_equal; lia).
      destruct (S a <=? i)%nat eqn:E1; destruct (a <=? i)%nat eqn:E2;
        simpl; auto.
      * apply Nat.leb_le in E1. apply Nat.leb_gt in E2. lia.
      * apply Nat.leb_gt in E1. apply Nat.leb_le in E2.
        replace (i <? S a + k)%nat with true
          by (symmetry; apply Nat.ltb_lt; lia).
        exfalso. lia.
Qed.

Lemma fold_setitem_length {A} (g : list A -> nat -> A) js :
  forall l : list A,
    length (fold_left (fun acc j => setitem acc j (g acc j)) js l) = length l.
Proof.
  induction js as [|j js IH]; intros l; simpl; [reflexivity|].
  now rewrite IH, length_setitem.
Qed.

Lemma skipn_step {A} (l : list A) i a :
  nth_error l i = Some a -> skipn i l = a :: skipn (S i) l.
Proof.
  revert i. induction l as [|b l IH]; intros [|i] H; simpl in *;
    try discriminate.
  - now inversion H.
  - now apply IH.
Qed.

Lemma nth_error_repeat {A} (a : A) n i :
  (i < n)%nat -> nth_error (repeat a n) i = Some a.
Proof.
  revert i. induction n as [|n IH]; intros [|i] H; simpl; try lia; auto.
  apply IH. lia.
Qed.

End ListFacts.

Section SolverTheorems.
Import Np Lap.

Lemma vstack_w_Ok width blocks rows :
  vstack_w width blocks = Ok rows -> rows = concat blocks.
Proof.
  unfold vstack_w.
  match goal with |- context [forallb ?p blocks] =>
    destruct (forallb p blocks) end; intros H; inversion H; auto.
Qed.

(** [reshape_path] with both boundary points puts [start] first and [end]
    last. *)
Lemma reshape_path_ends x dim start end_ path :
  reshape_path x dim (Some start) (Some end_) = Ok path ->
  exists inner, path = start :: inner ++ [end_].
Proof.
  unfold reshape_path. destruct (dim =? 0)%nat; [discriminate|].
  destruct (reshape x (length x / dim) dim) as [p| |]; simpl; try discriminate.
  destruct (vstack_w dim [[start]; p]) as [p1| |] eqn:E1; simpl;
    try discriminate.
  intros E2. apply vstack_w_Ok in E1. apply vstack_w_Ok in E2.
  simpl in E1, E2. subst. exists p. simpl. now rewrite !app_nil_r.
Qed.

Lemma ends_getitem (start end_ : vec) inner :
  getitem (start :: inner ++ [end_]) 0 = Ok start
  /\ getlast (start :: inner ++ [end_]) = Ok end_.
Proof.
  split; [reflexivity|].
  change (start :: inner ++ [end_]) with ((start :: inner) ++ [end_]).
  apply getlast_app.
Qed.

(** C1.  The closures [fun] and [jac] that [least_action_path] hands to the
    minimizer compute the action (and its gradient) of the path assembled
    around [x] and then end without returning it: at every interior vector
    [x] for which the assembled path exists, both give [None], while
    [action_aux] gives the action of that path. *)
Theorem closures_return_none :
  forall (vf_func : matrix -> matrix) (jac_func : matrix -> tensor3)
         (dim : nat) (path_0 : matrix) (D dt_0 : R) (x : vec)
         (start end_ : vec) (path : matrix),
    getitem path_0 0 = Ok start ->
    getlast path_0 = Ok end_ ->
    reshape_path x dim (Some start) (Some end_) = Ok path ->
    action_aux x vf_func dim (Some start) (Some end_) D dt_0
    = Ok (action path vf_func D dt_0)
    /\ fun_ vf_func dim path_0 D dt_0 x = Ok PyNone
    /\ jac vf_func jac_func dim path_0 D dt_0 x = Ok PyNone.
Proof.
  intros vf_func jac_func dim path_0 D dt_0 x start end_ path Hs He Hp.
  unfold fun_, jac, action_aux, action_grad_aux.
  rewrite Hs, He. simpl. rewrite Hp. simpl. repeat split; reflexivity.
Qed.

Lemma closures_return_none_witness :
  getitem [[0]; [1]; [2]] 0 = Ok [0]
  /\ getlast [[0]; [1]; [2]] = Ok [2]
  /\ reshape_path [1] 1 (Some [0]) (Some [2]) = Ok [[0]; [1]; [2]]
  /\ action_aux [1] (fun m => m) 1 (Some [0]) (Some [2]) 1 1
     = Ok (action [[0]; [1]; [2]] (fun m => m) 1 1)
  /\ fun_ (fun m => m) 1 [[0]; [1]; [2]] 1 1 [1] = Ok PyNone
  /\ jac (fun m => m) (fun m => [[map (fun _ => 0) m]]) 1
         [[0]; [1]; [2]] 1 1 [1] = Ok PyNone.
Proof.
  split; [reflexivity|]. split; [reflexivity|]. split; [reflexivity|].
  apply (closures_return_none (fun m => m)
           (fun m => [[map (fun _ => 0) m]]) 1
           [[0]; [1]; [2]] 1 1 [1] [0] [2] [[0]; [1]; [2]]); reflexivity.
Defined.

End SolverTheorems.

Section BoundaryTheorems.
Import Np Lap StandIns.

(** The objective [least_action_path] hands to the minimizer never gives a
    number: it ends without a [return], or fails before. *)
Lemma fun_gives_no_number vf_func dim path_0 D dt_0 x v :
  fun_ vf_func dim path_0 D dt_0 x <> Ok (PyReturn v).
Proof.
  unfold fun_.
  destruct (getitem path_0 0) as [start| |]; cbn [bind]; try discriminate.
  destruct (getlast path_0) as [end_| |]; cbn [bind]; try discriminate.
  destruct (action_aux x vf_func dim (Some start) (Some end_) D dt_0)
    as [a| |]; cbn [bind]; discriminate.
Qed.

Lemma minimize_checked_reads objective gradient x0 res :
  minimize_checked objective gradient x0 = Ok res ->
  exists v, objective (ravel x0) = Ok (PyReturn v).
Proof.
  unfold minimize_checked.
  destruct (objective (ravel x0)) as [[|v]| |]; cbn [bind];
    try discriminate.
  intros _. now exists v.
Qed.

(** C5.  [least_action_path] keeps the boundary out of the optimizer: the
    path it assembles around whatever the optimizer hands back starts with
    the first and ends with the last point it passes to [reshape_path].
    But no call ever returns this path.  The objective it hands to the
    minimizer (the closure [fun], lines 67-68) has no [return], so it never
    gives a number, and an optimizer returns only after it has evaluated
    the objective at its starting point to a number: whatever the
    arguments, the first [minimize] call fails and [least_action_path]
    returns nothing. *)
Theorem least_action_path_never_returns :
  forall (minimize :
            (vec -> result (pyret R)) ->
            option (vec -> result (pyret vec)) ->
            ndarray -> result OptimizeResult),
    (forall objective gradient x0 res,
        minimize objective gradient x0 = Ok res ->
        exists v, objective (ravel x0) = Ok (PyReturn v)) ->
    forall (start end_ : vec) (vf_func : matrix -> matrix)
           (jac_func : matrix -> tensor3) (n_points : nat)
           (init_path : option matrix) (D dt_0 : R),
      (forall result,
          least_action_path minimize start end_ vf_func jac_func n_points
                            init_path D dt_0
          <> Ok result)
      /\ (forall (x first last_ : vec) (path : matrix),
             reshape_path x (length start) (Some first) (Some last_)
             = Ok path ->
             getitem path 0 = Ok first /\ getlast path = Ok last_).
Proof.
  intros minimize Hreads start end_ vf_func jac_func n_points init_path
         D dt_0.
  split.
  - intros result Hrun. unfold least_action_path in Hrun.
    match type of Hrun with
    | context [minimize ?obj ?grad ?x0] =>
        destruct (minimize obj grad x0) as [sol| |] eqn:Hmin
    end; cbn [bind] in Hrun; try discriminate.
    apply Hreads in Hmin. destruct Hmin as [v Hv].
    exact (fun_gives_no_number _ _ _ _ _ _ _ Hv).
  - intros x first last_ path Hp.
    apply reshape_path_ends in Hp. destruct Hp as [inner ->].
    apply ends_getitem.
Qed.

(** From 0 to 2 with two interior steps, under the identity field: the
    first [minimize] call evaluates the objective, gets [None], and the
    call ends with a [TypeError]. *)
Lemma least_action_path_never_returns_witness :
  least_action_path minimize_checked [0] [2] (fun m => m)
                    (fun m => [[map (fun _ => 0) m]]) 2 None 1 1
  = Raise TypeError
  /\ forall result,
       least_action_path minimize_checked [0] [2] (fun m => m)
                         (fun m => [[map (fun _ => 0) m]]) 2 None 1 1
       <> Ok result.
Proof.
  split; [reflexivity|].
  apply (proj1 (least_action_path_never_returns
                  minimize_checked minimize_checked_reads [0] [2]
                  (fun m => m) (fun m => [[map (fun _ => 0) m]])
                  2%nat None 1 1)).
Defined.

End BoundaryTheorems.

Section TrajectoryTheorems.
Import Np Lap.

Lemma length_arange n : length (arange n) = n.
Proof. unfold arange. now rewrite length_map, length_seq. Qed.

Lemma nth_error_arange n i :
  (i < n)%nat -> nth_error (arange n) i = Some (INR i).
Proof.
  intros H. unfold arange.
  rewrite nth_error_map, nth_error_seq.
  replace (i <? n)%nat with true by (symmetry; now apply Nat.ltb_lt).
  reflexivity.
Qed.

(** C10.  A [LeastActionPath] built from [X], a vector field, [D] and [dt]
    stores the path, the vector field and [D] as given and has the time
    grid [t_i = i * dt]; its cached series has one entry per point, starts
    with exactly 0, and holds at every later index [i] the action of the
    prefix [x_0 .. x_i], computed from scratch with the given vector field,
    the given [D] and [dt]. *)
Theorem cumulative_action_of_prefixes :
  forall (X0 : matrix) (vf_func : matrix -> matrix) (D0 dt : R),
    let L := LeastActionPath_init X0 vf_func D0 dt in
    X (base L) = X0
    /\ func L = vf_func
    /\ D L = D0
    /\ length (t (base L)) = length X0
    /\ length (_action L) = length X0
    /\ (forall i, (i < length X0)%nat ->
          nth_error (t (base L)) i = Some (INR i * dt))
    /\ ((0 < length X0)%nat -> nth_error (_action L) 0 = Some 0)
    /\ (forall i, (1 <= i < length X0)%nat ->
          nth_error (_action L) i
          = Some (action (firstn (i + 1) X0) vf_func D0 dt)).
Proof.
  intros X0 vf_func D0 dt L. subst L. unfold LeastActionPath_init.
  cbn [base X t _action func D].
  assert (Hz : length (zeros (length X0)) = length X0)
    by (unfold zeros; apply repeat_length).
  rewrite Hz.
  set (g := fun i : nat => action (firstn (i + 1) X0) vf_func D0 dt).
  split; [reflexivity|]. split; [reflexivity|]. split; [reflexivity|].
  split.
  { unfold vmulr. now rewrite length_map, length_arange. }
  split.
  { rewrite (fold_setitem_length (fun _ => g)). exact Hz. }
  split.
  { intros i Hi. unfold vmulr. rewrite nth_error_map.
    now rewrite nth_error_arange. }
  assert (Hnth : forall i, (0 < length X0)%nat ->
    nth_error (fold_left (fun acc j => setitem acc j (g j))
                         (seq 1 (length X0 - 1)) (zeros (length X0))) i
    = if ((1 <=? i) && (i <? 1 + (length X0 - 1)))%nat
      then Some (g i) else nth_error (zeros (length X0)) i).
  { intros i Hpos. apply fold_setitem_nth. rewrite Hz. lia. }
  split.
  { intros Hpos. rewrite Hnth by assumption.
    change ((1 <=? 0)%nat && (0 <? 1 + (length X0 - 1))%nat) with false.
    unfold zeros. now apply nth_error_repeat. }
  intros i [H1 Hi]. rewrite Hnth by lia.
  replace (1 <=? i)%nat with true by (symmetry; now apply Nat.leb_le).
  replace (i <? 1 + (length X0 - 1))%nat with true
    by (symmetry; apply Nat.ltb_lt; lia).
  reflexivity.
Qed.

(** The path 0, 1, 3 under the identity field with [D = 2] and
    [dt = 1/2]: the cached series is 0, 9/32, 25/32, and the time of the
    last point is 1. *)
Lemma cumulative_action_of_prefixes_witness :
  nth_error (_action (LeastActionPath_init [[0]; [1]; [3]] (fun m => m)
                                           2 (1 / 2))) 1
  = Some (9 / 32)
  /\ nth_error (_action (LeastActionPath_init [[0]; [1]; [3]] (fun m => m)
                                              2 (1 / 2))) 2
     = Some (25 / 32)
  /\ nth_error (t (base (LeastActionPath_init [[0]; [1]; [3]] (fun m => m)
                                              2 (1 / 2)))) 2
     = Some (INR 2 * (1 / 2)).
Proof.
  destruct (cumulative_action_of_prefixes [[0]; [1]; [3]] (fun m => m)
                                          2 (1 / 2))
    as [_ [_ [_ [_ [_ [Ht [_ Hact]]]]]]].
  split; [|split].
  - rewrite (Hact 1%nat) by (cbn [length]; lia).
    f_equal. unfold action, dot, sum. cbn. lra.
  - rewrite (Hact 2%nat) by (cbn [length]; lia).
    f_equal. unfold action, dot, sum. cbn. lra.
  - apply Ht. cbn [length]. lia.
Defined.

End TrajectoryTheorems.

Arguments Np.norm : simpl never.

Section Comparisons.
Import Np.

Lemma Rltb_true a b : a < b -> Rltb a b = true.
Proof. intros H. unfold Rltb. destruct (Rlt_dec a b); [reflexivity|lra]. Qed.

Lemma Rltb_false a b : a >= b -> Rltb a b = false.
Proof. intros H. unfold Rltb. destruct (Rlt_dec a b); [lra|reflexivity]. Qed.

Lemma Rgeb_true a b : a >= b -> Rgeb a b = true.
Proof. intros H. unfold Rgeb. destruct (Rge_dec a b); [reflexivity|lra]. Qed.

Lemma Rgeb_false a b : a < b -> Rgeb a b = false.
Proof. intros H. unfold Rgeb. destruct (Rge_dec a b); [lra|reflexivity]. Qed.

Lemma Rltb_spec a b : Rltb a b = false <-> a >= b.
Proof.
  unfold Rltb. destruct (Rlt_dec a b); split; intros H;
    try reflexivity; try discriminate; lra.
Qed.

(** The norm of a point on the line is its absolute value. *)
Lemma norm1 x : norm [x] = Rabs x.
Proof.
  unfold norm, dot, sum. simpl. rewrite Rplus_0_r.
  apply sqrt_Rsqr_abs.
Qed.

End Comparisons.

Ltac cmp_tac :=
  cbn [Np.vsub Np.vadd Np.vscale Np.vdiv Np.vmulr Np.map2 map];
  rewrite ?norm1; unfold Rabs; repeat destruct (Rcase_abs _); lra.

Ltac eval_cmp :=
  repeat match goal with
    | |- context [Rltb ?a ?b] =>
        first [ rewrite (Rltb_true a b) by cmp_tac
              | rewrite (Rltb_false a b) by cmp_tac ]
    | |- context [Rgeb ?a ?b] =>
        first [ rewrite (Rgeb_true a b) by cmp_tac
              | rewrite (Rgeb_false a b) by cmp_tac ]
    end.

Section FilterTheorems.
Import Np Utils.

Lemma discard_fold_nth X tol k :
  forall a (l : list bool) j,
    (a + k < length l)%nat ->
    nth_error (fold_left (discard_step X tol) (seq a k) l) j
    = if ((a <? j) && (j <=? a + k))%nat && close_to_previous X tol (j - 1)
      then Some true else nth_error l j.
Proof.
  induction k as [|k IH]; intros a l j Hlen.
  - simpl. replace ((a <? j) && (j <=? a + 0))%nat with false; [reflexivity|].
    symmetry. apply andb_false_iff.
    destruct (Nat.lt_ge_cases a j); [right; apply Nat.leb_gt; lia
                                    |left; apply Nat.ltb_ge; lia].
  - cbn [seq fold_left].
    assert (Hstep : length (discard_step X tol l a) = length l).
    { unfold discard_step. destruct (Rltb _ tol); auto using length_setitem. }
    rewrite IH by (rewrite Hstep; lia).
    destruct (Nat.eq_dec j (S a)) as [->|Hne].
    + replace (S a <? S a)%nat with false by (symmetry; apply Nat.ltb_irrefl).
      replace (a <? S a)%nat with true by (symmetry; apply Nat.ltb_lt; lia).
      replace (S a <=? a + S k)%nat with true
        by (symmetry; apply Nat.leb_le; lia).
      cbn [andb]. unfold discard_step, close_to_previous.
      replace (S a - 1)%nat with a by lia.
      destruct (Rltb _ tol); [|reflexivity].
      rewrite nth_error_setitem.
      replace (S a =? a + 1)%nat with true by (symmetry; apply Nat.eqb_eq; lia).
      replace (a + 1 <? length l)%nat with true
        by (symmetry; apply Nat.ltb_lt; lia).
      reflexivity.
    + assert (Hsame : nth_error (discard_step X tol l a) j = nth_error l j).
      { unfold discard_step. destruct (Rltb _ tol); [|reflexivity].
        rewrite nth_error_setitem.
        replace (j =? a + 1)%nat with false
          by (symmetry; apply Nat.eqb_neq; lia).
        reflexivity. }
      rewrite Hsame.
      replace ((S a <? j) && (j <=? S a + k))%nat
        with ((a <? j) && (j <=? a + S k))%nat; [reflexivity|].
      destruct (Nat.lt_ge_cases a j) as [Hlt|Hge].
      * replace (a <? j)%nat with true by (symmetry; apply Nat.ltb_lt; lia).
        replace (S a <? j)%nat with true by (symmetry; apply Nat.ltb_lt; lia).
        cbn [andb]. f_equal. lia.
      * replace (a <? j)%nat with false by (symmetry; apply Nat.ltb_ge; lia).
        replace (S a <? j)%nat with false by (symmetry; apply Nat.ltb_ge; lia).
        reflexivity.
Qed.

Lemma length_close_flags prev points tol :
  length (close_flags prev points tol) = length points.
Proof.
  revert prev. induction points as [|x points IH]; intros prev; simpl; auto.
Qed.

Lemma nth_error_close_flags points tol :
  forall prev i,
    (i < length points)%nat ->
    nth_error (close_flags prev points tol) i
    = Some (close_to_previous (prev :: points) tol i).
Proof.
  induction points as [|x points IH]; intros prev i Hi; simpl in Hi; [lia|].
  destruct i as [|i]; [reflexivity|].
  cbn [close_flags nth_error]. rewrite IH by lia.
  unfold close_to_previous. reflexivity.
Qed.

Lemma select_not_close_flags points tol :
  forall prev,
    select_not (close_flags prev points tol) points = keep_far prev points tol.
Proof.
  induction points as [|x points IH]; intros prev; simpl; [reflexivity|].
  destruct (Rltb _ tol); now rewrite IH.
Qed.

Lemma nth_error_ext {A} (l l' : list A) :
  (forall i, nth_error l i = nth_error l' i) -> l = l'.
Proof.
  revert l'. induction l as [|a l IH]; intros [|b l'] H; auto.
  - specialize (H 0%nat). discriminate.
  - specialize (H 0%nat). discriminate.
  - f_equal.
    + specialize (H 0%nat). now inversion H.
    + apply IH. intros i. apply (H (S i)).
Qed.

(** The flags the loop computes are those of the structural reading. *)
Lemma discard_flags_structural x0 points tol :
  fold_left (discard_step (x0 :: points) tol)
            (seq 0 (length (x0 :: points) - 1))
            (repeat false (length (x0 :: points)))
  = false :: close_flags x0 points tol.
Proof.
  apply nth_error_ext. intros j.
  rewrite discard_fold_nth by (rewrite repeat_length; simpl; lia).
  cbn [length]. replace (S (length points) - 1)%nat with (length points) by lia.
  destruct j as [|j].
  - reflexivity.
  - cbn [Nat.ltb Nat.leb andb nth_error Nat.add repeat].
    replace (S j - 1)%nat with j by lia.
    destruct (Nat.lt_ge_cases j (length points)) as [Hlt|Hge].
    + rewrite nth_error_close_flags by assumption.
      replace (j <=? length points)%nat with true
        by (symmetry; apply Nat.leb_le; lia).
      replace (match length points with
               | 0%nat => false
               | S m' => (j <=? m')%nat
               end) with true
        by (symmetry; destruct (length points); [lia|apply Nat.leb_le; lia]).
      cbn [andb].
      rewrite nth_error_repeat by assumption.
      destruct (close_to_previous (x0 :: points) tol j); reflexivity.
    + replace (match length points with
               | 0%nat => false
               | S m' => (j <=? m')%nat
               end) with false
        by (symmetry; destruct (length points); [reflexivity
                                                |apply Nat.leb_gt; lia]).
      cbn [andb].
      transitivity (@None bool); [|symmetry];
        apply nth_error_None;
        rewrite ?repeat_length, ?length_close_flags; lia.
Qed.

(** What [remove_redundant_points_trajectory] returns on a path with at
    least one point. *)
Lemma remove_redundant_structural x0 points tol :
  remove_redundant_points_trajectory (x0 :: points) tol
  = Ok (x0 :: keep_far x0 points tol,
        polyline_length (x0 :: keep_far x0 points tol),
        false :: close_flags x0 points tol).
Proof.
  unfold remove_redundant_points_trajectory.
  destruct points as [|x1 points].
  - reflexivity.
  - replace (1 <? length (x0 :: x1 :: points))%nat with true by reflexivity.
    rewrite discard_flags_structural.
    cbn [select_not]. rewrite select_not_close_flags.
    reflexivity.
Qed.

End FilterTheorems.

Section FilterClaim.
Import Np Utils.

Lemma keep_far_In tol points :
  forall prev p,
    In p (keep_far prev points tol) <->
    exists i q, nth_error (prev :: points) i = Some q
                /\ nth_error (prev :: points) (i + 1) = Some p
                /\ norm (vsub p q) >= tol.
Proof.
  induction points as [|x points IH]; intros prev p.
  - simpl. split; [tauto|]. intros [i [q [_ [H _]]]].
    replace (i + 1)%nat with (S i) in H by lia. simpl in H.
    destruct i; discriminate.
  - cbn [keep_far]. destruct (Rltb (norm (vsub x prev)) tol) eqn:E.
    + rewrite IH. split.
      * intros [i [q [H1 [H2 H3]]]]. exists (S i), q. auto.
      * intros [[|i] [q [H1 [H2 H3]]]].
        -- simpl in H1, H2. inversion H1; inversion H2; subst.
           unfold Rltb in E. destruct (Rlt_dec _ tol); [lra|discriminate].
        -- exists i, q. auto.
    + cbn [In]. rewrite IH. split.
      * intros [->|[i [q [H1 [H2 H3]]]]].
        -- exists 0%nat, prev. repeat split. now apply Rltb_spec.
        -- exists (S i), q. auto.
      * intros [[|i] [q [H1 [H2 H3]]]].
        -- simpl in H1, H2. inversion H1; inversion H2; subst. now left.
        -- right. exists i, q. auto.
Qed.

Lemma norm_lt (v : vec) (y : R) : 0 < y -> dot v v < y * y -> norm v < y.
Proof.
  intros Hy H. unfold norm. rewrite <- (sqrt_square y) by lra.
  apply sqrt_lt_1_alt. split; [apply dot_self_nonneg|assumption].
Qed.

Lemma norm_ge (v : vec) (y : R) : 0 <= y -> y * y <= dot v v -> norm v >= y.
Proof.
  intros Hy H. unfold norm. rewrite <- (sqrt_square y) by lra.
  apply Rle_ge, sqrt_le_1_alt. assumption.
Qed.

(** The example of the specification: of the points (0,0), (0,0.00001) and
    (1,1) the filter with [tol = 1e-4] keeps the first and the last. *)
Example filter_keeps_first_and_last :
  remove_redundant_points_trajectory
    [[0; 0]; [0; 1 / 100000]; [1; 1]] (1 / 10000)
  = Ok ([[0; 0]; [1; 1]], polyline_length [[0; 0]; [1; 1]],
        [false; true; false]).
Proof.
  rewrite remove_redundant_structural.
  cbn [keep_far close_flags vsub map2].
  rewrite !(Rltb_true (norm [0 - 0; 1 / 100000 - 0]))
    by (apply norm_lt; [lra|unfold dot, sum; simpl; lra]).
  rewrite !(Rltb_false (norm [1 - 0; 1 - 1 / 100000]))
    by (apply norm_ge; [lra|unfold dot, sum; simpl; lra]).
  reflexivity.
Qed.

(** C4, as stated, fails: on the path 0, 0.9, -0.5 with [tol = 1] the point
    0.9 is dropped (it is 0.9 from 0) and -0.5 is kept (it is 1.4 from
    0.9), so the output is 0, -0.5, whose two points are only 0.5 apart. *)
Lemma retained_neighbours_counterexample : ~ retained_neighbours_far_apart.
Proof.
  intros H.
  pose proof (remove_redundant_structural [0] [[9 / 10]; [- 1 / 2]] 1)
    as Hrun.
  assert (Hkeep : keep_far [0] [[9 / 10]; [- 1 / 2]] 1 = [[- 1 / 2]])
    by (simpl; eval_cmp; reflexivity).
  rewrite Hkeep in Hrun.
  specialize (H _ _ _ _ _ Hrun 0%nat [0] [- 1 / 2] eq_refl eq_refl).
  revert H. cmp_tac.
Qed.

(** C4, amended.  [remove_redundant_points_trajectory] compares every point
    with the point just before it in the input array, not with the last
    point it kept.  On every path with at least one point it returns; the
    mask has one flag per input point, the flag of the first point is
    [False], and the flag of a later point is [True] exactly when the point
    is closer than [tol] to its predecessor in the input; the output is the
    input without the flagged points, in the order of the input, and the
    arclength is the length of the polyline through the output.  So the
    first point is always kept, and a later point is kept exactly when it
    is at distance [>= tol] from its predecessor in the input. *)
Theorem filter_compares_input_neighbours :
  forall (x0 : vec) (points : matrix) (tol : R),
    let X := x0 :: points in
    exists X' arclength discard,
      remove_redundant_points_trajectory X tol = Ok (X', arclength, discard)
      /\ length discard = length X
      /\ nth_error discard 0 = Some false
      /\ (forall i, (i + 1 < length X)%nat ->
            nth_error discard (i + 1)
            = Some (Rltb (norm (vsub (nth (i + 1) X []) (nth i X []))) tol))
      /\ X' = select_not discard X
      /\ arclength = polyline_length X'
      /\ hd_error X' = Some x0
      /\ (forall p,
            In p (tl X') <->
            exists i q, nth_error X i = Some q
                        /\ nth_error X (i + 1) = Some p
                        /\ norm (vsub p q) >= tol).
Proof.
  intros x0 points tol X. subst X.
  exists (x0 :: keep_far x0 points tol),
         (polyline_length (x0 :: keep_far x0 points tol)),
         (false :: close_flags x0 points tol).
  split; [apply remove_redundant_structural|].
  split; [cbn [length]; now rewrite length_close_flags|].
  split; [reflexivity|]. split.
  { intros i Hi. cbn [length] in Hi.
    replace (i + 1)%nat with (S i) by lia. cbn [nth_error].
    rewrite nth_error_close_flags by lia.
    unfold close_to_previous. replace (i + 1)%nat with (S i) by lia.
    reflexivity. }
  split; [cbn [select_not]; now rewrite select_not_close_flags|].
  split; [reflexivity|]. split; [reflexivity|].
  intros p. cbn [tl]. apply keep_far_In.
Qed.

(** The path 0, 0.9, -0.5 with [tol = 1]: the mask is False, True, False
    and the output 0, -0.5. *)
Lemma filter_compares_input_neighbours_witness :
  remove_redundant_points_trajectory ([0] :: [[9 / 10]; [- 1 / 2]]) 1
  = Ok ([[0]; [- 1 / 2]], polyline_length [[0]; [- 1 / 2]],
        [false; true; false])
  /\ [[0]; [- 1 / 2]]
     = select_not [false; true; false] ([0] :: [[9 / 10]; [- 1 / 2]]).
Proof.
  destruct (filter_compares_input_neighbours [0] [[9 / 10]; [- 1 / 2]] 1)
    as [X' [arclength [discard [Hrun [_ [_ [_ [HX' _]]]]]]]].
  assert (Hs : remove_redundant_points_trajectory
                 ([0] :: [[9 / 10]; [- 1 / 2]]) 1
               = Ok ([[0]; [- 1 / 2]], polyline_length [[0]; [- 1 / 2]],
                     [false; true; false])).
  { rewrite remove_redundant_structural.
    assert (Hkeep : keep_far [0] [[9 / 10]; [- 1 / 2]] 1 = [[- 1 / 2]])
      by (simpl; eval_cmp; reflexivity).
    assert (Hflags : close_flags [0] [[9 / 10]; [- 1 / 2]] 1 = [true; false])
      by (simpl; eval_cmp; reflexivity).
    rewrite Hkeep, Hflags. reflexivity. }
  cbv zeta in Hrun, HX'.
  pose proof (eq_trans (eq_sym Hrun) Hs) as Hsame.
  injection Hsame as HXe _ Hde. rewrite HXe, Hde in HX'.
  split; [exact Hs|exact HX'].
Defined.

End FilterClaim.

Section SamplerRuns.
Import Np Utils.

Lemma sampler_eq Y Y' x0 x0' T T' t0 t0' i i' b b' a a' :
  Y = Y' -> x0 = x0' -> T = T' -> t0 = t0' -> i = i' -> b = b' -> a = a' ->
  Ok (mkSampler Y x0 T t0 i b a) = Ok (mkSampler Y' x0' T' t0' i' b' a').
Proof. intros; subst; reflexivity. Qed.

End SamplerRuns.

Ltac real_tac :=
  cbn [Np.vsub Np.vadd Np.vscale Np.vdiv Np.vmulr Np.map2 map];
  rewrite ?norm1; unfold Rabs; repeat destruct (Rcase_abs _);
  try lra; try (field; lra).

Ltac list_eq :=
  cbn [Np.vsub Np.vadd Np.vscale Np.vdiv Np.vmulr Np.map2 map app];
  repeat first [ reflexivity | apply f_equal | apply (f_equal2 (@cons _)) ];
  real_tac.

(** Runs one turn of the sampler's [while] loop on concrete data. *)
Ltac turn_tac :=
  unfold Utils.sampler_turn;
  cbn [Utils.s_i Utils.s_x0 Utils.s_t0 Utils.s_Y Utils.s_T
       Utils.s_terminate Utils.s_arclength length Nat.sub seq];
  cbn [Utils.scan_segments Nat.eqb nth Nat.sub];
  eval_cmp;
  cbn [Utils.interpolate_time Np.getitem nth_error bind Nat.eqb Nat.sub
       Utils.append_time];
  eval_cmp;
  apply sampler_eq; try reflexivity; list_eq.

Section SamplerClaim.
Import Np Utils.

(** The path 0, 1, 10 sampled with step 1: the first turn emits the point
    1, the second finds nothing left before the second point and stops. *)
Lemma short_walk_turn_1 :
  sampler_turn [[0]; [1]; [10]] None 1 (mkSampler [] [0] None None 1 false 0)
  = Ok (mkSampler [[1]] [1] None None 1 false 1).
Proof. turn_tac. Qed.

Lemma short_walk_turn_2 :
  sampler_turn [[0]; [1]; [10]] None 1
               (mkSampler [[1]] [1] None None 1 false 1)
  = Ok (mkSampler [[1]] [1] None None 1 true 2).
Proof. turn_tac. Qed.

(** The path 0, 0.6, 9 sampled with step 1: a turn emits nothing, does not
    set [terminate] (it tests 0.6 + 0.6 against 1) and only adds to
    [arclength]. *)
Lemma stuck_walk_turn a :
  sampler_turn [[0]; [3 / 5]; [9]] None 1
               (mkSampler [] [0] None None 1 false a)
  = Ok (mkSampler [] [0] None None 1 false (a + 1)).
Proof. turn_tac. Qed.

Lemma stuck_walk_loop fuel :
  forall a,
    sampler_loop fuel [[0]; [3 / 5]; [9]] None 1
                 (mkSampler [] [0] None None 1 false a)
    = OutOfFuel.
Proof.
  induction fuel as [|fuel IH]; intros a; [reflexivity|].
  cbn [sampler_loop s_i s_terminate length Nat.sub Nat.ltb Nat.leb
       negb andb].
  rewrite stuck_walk_turn. cbn [bind]. apply IH.
Qed.

(** ** The arclength the sampler returns *)

(** The inner loop stops at its [break] only on an index of its range, and
    with [l + d >= step_length]. *)
Lemma scan_segments_hit X t step x0 t0 i js :
  forall l d j y tau l' d',
    scan_segments X t step x0 t0 i js l d = Ok (Hit j y tau l' d') ->
    In j js /\ Rltb (l' + d') step = false.
Proof.
  induction js as [|j0 js IH]; intros l d j y tau l' d' Hscan;
    [discriminate|].
  cbn [scan_segments] in Hscan.
  match type of Hscan with
  | context [Rgeb ?a step] => destruct (Rgeb a step) eqn:Hge
  end.
  - destruct (interpolate_time _ _ _ _ _ _ _) as [tau0| |];
      cbn [bind] in Hscan; try discriminate.
    injection Hscan as Hj _ _ Hl Hd. subst j l' d'. split; [now left|].
    unfold Rgeb in Hge.
    match type of Hge with
    | context [Rge_dec ?a step] => destruct (Rge_dec a step)
    end; [|discriminate].
    now apply Rltb_false.
  - destruct (IH _ _ _ _ _ _ _ Hscan) as [Hin Hlt]. split; [now right|].
    exact Hlt.
Qed.

(** A turn that emits nothing and does not set [terminate] changes
    [arclength] only, so every later turn repeats it. *)
Lemma sampler_stuck X t step st l d :
  (s_i st <? length X - 1)%nat && negb (s_terminate st) = true ->
  scan_segments X t step (s_x0 st) (s_t0 st) (s_i st)
                (seq (s_i st) (length X - 1 - s_i st)) 0 0
  = Ok (Miss l d) ->
  Rltb (l + d) step = false ->
  forall fuel a,
    sampler_loop fuel X t step (with_arclength st a) = OutOfFuel.
Proof.
  intros Hcond Hscan Hlt. unfold with_arclength.
  induction fuel as [|fuel IH]; intros a;
    cbn [sampler_loop s_i s_terminate]; rewrite Hcond; [reflexivity|].
  unfold sampler_turn.
  cbn [s_Y s_x0 s_T s_t0 s_i s_terminate s_arclength].
  rewrite Hscan. cbn [bind]. rewrite Hlt.
  apply (IH (a + step)).
Qed.

(** Whenever the loop runs and returns, the arclength has grown by one
    step for every emitted point and by one more step. *)
Lemma sampler_loop_arclength X t step fuel :
  forall st st',
    (s_i st <? length X - 1)%nat && negb (s_terminate st) = true ->
    sampler_loop fuel X t step st = Ok st' ->
    exists emitted,
      s_Y st' = s_Y st ++ emitted
      /\ s_arclength st'
         = s_arclength st + (INR (length emitted) + 1) * step.
Proof.
  induction fuel as [|fuel IH]; intros st st' Hcond Hloop;
    cbn [sampler_loop] in Hloop; rewrite Hcond in Hloop; [discriminate|].
  unfold sampler_turn in Hloop.
  destruct (scan_segments X t step (s_x0 st) (s_t0 st) (s_i st)
              (seq (s_i st) (length X - 1 - s_i st)) 0 0)
    as [[j y tau l d|l d]| |] eqn:Hscan; cbn [bind] in Hloop;
    try discriminate.
  - destruct (scan_segments_hit _ _ _ _ _ _ _ _ _ _ _ _ _ _ Hscan)
      as [Hin Hlt].
    rewrite Hlt in Hloop.
    apply andb_true_iff in Hcond. destruct Hcond as [Hi Hterm].
    apply negb_true_iff in Hterm. rewrite Hterm in Hloop.
    apply in_seq in Hin.
    apply IH in Hloop.
    + cbn [s_Y s_arclength] in Hloop.
      destruct Hloop as [emitted [HY Ha]].
      exists (y :: emitted). split.
      * rewrite HY, <- app_assoc. reflexivity.
      * rewrite Ha. cbn [length]. rewrite S_INR. ring.
    + cbn [s_i s_terminate]. apply andb_true_iff. split; [|reflexivity].
      apply Nat.ltb_lt. apply Nat.ltb_lt in Hi. lia.
  - destruct (Rltb (l + d) step) eqn:Hlt.
    + destruct fuel; cbn [sampler_loop s_i s_terminate] in Hloop;
        rewrite andb_false_r in Hloop; inversion Hloop; subst st';
        cbn [s_Y s_arclength]; exists []; rewrite app_nil_r;
        (split; [reflexivity|cbn [length INR]; ring]).
    + exfalso.
      pose proof (sampler_stuck X t step st l d Hcond Hscan Hlt fuel
                                (s_arclength st + step)) as Hstuck.
      unfold with_arclength in Hstuck.
      rewrite Hstuck in Hloop. discriminate.
Qed.

(** On a polyline of at least three points the sampler, when it returns,
    reports one step more than the emitted points cover. *)
Lemma arclength_sampling_overshoot fuel X step t samples covered T :
  (3 <= length X)%nat ->
  arclength_sampling fuel X step t = Ok (samples, covered, T) ->
  exists emitted,
    samples = np_array emitted
    /\ covered = (INR (length emitted) + 1) * step.
Proof.
  intros Hlen Hrun. unfold arclength_sampling in Hrun.
  destruct (getitem X 0) as [x0| |]; cbn [bind] in Hrun; try discriminate.
  destruct (match t with
            | Some t1 => t0 <- getitem t1 0 ;; Ok (Some t0)
            | None => Ok None
            end) as [t0| |]; cbn [bind] in Hrun; try discriminate.
  match type of Hrun with
  | context [sampler_loop fuel X t step ?st0] =>
      destruct (sampler_loop fuel X t step st0) as [st| |] eqn:Hloop
  end; cbn [bind] in Hrun; try discriminate.
  apply sampler_loop_arclength in Hloop.
  - cbn [s_Y s_arclength] in Hloop. destruct Hloop as [emitted [HY Ha]].
    cbn [app] in HY. injection Hrun as Hs Hc _.
    exists emitted. split; [now rewrite <- Hs, HY|].
    rewrite <- Hc, Ha. ring.
  - cbn [s_i s_terminate negb]. rewrite andb_true_r.
    apply Nat.ltb_lt. lia.
Qed.

(** C8.  The sampler does not stop exactly when less than a step is left
    before the final point, and the arclength it returns is not what the
    emitted points cover.  On the path 0, 1, 10 with step 1 it emits the
    single point 1 and stops although 9 units remain before the final
    point, and it returns the arclength 2 although the emitted point covers
    1.  On the path 0, 0.6, 9 with step 1 it never stops: whatever the
    fuel, the loop is still running when the fuel is used up.  In general,
    on a polyline of at least three points a run that returns reports one
    step more than the number of emitted points times the step. *)
Theorem sampler_stops_early_or_never :
  (forall fuel,
      arclength_sampling (S (S fuel)) [[0]; [1]; [10]] 1 None
      = Ok (Arr2 [[1]], 2, None))
  /\ (forall fuel,
        arclength_sampling fuel [[0]; [3 / 5]; [9]] 1 None = OutOfFuel)
  /\ (forall fuel (X : matrix) (step_length : R) (t : option vec)
             samples covered T,
        (3 <= length X)%nat ->
        arclength_sampling fuel X step_length t = Ok (samples, covered, T) ->
        exists emitted,
          samples = np_array emitted
          /\ covered = (INR (length emitted) + 1) * step_length).
Proof.
  split; [|split].
  - intros fuel. unfold arclength_sampling. cbn [getitem nth_error bind].
    cbn [sampler_loop s_i s_terminate length Nat.sub Nat.ltb Nat.leb
         negb andb].
    rewrite short_walk_turn_1. cbn [bind].
    cbn [sampler_loop s_i s_terminate length Nat.sub Nat.ltb Nat.leb
         negb andb].
    rewrite short_walk_turn_2. cbn [bind].
    destruct fuel; reflexivity.
  - intros fuel. unfold arclength_sampling. cbn [getitem nth_error bind].
    now rewrite stuck_walk_loop.
  - intros fuel X step_length t samples covered T.
    apply arclength_sampling_overshoot.
Qed.

Lemma sampler_stops_early_or_never_witness :
  (3 <= length [[0]; [1]; [10]])%nat
  /\ arclength_sampling 2 [[0]; [1]; [10]] 1 None
     = Ok (Arr2 [[1]], 2, None)
  /\ exists emitted,
       Arr2 [[1]] = np_array emitted
       /\ 2 = (INR (length emitted) + 1) * 1.
Proof.
  pose proof sampler_stops_early_or_never as [Hshort [_ Hover]].
  split; [cbn [length]; lia|]. split; [exact (Hshort 0%nat)|].
  apply (Hover 2%nat [[0]; [1]; [10]] 1 None (Arr2 [[1]]) 2 None).
  - cbn [length]. lia.
  - exact (Hshort 0%nat).
Defined.

End SamplerClaim.

Section SamplerWidth.
Import Np Utils.

Variable dim : nat.

Lemma length_map2 {A B C} (f : A -> B -> C) u v :
  length u = length v -> length (map2 f u v) = length u.
Proof.
  revert v. induction u as [|a u IH]; intros [|b v] H; simpl in *;
    try discriminate; auto.
Qed.

Lemma has_width_nth X j :
  has_width dim X -> (j < length X)%nat -> length (nth j X []) = dim.
Proof.
  intros HX Hj. unfold has_width in HX. rewrite Forall_forall in HX.
  apply HX, nth_In, Hj.
Qed.

(** A point the inner loop emits has the width of the input points. *)
Lemma scan_segments_width X t step x0 t0 i js :
  has_width dim X -> length x0 = dim ->
  Forall (fun j => (j < length X)%nat) js ->
  forall l d j y tau l' d',
    scan_segments X t step x0 t0 i js l d = Ok (Hit j y tau l' d') ->
    length y = dim.
Proof.
  intros HX Hx0 Hjs. induction js as [|j0 js IH];
    intros l d j y tau l' d' Hscan; [discriminate|].
  apply Forall_cons_iff in Hjs. destruct Hjs as [Hj0 Hjs'].
  cbn [scan_segments] in Hscan.
  set (tangent := if (j0 =? i)%nat then vsub (nth j0 X []) x0
                  else vsub (nth j0 X []) (nth (j0 - 1) X [])) in Hscan.
  assert (Hprev : length (nth (j0 - 1) X []) = dim)
    by (apply has_width_nth; [assumption|lia]).
  assert (Hcur : length (nth j0 X []) = dim)
    by (apply has_width_nth; assumption).
  assert (Htan : length tangent = dim).
  { subst tangent. unfold vsub.
    destruct (j0 =? i)%nat; rewrite length_map2; congruence. }
  destruct (Rgeb (l + norm tangent) step).
  - destruct (interpolate_time t t0 i j0 step l (norm tangent)) as [tau0| |];
      cbn [bind] in Hscan; try discriminate.
    assert (Hy : forall x : vec, length x = dim ->
              length (vadd x (vdiv (vscale (step - l) tangent)
                                   (norm tangent))) = dim).
    { intros x Hx. unfold vadd, vdiv, vscale.
      rewrite length_map2; rewrite ?length_map; congruence. }
    destruct (j0 =? i)%nat; injection Hscan as _ Hyy _ _ _;
      rewrite <- Hyy; now apply Hy.
  - eapply IH; [exact Hjs'|exact Hscan].
Qed.

Lemma sampler_turn_width X t step st st' :
  has_width dim X -> length (s_x0 st) = dim -> has_width dim (s_Y st) ->
  sampler_turn X t step st = Ok st' ->
  length (s_x0 st') = dim /\ has_width dim (s_Y st').
Proof.
  intros HX Hx0 HY Hturn. unfold sampler_turn in Hturn.
  destruct (scan_segments X t step (s_x0 st) (s_t0 st) (s_i st)
              (seq (s_i st) (length X - 1 - s_i st)) 0 0)
    as [[j y tau l d|l d]| |] eqn:Hscan; cbn [bind] in Hturn;
    try discriminate; inversion Hturn; subst st'; cbn [s_x0 s_Y]; auto.
  assert (Hy : length y = dim).
  { eapply scan_segments_width; [exact HX|exact Hx0| |exact Hscan].
    apply Forall_forall. intros k Hk. apply in_seq in Hk. lia. }
  split; [exact Hy|].
  apply Forall_app. split; [exact HY|]. constructor; [exact Hy|constructor].
Qed.

Lemma sampler_loop_width X t step fuel :
  has_width dim X ->
  forall st st',
    length (s_x0 st) = dim -> has_width dim (s_Y st) ->
    sampler_loop fuel X t step st = Ok st' ->
    has_width dim (s_Y st').
Proof.
  intros HX. induction fuel as [|fuel IH]; intros st st' Hx0 HY Hloop;
    cbn [sampler_loop] in Hloop;
    destruct ((s_i st <? length X - 1)%nat && negb (s_terminate st));
    try discriminate; try (inversion Hloop; subst; assumption).
  destruct (sampler_turn X t step st) as [st1| |] eqn:Hturn;
    cbn [bind] in Hloop; try discriminate.
  destruct (sampler_turn_width X t step st st1 HX Hx0 HY Hturn) as [H1 H2].
  eapply IH; eassumption.
Qed.

(** The points [arclength_sampling] returns have the width of its input. *)
Lemma arclength_sampling_width fuel X step t samples al T :
  has_width dim X ->
  arclength_sampling fuel X step t = Ok (Arr2 samples, al, T) ->
  has_width dim samples.
Proof.
  intros HX Hrun. unfold arclength_sampling in Hrun.
  destruct (getitem X 0) as [x0| |] eqn:Hx0; cbn [bind] in Hrun;
    try discriminate.
  destruct (match t with
            | Some t1 => t0 <- getitem t1 0 ;; Ok (Some t0)
            | None => Ok None
            end) as [t0| |]; cbn [bind] in Hrun; try discriminate.
  match type of Hrun with
  | context [sampler_loop fuel X t step ?st0] =>
      destruct (sampler_loop fuel X t step st0) as [st| |] eqn:Hloop
  end; cbn [bind] in Hrun; try discriminate.
  apply sampler_loop_width in Hloop; cbn [s_x0 s_Y]; auto.
  - inversion Hrun as [[HY Hal HT]]. unfold np_array in HY.
    destruct (s_Y st); [discriminate|]. inversion HY; subst. exact Hloop.
  - apply getitem_Ok in Hx0.
    assert (Hin : In x0 X) by (eapply nth_error_In; exact Hx0).
    unfold has_width in HX. rewrite Forall_forall in HX. now apply HX.
  - constructor.
Qed.

Lemma take_rows_width a idx rows :
  has_width dim a -> take_rows a idx = Ok rows -> has_width dim rows.
Proof.
  intros Ha. revert rows. induction idx as [|i idx IH]; intros rows H;
    cbn [take_rows] in H.
  - inversion H. constructor.
  - destruct (getitem a i) as [r| |] eqn:Hr; cbn [bind] in H;
      try discriminate.
    destruct (take_rows a idx) as [rs| |]; cbn [bind] in H; try discriminate.
    inversion H; subst. constructor; [|now apply IH].
    apply getitem_Ok in Hr. apply nth_error_In in Hr.
    unfold has_width in Ha. rewrite Forall_forall in Ha. now apply Ha.
Qed.

(** Stacking a first row, a block and a last row of one width. *)
Lemma vstack_wrap (first last_ : vec) (block : matrix) :
  length first = dim -> length last_ = dim -> has_width dim block ->
  vstack [Arr1 first; Arr2 block; Arr1 last_]
  = Ok (first :: block ++ [last_]).
Proof.
  intros Hf Hl Hb. unfold vstack. cbn [map atleast_2d concat app].
  replace (same_width (first :: block ++ [last_])) with true;
    [reflexivity|].
  symmetry. cbn [same_width]. apply forallb_forall. intros r Hr.
  apply Nat.eqb_eq. rewrite Hf.
  apply in_app_or in Hr. destruct Hr as [Hr|Hr].
  - unfold has_width in Hb. rewrite Forall_forall in Hb. now apply Hb.
  - cbn in Hr. destruct Hr as [<-|[]]. assumption.
Qed.

End SamplerWidth.

Section InitPathClaim.
Import Np Utils Lap StandIns.

(** The run of [get_init_path] once its steps are known. *)
Lemma get_init_path_run :
  forall (graph : Type)
         (nearest_neighbors : vec -> matrix -> nat -> list (list nat))
         (shortest_path : graph -> nat -> nat -> result (list nat))
         (fuel : nat) (G : graph) (start end_ : vec) (coords : matrix)
         (interpolation_num : nat)
         nn_s source_ind nn_t target_ind path init_path
         kept arclen discard samples covered T,
    getitem (nearest_neighbors start coords 1%nat) 0 = Ok nn_s ->
    getitem nn_s 0 = Ok source_ind ->
    getitem (nearest_neighbors end_ coords 1%nat) 0 = Ok nn_t ->
    getitem nn_t 0 = Ok target_ind ->
    shortest_path G source_ind target_ind = Ok path ->
    take_rows coords path = Ok init_path ->
    remove_redundant_points_trajectory init_path (1 / 10000)
    = Ok (kept, arclen, discard) ->
    interpolation_num <> 1%nat ->
    arclength_sampling fuel init_path (arclen / (INR interpolation_num - 1))
                       (Some (arange (length init_path)))
    = Ok (Arr2 samples, covered, T) ->
    has_width (length start) coords ->
    length end_ = length start ->
    get_init_path graph nearest_neighbors shortest_path fuel G start end_
                  coords interpolation_num
    = Ok (start :: samples ++ [end_]).
Proof.
  intros graph nearest_neighbors shortest_path fuel G start end_ coords
         interpolation_num nn_s source_ind nn_t target_ind path init_path
         kept arclen discard samples covered T
         Hs1 Hs2 Ht1 Ht2 Hpath Hrows Hdedup Hnum Hsample Hwidth Hend.
  unfold get_init_path.
  rewrite Hs1; cbn [bind]. rewrite Hs2; cbn [bind].
  rewrite Ht1; cbn [bind]. rewrite Ht2; cbn [bind].
  rewrite Hpath; cbn [bind]. rewrite Hrows; cbn [bind].
  rewrite Hdedup; cbn [bind].
  replace (interpolation_num =? 1)%nat with false
    by (symmetry; now apply Nat.eqb_neq).
  cbv zeta. rewrite Hsample; cbn [bind].
  apply vstack_wrap with (dim := length start); auto.
  eapply arclength_sampling_width; [|exact Hsample].
  eapply take_rows_width; eassumption.
Qed.

Lemma line_dedup :
  remove_redundant_points_trajectory line_coords (1 / 10000)
  = Ok (line_coords, 2, [false; false; false]).
Proof.
  unfold line_coords. rewrite remove_redundant_structural.
  assert (Hkeep : keep_far [0] [[1]; [2]] (1 / 10000) = [[1]; [2]])
    by (simpl; eval_cmp; reflexivity).
  assert (Hflags : close_flags [0] [[1]; [2]] (1 / 10000) = [false; false])
    by (simpl; eval_cmp; reflexivity).
  rewrite Hkeep, Hflags. do 2 f_equal. f_equal.
  unfold polyline_length, arclength_step. cbn. real_tac.
Qed.

Lemma line_turn_1 :
  sampler_turn [[0]; [1]; [2]] (Some [0; 1; 2]) 1
               (mkSampler [] [0] (Some []) (Some 0) 1 false 0)
  = Ok (mkSampler [[1]] [1] (Some [1]) (Some 1) 1 false 1).
Proof. turn_tac. Qed.

Lemma line_turn_2 :
  sampler_turn [[0]; [1]; [2]] (Some [0; 1; 2]) 1
               (mkSampler [[1]] [1] (Some [1]) (Some 1) 1 false 1)
  = Ok (mkSampler [[1]] [1] (Some [1]) (Some 1) 1 true 2).
Proof. turn_tac. Qed.

Lemma line_sampling fuel :
  arclength_sampling (S (S fuel)) line_coords (2 / (INR 3 - 1))
                     (Some (arange (length line_coords)))
  = Ok (Arr2 [[1]], 2, Some [1]).
Proof.
  replace (2 / (INR 3 - 1)) with 1 by (simpl; field).
  replace (arange (length line_coords)) with [0; 1; 2]
    by (unfold arange; simpl; list_eq).
  unfold arclength_sampling, line_coords.
  cbn [getitem nth_error bind].
  change (@Some vec) with (@Some (list R)).
  cbn [sampler_loop length s_i s_terminate Nat.sub Nat.ltb Nat.leb negb andb].
  rewrite line_turn_1. cbn [bind].
  cbn [sampler_loop length s_i s_terminate Nat.sub Nat.ltb Nat.leb negb andb].
  rewrite line_turn_2. cbn [bind].
  destruct fuel; reflexivity.
Qed.

Lemma line_neighbors_start : line_neighbors [0] line_coords 1 = [[0%nat]].
Proof. unfold line_neighbors. cbn [hd]. eval_cmp. reflexivity. Qed.

Lemma line_neighbors_end : line_neighbors [2] line_coords 1 = [[2%nat]].
Proof. unfold line_neighbors. cbn [hd]. eval_cmp. reflexivity. Qed.

(** Three cells at 0, 0.6 and 9: nothing is dropped and the arclength is
    9; with the step 1 the sampler finds no segment long enough before the
    last point and does not set [terminate] (C8). *)
Lemma far_dedup :
  remove_redundant_points_trajectory [[0]; [3 / 5]; [9]] (1 / 10000)
  = Ok ([[0]; [3 / 5]; [9]], 9, [false; false; false]).
Proof.
  rewrite remove_redundant_structural.
  assert (Hkeep : keep_far [0] [[3 / 5]; [9]] (1 / 10000) = [[3 / 5]; [9]])
    by (simpl; eval_cmp; reflexivity).
  assert (Hflags : close_flags [0] [[3 / 5]; [9]] (1 / 10000)
                   = [false; false])
    by (simpl; eval_cmp; reflexivity).
  rewrite Hkeep, Hflags. do 2 f_equal. f_equal.
  unfold polyline_length, arclength_step. cbn. real_tac.
Qed.

Lemma far_sampling fuel :
  arclength_sampling fuel [[0]; [3 / 5]; [9]] (9 / (INR 10 - 1))
                     (Some (arange (length [[0]; [3 / 5]; [9]])))
  = OutOfFuel.
Proof.
  replace (9 / (INR 10 - 1)) with 1 by (simpl; field).
  replace (arange (length [[0]; [3 / 5]; [9]])) with [0; 1; 2]
    by (unfold arange; simpl; list_eq).
  unfold arclength_sampling.
  cbn [getitem nth_error bind].
  set (st := mkSampler [] [0] (Some []) (Some 0) 1 false 0).
  assert (Hcond : Nat.ltb (s_i st)
                          (Nat.sub (length (A := vec) [[0]; [3 / 5]; [9]]) 1)
                  && negb (s_terminate st) = true) by reflexivity.
  assert (Hscan : scan_segments [[0]; [3 / 5]; [9]] (Some [0; 1; 2]) 1
                    (s_x0 st) (s_t0 st) (s_i st)
                    (seq (s_i st) (length [[0]; [3 / 5]; [9]] - 1 - s_i st))
                    0 0
                  = Ok (Miss (0 + norm (vsub [3 / 5] [0]))
                             (norm (vsub [3 / 5] [0])))).
  { cbn [s_x0 s_t0 s_i st length Nat.sub seq scan_segments Nat.eqb nth].
    rewrite Rgeb_false by cmp_tac. reflexivity. }
  assert (Hlt : Rltb (0 + norm (vsub [3 / 5] [0]) + norm (vsub [3 / 5] [0]))
                     1 = false)
    by (apply Rltb_false; cmp_tac).
  pose proof (sampler_stuck _ _ _ _ _ _ Hcond Hscan Hlt fuel 0) as Hstuck.
  unfold with_arclength in Hstuck.
  cbn [s_Y s_x0 s_T s_t0 s_i s_terminate st] in Hstuck.
  fold st in Hstuck.
  change (@Some vec) with (@Some (list R)).
  change (@Some vec) with (@Some (list R)) in Hstuck.
  rewrite Hstuck. reflexivity.
Qed.

Lemma far_neighbors_start :
  line_neighbors [0] [[0]; [3 / 5]; [9]] 1 = [[0%nat]].
Proof. unfold line_neighbors. cbn [hd]. eval_cmp. reflexivity. Qed.

Lemma far_neighbors_end :
  line_neighbors [9] [[0]; [3 / 5]; [9]] 1 = [[2%nat]].
Proof. unfold line_neighbors. cbn [hd]. eval_cmp. reflexivity. Qed.

(** C7.  [get_init_path] aims at a path of [interpolation_num + 1] points:
    it divides the arclength of the shortest-path polyline by
    [interpolation_num - 1], samples with that step, and adds [start] and
    [end].  The sampler, however, never visits the last point of the
    polyline and may never stop (C8), and so the count is missed.  For
    three cells at 0, 1 and 2 and the target count 3 the step is 1; the
    sampler emits the point 1 and misses the sample at 2, and the path
    0, 1, 2 that comes back has 3 points, not 4.  For cells at 0, 0.6 and 9
    and the target count 10 the step is 1 again, the sampler never stops,
    and [get_init_path] returns nothing. *)
Theorem init_path_misses_target_count :
  (forall fuel,
      get_init_path unit line_neighbors line_shortest_path (S (S fuel)) tt
                    [0] [2] line_coords 3
      = Ok [[0]; [1]; [2]])
  /\ length (A := vec) [[0]; [1]; [2]] <> (3 + 1)%nat
  /\ (forall fuel,
        get_init_path unit line_neighbors line_shortest_path fuel tt
                      [0] [9] [[0]; [3 / 5]; [9]] 10
        = OutOfFuel).
Proof.
  split; [|split].
  - intros fuel.
    pose proof (get_init_path_run
                  unit line_neighbors line_shortest_path (S (S fuel)) tt
                  [0] [2] line_coords 3 [0%nat] 0%nat [2%nat] 2%nat
                  [0; 1; 2]%nat line_coords line_coords 2
                  [false; false; false] [[1]] 2 (Some [1])) as Hrun.
    rewrite line_neighbors_start, line_neighbors_end in Hrun.
    specialize (Hrun eq_refl eq_refl eq_refl eq_refl eq_refl eq_refl
                     line_dedup).
    assert (Hnum : 3%nat <> 1%nat) by discriminate.
    assert (Hwidth : has_width (length [0]) line_coords)
      by (repeat constructor).
    exact (Hrun Hnum (line_sampling fuel) Hwidth eq_refl).
  - cbn [length]. discriminate.
  - intros fuel. unfold get_init_path.
    rewrite far_neighbors_start, far_neighbors_end.
    cbn [getitem nth_error bind line_shortest_path Nat.sub Nat.add seq
         take_rows].
    match goal with
    | |- bind ?m _ = _ =>
        replace m with (Ok ([[0]; [3 / 5]; [9]], 9, [false; false; false]))
          by (symmetry; exact far_dedup)
    end.
    cbn [bind Nat.eqb]. cbv zeta.
    match goal with
    | |- bind (bind ?m _) _ = _ =>
        replace m with (@OutOfFuel (ndarray * R * option (list R)))
          by (symmetry; exact (far_sampling fuel))
    end.
    reflexivity.
Qed.

End InitPathClaim.

Section IntegrateBoth.
Import Np Utils.

Variable odeint : (vec -> vec) -> vec -> vec -> matrix.
Variable f : vec -> vec.
Variable n_feature : nat.

(** What the solver is trusted to do for states of [n_feature] entries: one
    row for each time, each row a state. *)
Hypothesis odeint_shape :
  forall (y0 t : vec),
    length y0 = n_feature ->
    length (odeint f y0 t) = length t
    /\ has_width n_feature (odeint f y0 t).

Lemma same_width_of_has_width w rows :
  has_width w rows -> same_width rows = true.
Proof.
  intros H. destruct rows as [|r rows]; [reflexivity|].
  cbn [same_width]. apply forallb_forall. intros r' Hr'.
  unfold has_width in H. rewrite Forall_forall in H.
  apply Nat.eqb_eq. rewrite (H r), (H r'); auto using in_eq, in_cons.
Qed.

Lemma vstack_pair w (Y y : matrix) :
  has_width w Y -> has_width w y -> vstack [Arr2 Y; Arr2 y] = Ok (Y ++ y).
Proof.
  intros HY Hy. unfold vstack. cbn [map atleast_2d concat].
  rewrite app_nil_r.
  rewrite (same_width_of_has_width w); [reflexivity|].
  apply Forall_app. split; assumption.
Qed.

Lemma length_vneg t : length (vneg t) = length t.
Proof. unfold vneg. apply length_map. Qed.

Lemma has_width_map2_app w1 w2 (a b : matrix) :
  has_width w1 a -> has_width w2 b ->
  has_width (w1 + w2) (map2 (@app R) a b).
Proof.
  intros Ha. revert b. induction Ha as [|r a Hr Ha IH]; intros b Hb;
    [constructor|].
  destruct Hb as [|s b Hs Hb]; [constructor|].
  cbn [map2]. constructor; [|now apply IH].
  rewrite length_app. congruence.
Qed.

Lemma side_by_side_shape t y0 :
  length y0 = n_feature ->
  integrate_one odeint "both" f y0 t = Ok (side_by_side odeint f t y0)
  /\ length (side_by_side odeint f t y0) = length t
  /\ has_width (n_feature + n_feature) (side_by_side odeint f t y0).
Proof.
  intros Hy0.
  destruct (odeint_shape y0 t Hy0) as [Hlf Hwf].
  destruct (odeint_shape y0 (vneg t) Hy0) as [Hlb Hwb].
  rewrite length_vneg in Hlb.
  split; [|split].
  - unfold integrate_one. cbn [String.eqb Ascii.eqb Bool.eqb].
    unfold hstack. rewrite length_rev, Hlb, Hlf, Nat.eqb_refl. reflexivity.
  - unfold side_by_side.
    rewrite length_map2; rewrite length_rev; [exact Hlb|].
    transitivity (length t); [exact Hlb|symmetry; exact Hlf].
  - unfold side_by_side. apply has_width_map2_app; [|assumption].
    unfold has_width in *. apply Forall_rev. assumption.
Qed.

(** The loop over the cells, started after [a] cells with the rows [Y]
    gathered so far. *)
Lemma integrate_cells_both t (m : matrix) :
  has_width n_feature m ->
  forall k a (Y : matrix),
    (a + k = length m)%nat ->
    has_width (n_feature + n_feature) Y ->
    integrate_cells odeint "both" f t (Arr2 m) (seq a k) (Some Y)
    = Ok (Some (Y ++ concat (map (side_by_side odeint f t) (skipn a m)))).
Proof.
  intros Hm. induction k as [|k IH]; intros a Y Hlen HY.
  - cbn [seq integrate_cells].
    rewrite skipn_all2 by lia. cbn [map concat]. now rewrite app_nil_r.
  - cbn [seq integrate_cells row_of].
    destruct (nth_error m a) as [y0|] eqn:Hy0;
      [|apply nth_error_None in Hy0; lia].
    unfold getitem. rewrite Hy0. cbn [bind].
    assert (Hw : length y0 = n_feature).
    { apply nth_error_In in Hy0. unfold has_width in Hm.
      rewrite Forall_forall in Hm. now apply Hm. }
    destruct (side_by_side_shape t y0 Hw) as [Hone [_ Hwide]].
    rewrite Hone. cbn [bind].
    rewrite (vstack_pair (n_feature + n_feature)) by assumption.
    cbn [bind]. rewrite IH; [|lia|apply Forall_app; split; assumption].
    do 2 f_equal. rewrite <- app_assoc. f_equal.
    rewrite (skipn_step m a y0 Hy0). reflexivity.
Qed.

End IntegrateBoth.

Section IntegrateClaims.
Import Np Utils StandIns.

Lemma length_concat_blocks {A B} (g : A -> list B) c (l : list A) :
  (forall a, In a l -> length (g a) = c) ->
  length (concat (map g l)) = (length l * c)%nat.
Proof.
  induction l as [|a l IH]; intros H; [reflexivity|].
  cbn [map concat length]. rewrite length_app.
  rewrite (H a (in_eq _ _)).
  rewrite IH by (intros b Hb; apply H; now right).
  lia.
Qed.

Lemma has_width_concat_blocks {A} (g : A -> matrix) w (l : list A) :
  (forall a, In a l -> has_width w (g a)) ->
  has_width w (concat (map g l)).
Proof.
  induction l as [|a l IH]; intros H; [constructor|].
  cbn [map concat]. apply Forall_app. split.
  - apply H, in_eq.
  - apply IH. intros b Hb. apply H. now right.
Qed.

(** C2.  With the direction ['both'] and no averaging, [integrate_vf] joins
    the reversed backward run and the forward run of a cell along the
    feature axis ([np.hstack]), not along the time axis: for [n_cell >= 1]
    states of [n_feature] entries and a grid of [n_steps] times the result
    has [n_cell * n_steps] rows of [2 * n_feature] entries, row [j] of a
    cell holding the backward state and the forward state side by side. *)
Theorem both_joins_along_features :
  forall (odeint : (vec -> vec) -> vec -> vec -> matrix) (f : vec -> vec)
         (n_feature : nat) (y0 : vec) (cells : matrix) (t : vec),
    (forall (y t' : vec),
        length y = n_feature ->
        length (odeint f y t') = length t'
        /\ has_width n_feature (odeint f y t')) ->
    has_width n_feature (y0 :: cells) ->
    let Y := concat (map (side_by_side odeint f t) (y0 :: cells)) in
    integrate_vf odeint (Arr2 (y0 :: cells)) t "both" f false
    = Ok (t, Some Y)
    /\ length Y = (length (y0 :: cells) * length t)%nat
    /\ has_width (2 * n_feature) Y.
Proof.
  intros odeint f n_feature y0 cells t Hshape Hcells Y.
  assert (Hblock : forall y, In y (y0 :: cells) ->
            integrate_one odeint "both" f y t = Ok (side_by_side odeint f t y)
            /\ length (side_by_side odeint f t y) = length t
            /\ has_width (n_feature + n_feature) (side_by_side odeint f t y)).
  { intros y Hy. apply side_by_side_shape; [exact Hshape|].
    unfold has_width in Hcells. rewrite Forall_forall in Hcells.
    now apply Hcells. }
  split; [|split].
  - unfold integrate_vf. cbn [shape0 shape1 bind hd].
    cbn [length seq integrate_cells row_of getitem nth_error bind].
    destruct (Hblock y0 (in_eq _ _)) as [Hone [_ Hwide]].
    rewrite Hone. cbn [bind].
    rewrite (integrate_cells_both odeint f n_feature Hshape t (y0 :: cells)
               Hcells (length cells) 1 (side_by_side odeint f t y0))
      by (cbn [length]; auto; lia).
    cbn [bind skipn]. rewrite andb_false_r. reflexivity.
  - subst Y. apply length_concat_blocks. intros y Hy.
    now destruct (Hblock y Hy) as [_ [Hlen _]].
  - subst Y. replace (2 * n_feature)%nat with (n_feature + n_feature)%nat
      by lia.
    apply has_width_concat_blocks. intros y Hy.
    now destruct (Hblock y Hy) as [_ [_ Hwide]].
Qed.

Lemma odeint_tangent_shape (n_feature : nat) (y t' : vec) :
  length y = n_feature ->
  length (odeint_tangent (fun x => x) y t') = length t'
  /\ has_width n_feature (odeint_tangent (fun x => x) y t').
Proof.
  intros Hy. unfold odeint_tangent. split; [apply length_map|].
  apply Forall_forall. intros r Hr. apply in_map_iff in Hr.
  destruct Hr as [tk [<- _]]. unfold vadd, vscale.
  rewrite length_map2; rewrite ?length_map; auto.
Qed.

Lemma both_joins_along_features_witness :
  integrate_vf odeint_tangent (Arr2 [[1]]) [0; 1] "both" (fun x => x) false
  = Ok ([0; 1],
        Some (concat (map (side_by_side odeint_tangent (fun x => x) [0; 1])
                          [[1]])))
  /\ length (concat (map (side_by_side odeint_tangent (fun x => x) [0; 1])
                         [[1]]))
     = (length [[1]] * length [0; 1])%nat
  /\ has_width (2 * 1)
       (concat (map (side_by_side odeint_tangent (fun x => x) [0; 1]) [[1]])).
Proof.
  apply (both_joins_along_features odeint_tangent (fun x => x) 1 [1] []
           [0; 1] (odeint_tangent_shape 1)).
  repeat constructor.
Defined.

End IntegrateClaims.

Section AverageClaim.
Import Np Utils StandIns.

(** C3.  With averaging and two cells on the grid [0; 1], [integrate_vf]
    takes [t_len = int(len(t) / n_cell) = 1] and fills one row only: row 0
    of the result is the mean of the first cell's states at the two time
    steps, and row 1 is left at zero.  The per-time-step mean across the
    batch would be [(a0 + b0) / 2] and [(a1 + b1) / 2]. *)
Theorem average_mixes_time_steps :
  forall (odeint : (vec -> vec) -> vec -> vec -> matrix) (f : vec -> vec)
         (a b a0 a1 b0 b1 : R),
    odeint f [a] [0; 1] = [[a0]; [a1]] ->
    odeint f [b] [0; 1] = [[b0]; [b1]] ->
    integrate_vf odeint (Arr2 [[a]; [b]]) [0; 1] "forward" f true
    = Ok ([0; 1], Some [[(a0 + a1) / 2]; [0]]).
Proof.
  intros odeint f a b a0 a1 b0 b1 Ha Hb.
  unfold integrate_vf. cbn [shape0 shape1 bind hd length].
  cbn [seq integrate_cells row_of getitem nth_error bind integrate_one
       String.eqb Ascii.eqb Bool.eqb].
  rewrite Ha, Hb. cbn.
  replace ((a0 + (a1 + 0)) / (1 + 1)) with ((a0 + a1) / 2) by field.
  reflexivity.
Qed.

Lemma average_mixes_time_steps_witness :
  integrate_vf odeint_tangent (Arr2 [[0]; [10]]) [0; 1] "forward"
               (fun _ => [1]) true
  = Ok ([0; 1], Some [[((0 + 0 * 1) + (0 + 1 * 1)) / 2]; [0]]).
Proof.
  apply (average_mixes_time_steps odeint_tangent (fun _ => [1]) 0 10
           (0 + 0 * 1) (0 + 1 * 1) (10 + 0 * 1) (10 + 1 * 1));
    reflexivity.
Defined.

End AverageClaim.

Section DirectionClaim.
Import Np Utils FateM StandIns.

Variable odeint : (vec -> vec) -> vec -> vec -> matrix.

Lemma integrate_one_direction_error direction f y0 t :
  integrate_one odeint direction f y0 t = Raise direction_error
  <-> ~ valid_direction direction.
Proof.
  unfold integrate_one, valid_direction.
  destruct (String.eqb_spec direction "forward") as [->|Hf].
  { split; [discriminate|]. intros H. exfalso. apply H. now left. }
  destruct (String.eqb_spec direction "backward") as [->|Hb].
  { split; [discriminate|]. intros H. exfalso. apply H. right. now left. }
  destruct (String.eqb_spec direction "both") as [->|Hboth].
  { split.
    - unfold hstack. destruct (_ =? _)%nat; discriminate.
    - intros H. exfalso. apply H. right. now right. }
  split; [|reflexivity]. intros _ [H|[H|H]]; contradiction.
Qed.

Lemma integrate_cells_direction_error direction f t init_states cells :
  valid_direction direction ->
  forall Y,
    integrate_cells odeint direction f t init_states cells Y
    <> Raise direction_error.
Proof.
  intros Hvalid. induction cells as [|i cells IH]; intros Y;
    cbn [integrate_cells]; [discriminate|].
  destruct (row_of init_states i) as [y0|e|] eqn:Hrow; cbn [bind];
    [| |discriminate].
  - destruct (integrate_one odeint direction f y0 t) as [y|e|] eqn:Hone;
      cbn [bind]; [| |discriminate].
    + destruct Y as [Y|]; cbn [bind]; [|apply IH].
      unfold vstack. destruct (same_width _); cbn [bind];
        [apply IH|discriminate].
    + intros H. inversion H; subst.
      apply integrate_one_direction_error in Hone. contradiction.
  - destruct init_states as [r|v|m]; cbn [row_of] in Hrow;
      try (inversion Hrow; discriminate).
    unfold getitem in Hrow. destruct (nth_error m i); inversion Hrow.
    discriminate.
Qed.

Lemma assign_row_direction_error a width i row :
  assign_row a width i row <> Raise direction_error.
Proof.
  unfold assign_row. destruct (_ <=? _)%nat; [discriminate|].
  destruct (_ =? _)%nat; [discriminate|].
  destruct row as [|c [|c' row]]; discriminate.
Qed.

Lemma take_rows_direction_error a idx :
  take_rows a idx <> Raise direction_error.
Proof.
  induction idx as [|i idx IH]; cbn [take_rows]; [discriminate|].
  unfold getitem. destruct (nth_error a i); cbn [bind]; [|discriminate].
  destruct (take_rows a idx) as [rs|e|]; cbn [bind]; try discriminate.
  intros H. apply IH. exact H.
Qed.

Lemma average_rows_direction_error n_cell n_feature t_len Y steps :
  forall avg,
    average_rows n_cell n_feature t_len Y steps avg <> Raise direction_error.
Proof.
  induction steps as [|i steps IH]; intros avg; cbn [average_rows];
    [discriminate|].
  destruct (take_rows Y _) as [rows|e|] eqn:Hrows; cbn [bind];
    [| |discriminate].
  - destruct (assign_row avg n_feature i (mean0 rows)) as [avg'|e|] eqn:Ha;
      cbn [bind]; [apply IH| |discriminate].
    intros H. inversion H; subst.
    exact (assign_row_direction_error _ _ _ _ Ha).
  - intros H. inversion H; subst.
    exact (take_rows_direction_error _ _ Hrows).
Qed.

(** With a valid direction [integrate_vf] never raises the direction
    error. *)
Lemma integrate_vf_valid_direction init_states t direction f average :
  valid_direction direction ->
  integrate_vf odeint init_states t direction f average
  <> Raise direction_error.
Proof.
  intros Hvalid. unfold integrate_vf.
  destruct init_states as [r|v|m]; cbn [shape0 shape1 bind];
    try discriminate.
  destruct (integrate_cells odeint direction f t (Arr2 m) _ None)
    as [Y|e|] eqn:Hcells; cbn [bind]; [| |discriminate].
  - destruct ((1 <? length m)%nat && average); [|discriminate].
    destruct Y as [Y|]; [|discriminate].
    destruct (if (1 <? length m)%nat then _ else None) as [avg|];
      [|discriminate].
    destruct (average_rows _ _ _ Y _ avg) as [avg'|e|] eqn:Havg;
      cbn [bind]; try discriminate.
    intros H. inversion H; subst.
    exact (average_rows_direction_error _ _ _ _ _ _ Havg).
  - intros H. inversion H; subst.
    exact (integrate_cells_direction_error _ _ _ _ _ Hvalid _ Hcells).
Qed.

(** The loop of [fate] hands a single state, a one dimensional array, to
    [integrate_vf], which fails on reading its second dimension: the loop
    never raises the direction error. *)
Lemma fate_cells_direction_error k n_cell n_feature n_steps direction V_func
      init_states t_linspace cells st :
  fate_cells odeint k n_cell n_feature n_steps direction V_func init_states
             t_linspace cells st
  <> Raise direction_error.
Proof.
  destruct cells as [|i cells]; cbn [fate_cells]; [discriminate|].
  destruct st as [[t0 prediction] avg].
  destruct (row_of init_states i) as [y0|e|] eqn:Hrow; cbn [bind];
    [| |discriminate].
  - unfold integrate_vf. cbn [shape0 shape1 bind]. discriminate.
  - destruct init_states as [r|v|m]; cbn [row_of] in Hrow;
      try (inversion Hrow; discriminate).
    unfold getitem in Hrow. destruct (nth_error m i); inversion Hrow.
    discriminate.
Qed.

End DirectionClaim.

Section DirectionTheorems.
Import Np Utils FateM StandIns.

(** By contrast [fate] tests the direction before its loop over the cells
    (lines 116-139): once its time grid is built, a direction that is not
    one of the three strings raises the direction error, also for an empty
    batch. *)
Lemma fate_rejects_direction_before_loop :
  forall (odeint : (vec -> vec) -> vec -> vec -> matrix)
         (V_func : vec -> vec) (init_states : matrix) (t_linspace : vec)
         (direction : String.string) (average : bool),
    ~ valid_direction direction ->
    fate odeint V_func (Arr2 init_states) t_linspace direction average
    = Raise direction_error.
Proof.
  intros odeint V_func init_states t_linspace direction average Hbad.
  unfold fate. cbn [shape0 shape1 bind].
  unfold valid_direction in Hbad.
  destruct (String.eqb_spec direction "both") as [->|_];
    [exfalso; apply Hbad; right; now right|].
  destruct (String.eqb_spec direction "forward") as [->|_];
    [exfalso; apply Hbad; now left|].
  destruct (String.eqb_spec direction "backward") as [->|_];
    [exfalso; apply Hbad; right; now left|].
  reflexivity.
Qed.

(** C9.  [integrate_vf] tests the direction inside its loop over the cells
    (lines 1119-1138), at the first turn and before any call of the
    solver.  With at least one initial state it raises the direction error
    exactly when the direction is not one of ['forward'], ['backward'],
    ['both'].  On an empty batch the test is never reached: the call
    returns [(t, None)] for every direction, also for one that is not
    valid, and raises nothing. *)
Theorem direction_error_needs_a_cell :
  forall (odeint : (vec -> vec) -> vec -> vec -> matrix)
         (f : vec -> vec) (init_states : matrix) (t : vec)
         (direction : String.string) (average : bool),
    (integrate_vf odeint (Arr2 init_states) t direction f average
     = Raise direction_error
     <-> ~ valid_direction direction /\ init_states <> [])
    /\ integrate_vf odeint (Arr2 []) t direction f average = Ok (t, None).
Proof.
  intros odeint f init_states t direction average.
  split.
  - split.
    + intros Hraise. split.
      * intros Hvalid.
        exact (integrate_vf_valid_direction odeint _ _ _ _ _ Hvalid Hraise).
      * intros ->. unfold integrate_vf in Hraise.
        cbn in Hraise. destruct average; discriminate.
    + intros [Hbad Hcells].
      destruct init_states as [|y0 cells]; [contradiction|].
      unfold integrate_vf. cbn [shape0 shape1 bind length seq].
      cbn [integrate_cells row_of getitem nth_error bind].
      apply integrate_one_direction_error with (odeint := odeint)
        (f := f) (y0 := y0) (t := t) in Hbad.
      rewrite Hbad. reflexivity.
  - unfold integrate_vf. cbn. reflexivity.
Qed.

(** The direction ['sideways'] on the grid 0, 1: one initial state raises
    the direction error, the empty batch returns [(t, None)]. *)
Lemma direction_error_needs_a_cell_witness :
  integrate_vf odeint_tangent (Arr2 [[1]]) [0; 1] "sideways" (fun x => x)
               true
  = Raise direction_error
  /\ integrate_vf odeint_tangent (Arr2 []) [0; 1] "sideways" (fun x => x)
                  true
     = Ok ([0; 1], None).
Proof.
  assert (Hbad : ~ valid_direction "sideways")
    by (intros [E|[E|E]]; discriminate).
  assert (Hcell : [[1]] <> []) by discriminate.
  destruct (direction_error_needs_a_cell odeint_tangent (fun x => x)
              [[1]] [0; 1] "sideways" true) as [H1 H2].
  split; [apply H1; split; assumption|exact H2].
Defined.

End DirectionTheorems.

(** * Further properties *)

Section ReshapeProps.
Import Np Lap.

Lemma length_flatten_width dim (m : matrix) :
  has_width dim m -> length (flatten m) = (length m * dim)%nat.
Proof.
  unfold flatten. induction 1 as [|r m Hr Hm IH]; [reflexivity|].
  cbn [concat length]. rewrite length_app, IH, Hr. lia.
Qed.

Lemma chunks_flatten dim (m : matrix) :
  has_width dim m -> chunks (length m) dim (flatten m) = m.
Proof.
  unfold flatten. induction 1 as [|r m Hr Hm IH]; [reflexivity|].
  cbn [length chunks concat].
  rewrite firstn_app, skipn_app, Hr, Nat.sub_diag.
  rewrite firstn_all2 by lia. rewrite skipn_all2 by lia.
  cbn [firstn skipn app]. rewrite app_nil_r. now rewrite IH.
Qed.

Lemma chunks_width dim rows (x : vec) :
  length x = (rows * dim)%nat -> has_width dim (chunks rows dim x).
Proof.
  revert x. induction rows as [|rows IH]; intros x Hx; [constructor|].
  cbn [chunks]. constructor.
  - rewrite length_firstn. lia.
  - apply IH. rewrite length_skipn. lia.
Qed.

Lemma flatten_chunks dim rows (x : vec) :
  length x = (rows * dim)%nat -> flatten (chunks rows dim x) = x.
Proof.
  unfold flatten. revert x. induction rows as [|rows IH]; intros x Hx.
  - destruct x; [reflexivity|discriminate].
  - cbn [chunks concat]. rewrite IH by (rewrite length_skipn; lia).
    apply firstn_skipn.
Qed.

Lemma has_width_forallb dim (m : matrix) :
  has_width dim m <-> forallb (fun r => length r =? dim)%nat m = true.
Proof.
  unfold has_width. rewrite forallb_forall, Forall_forall.
  split; intros H r Hr; specialize (H r Hr); now apply Nat.eqb_eq.
Qed.

Lemma vstack_w_ok dim (blocks : list matrix) :
  Forall (has_width dim) blocks -> vstack_w dim blocks = Ok (concat blocks).
Proof.
  intros H. unfold vstack_w.
  replace (forallb (forallb (fun r => length r =? dim)%nat) blocks)
    with true; [reflexivity|].
  symmetry. apply forallb_forall. intros b Hb.
  rewrite Forall_forall in H. now apply has_width_forallb, H.
Qed.

Lemma vstack_w_bad dim (blocks : list matrix) :
  ~ Forall (has_width dim) blocks -> vstack_w dim blocks = Raise ValueError.
Proof.
  intros H. unfold vstack_w.
  destruct (forallb (forallb (fun r => length r =? dim)%nat) blocks) eqn:E;
    [|reflexivity].
  exfalso. apply H. apply Forall_forall. intros b Hb.
  rewrite forallb_forall in E. now apply has_width_forallb, E.
Qed.

Lemma has_width_single dim (r : vec) : length r = dim -> has_width dim [r].
Proof. intros H. constructor; [exact H|constructor]. Qed.

Lemma has_width_pair dim (a b : matrix) :
  has_width dim a -> has_width dim b -> Forall (has_width dim) [a; b].
Proof. intros Ha Hb. constructor; [exact Ha|]. constructor; [exact Hb|constructor]. Qed.

(** Stacking [start] above and [end] below rows of [dim] entries. *)
Lemma vstack_ends dim (start end_ : vec) (p : matrix) :
  has_width dim p -> length start = dim -> length end_ = dim ->
  (path <- vstack_w dim [[start]; p] ;; vstack_w dim [path; [end_]])
  = Ok (start :: p ++ [end_]).
Proof.
  intros Hp Hs He.
  rewrite vstack_w_ok
    by (apply has_width_pair; [now apply has_width_single|exact Hp]).
  cbn [bind concat app].
  replace (start :: p ++ []) with (start :: p)
    by (f_equal; symmetry; apply app_nil_r).
  rewrite vstack_w_ok.
  - reflexivity.
  - apply has_width_pair; [|now apply has_width_single].
    constructor; assumption.
Qed.

(** X1.  [reshape_path] undoes flattening: the flattened interior points,
    reshaped with the boundary points, give back [start], the interior
    points and [end]; without boundary points they give back the interior
    points. *)
Theorem reshape_path_inverts_flatten :
  forall (dim : nat) (start end_ : vec) (interior : matrix),
    dim <> 0%nat ->
    has_width dim interior ->
    length start = dim ->
    length end_ = dim ->
    reshape_path (flatten interior) dim (Some start) (Some end_)
    = Ok (start :: interior ++ [end_])
    /\ reshape_path (flatten interior) dim None None = Ok interior.
Proof.
  intros dim start end_ interior Hdim Hw Hs He.
  assert (Hre : reshape (flatten interior)
                        (length (flatten interior) / dim) dim
                = Ok interior).
  { rewrite (length_flatten_width dim) by assumption.
    rewrite Nat.div_mul by assumption.
    unfold reshape. rewrite (length_flatten_width dim) by assumption.
    rewrite Nat.eqb_refl. now rewrite chunks_flatten. }
  unfold reshape_path.
  replace (dim =? 0)%nat with false by (symmetry; now apply Nat.eqb_neq).
  rewrite Hre. cbn [bind]. split; [|reflexivity].
  now apply vstack_ends.
Qed.

Lemma reshape_path_inverts_flatten_witness :
  reshape_path (flatten [[1; 2]; [3; 4]]) 2 (Some [0; 0]) (Some [5; 5])
  = Ok ([0; 0] :: [[1; 2]; [3; 4]] ++ [[5; 5]]).
Proof.
  apply (reshape_path_inverts_flatten 2 [0; 0] [5; 5] [[1; 2]; [3; 4]]);
    try reflexivity; [discriminate|repeat constructor].
Defined.

(** X2.  When [reshape_path] fails and when it does not: with [dim = 0] it
    raises [ZeroDivisionError]; with a flat vector whose length is not a
    multiple of [dim], or a boundary point that has not [dim] entries, it
    raises [ValueError]; in every other case it returns [start], interior
    rows of [dim] entries that flatten to the input, and [end]. *)
Theorem reshape_path_outcomes :
  forall (x : vec) (dim : nat) (start end_ : vec),
    (dim = 0%nat ->
     reshape_path x dim (Some start) (Some end_) = Raise ZeroDivisionError)
    /\ (dim <> 0%nat ->
        (length x mod dim <> 0 \/ length start <> dim \/ length end_ <> dim)
        %nat ->
        reshape_path x dim (Some start) (Some end_) = Raise ValueError)
    /\ (dim <> 0%nat ->
        (length x mod dim = 0)%nat -> length start = dim ->
        length end_ = dim ->
        exists interior,
          reshape_path x dim (Some start) (Some end_)
          = Ok (start :: interior ++ [end_])
          /\ flatten interior = x
          /\ has_width dim interior
          /\ length interior = (length x / dim)%nat).
Proof.
  intros x dim start end_. split; [|split].
  - intros ->. reflexivity.
  - intros Hdim Hbad. unfold reshape_path.
    replace (dim =? 0)%nat with false by (symmetry; now apply Nat.eqb_neq).
    unfold reshape.
    destruct (Nat.eqb_spec (length x) (length x / dim * dim)) as [Hx|Hx];
      [|reflexivity].
    cbn [bind].
    assert (Hmod : (length x mod dim = 0)%nat).
    { rewrite Hx at 1. apply Nat.Div0.mod_mul. }
    assert (Hw : has_width dim (chunks (length x / dim) dim x))
      by now apply chunks_width.
    destruct (Nat.eq_dec (length start) dim) as [Hs|Hs].
    + rewrite vstack_w_ok
        by (apply has_width_pair; [now apply has_width_single|exact Hw]).
      cbn [bind concat app].
      apply vstack_w_bad. intros Hall.
      inversion Hall as [|? ? _ Htl]; subst.
      inversion Htl as [|? ? Hend _]; subst.
      inversion Hend; subst. destruct Hbad as [Hb|[Hb|Hb]]; contradiction.
    + rewrite vstack_w_bad; [reflexivity|].
      intros Hall. inversion Hall as [|? ? Hfirst _]; subst.
      inversion Hfirst; subst. contradiction.
  - intros Hdim Hmod Hs He.
    assert (Hx : length x = (length x / dim * dim)%nat).
    { pose proof (Nat.div_mod_eq (length x) dim) as Hdm.
      rewrite Hmod in Hdm. lia. }
    assert (Hw : has_width dim (chunks (length x / dim) dim x))
      by now apply chunks_width.
    exists (chunks (length x / dim) dim x). split; [|split; [|split]].
    + unfold reshape_path.
      replace (dim =? 0)%nat with false by (symmetry; now apply Nat.eqb_neq).
      unfold reshape. rewrite <- Hx, Nat.eqb_refl. cbn [bind].
      now apply vstack_ends.
    + now apply flatten_chunks.
    + exact Hw.
    + clear. generalize (length x / dim)%nat as rows. intros rows.
      revert x. induction rows as [|rows IH]; intros x; cbn [chunks length];
        [reflexivity|]. now rewrite IH.
Qed.

Lemma reshape_path_outcomes_witness :
  reshape_path [1; 2; 3] 2 (Some [0; 0]) (Some [5; 5]) = Raise ValueError.
Proof.
  apply (proj1 (proj2 (reshape_path_outcomes [1; 2; 3] 2 [0; 0] [5; 5]))).
  - discriminate.
  - left. cbn. discriminate.
Defined.

End ReshapeProps.

Section TrajectoryMore.
Import Np Lap LapMore.

(** The action is not negative whatever the vector field returns. *)
Lemma action_nonneg_any path vf_func D0 dt :
  0 < D0 -> 0 < dt -> 0 <= action path vf_func D0 dt.
Proof.
  intros HD Hdt. unfold action.
  match goal with
  | |- context [dot ?s ?s] => pose proof (dot_self_nonneg s) as Hs
  end.
  apply Rmult_le_pos; [|apply Rlt_le, Rinv_0_lt_compat, HD].
  apply Rmult_le_pos; [|lra]. lra.
Qed.

Lemma one_over_exp_opp a : 1 / exp (- a) = exp a.
Proof.
  rewrite exp_Ropp. unfold Rdiv. rewrite Rinv_inv. ring.
Qed.

Lemma exp_ge_one a : 0 <= a -> 1 <= exp a.
Proof.
  intros [Ha|<-]; [|rewrite exp_0; lra].
  assert (Hne : a <> 0) by lra.
  pose proof (exp_ineq1 a Hne). lra.
Qed.

(** X4.  [mfpt()] is the exponential of the cached cumulative action; it
    starts with exactly 1, and for [D > 0] and [dt > 0] none of its entries
    is below 1. *)
Theorem mfpt_is_exp_of_action :
  forall (X0 : matrix) (vf_func : matrix -> matrix) (D0 dt : R),
    let L := LeastActionPath_init X0 vf_func D0 dt in
    mfpt L None = map exp (_action L)
    /\ length (mfpt L None) = length X0
    /\ ((0 < length X0)%nat -> nth_error (mfpt L None) 0 = Some 1)
    /\ (0 < D0 -> 0 < dt -> Forall (fun m => 1 <= m) (mfpt L None)).
Proof.
  intros X0 vf_func D0 dt L.
  assert (Hmap : mfpt L None = map exp (_action L)).
  { unfold mfpt. apply map_ext. intros a. apply one_over_exp_opp. }
  set (g := fun i : nat => action (firstn (i + 1) X0) vf_func D0 dt).
  assert (Hz : length (zeros (length X0)) = length X0)
    by (unfold zeros; apply repeat_length).
  assert (Hact : _action L
                 = fold_left (fun acc j => setitem acc j (g j))
                             (seq 1 (length X0 - 1)) (zeros (length X0))).
  { subst L. unfold LeastActionPath_init. cbn [_action base X].
    cbv zeta. rewrite Hz. reflexivity. }
  assert (Hlen : length (_action L) = length X0).
  { rewrite Hact, (fold_setitem_length (fun _ => g)). exact Hz. }
  assert (Hnth : forall i, (0 < length X0)%nat ->
    nth_error (_action L) i
    = if ((1 <=? i) && (i <? 1 + (length X0 - 1)))%nat
      then Some (g i) else nth_error (zeros (length X0)) i).
  { intros i Hpos. rewrite Hact. apply fold_setitem_nth. rewrite Hz. lia. }
  split; [exact Hmap|]. split; [|split].
  - rewrite Hmap, length_map. exact Hlen.
  - intros Hpos. rewrite Hmap, nth_error_map, Hnth by assumption.
    change ((1 <=? 0)%nat && (0 <? 1 + (length X0 - 1))%nat) with false.
    unfold zeros. rewrite nth_error_repeat by assumption.
    cbn [option_map]. now rewrite exp_0.
  - intros HD Hdt. rewrite Hmap. apply Forall_forall. intros m Hm.
    apply in_map_iff in Hm. destruct Hm as [a [<- Ha]].
    apply exp_ge_one.
    apply In_nth_error in Ha. destruct Ha as [i Hi].
    assert (Hpos : (0 < length X0)%nat).
    { assert (Hi' : (i < length (_action L))%nat)
        by (apply nth_error_Some; rewrite Hi; discriminate).
      lia. }
    rewrite Hnth in Hi by assumption.
    destruct ((1 <=? i) && (i <? 1 + (length X0 - 1)))%nat.
    + inversion Hi; subst. now apply action_nonneg_any.
    + unfold zeros in Hi. apply nth_error_In, repeat_spec in Hi. lra.
Qed.

Lemma mfpt_is_exp_of_action_witness :
  0 < 1 /\ 0 < 1
  /\ Forall (fun m => 1 <= m)
            (mfpt (LeastActionPath_init [[0]; [1]; [3]] (fun m => m) 1 1)
                  None).
Proof.
  split; [lra|]. split; [lra|].
  apply (proj2 (proj2 (proj2 (mfpt_is_exp_of_action
           [[0]; [1]; [3]] (fun m => m) 1 1)))); lra.
Defined.

End TrajectoryMore.

Section ShapeProps.
Import Np Lap.

Lemma length_map2_min {A B C} (f : A -> B -> C) u v :
  length (map2 f u v) = Nat.min (length u) (length v).
Proof.
  revert v. induction u as [|a u IH]; intros [|b v]; simpl; auto.
Qed.

Lemma has_width_map2 dim (f : R -> R -> R) (A B : matrix) :
  has_width dim A -> has_width dim B ->
  has_width dim (map2 (map2 f) A B).
Proof.
  intros HA. revert B. induction HA as [|r A Hr HA IH]; intros B HB;
    [constructor|].
  destruct HB as [|s B Hs HB]; [constructor|].
  cbn [map2]. constructor; [|now apply IH].
  rewrite length_map2_min. lia.
Qed.

Lemma has_width_map dim (f : R -> R) (A : matrix) :
  has_width dim A -> has_width dim (map (map f) A).
Proof.
  intros HA. induction HA as [|r A Hr HA IH]; [constructor|].
  cbn [map]. constructor; [now rewrite length_map|exact IH].
Qed.

Lemma has_width_init dim (A : matrix) :
  has_width dim A -> has_width dim (init A).
Proof.
  unfold init. intros HA. induction HA as [|r A Hr HA IH]; [constructor|].
  destruct A as [|r' A]; [constructor|].
  change (removelast (r :: r' :: A)) with (r :: removelast (r' :: A)).
  constructor; assumption.
Qed.

Lemma has_width_rest dim (A : matrix) :
  has_width dim A -> has_width dim (rest A).
Proof.
  unfold rest. intros HA. destruct HA; [constructor|assumption].
Qed.

Lemma length_init {A} (l : list A) : length (init l) = (length l - 1)%nat.
Proof.
  unfold init. induction l as [|a l IH]; [reflexivity|].
  destruct l as [|b l]; [reflexivity|].
  change (removelast (a :: b :: l)) with (a :: removelast (b :: l)).
  cbn [length] in *. lia.
Qed.

Lemma length_rest {A} (l : list A) : length (rest l) = (length l - 1)%nat.
Proof. unfold rest. destruct l; simpl; lia. Qed.

(** What a successful [reshape_path] with both boundary points returns. *)
Lemma reshape_path_shape x dim start end_ path :
  reshape_path x dim (Some start) (Some end_) = Ok path ->
  dim <> 0%nat
  /\ length x = (length x / dim * dim)%nat
  /\ path = start :: chunks (length x / dim) dim x ++ [end_]
  /\ has_width dim path.
Proof.
  unfold reshape_path.
  destruct (Nat.eqb_spec dim 0) as [|Hdim]; [discriminate|].
  unfold reshape.
  destruct (Nat.eqb_spec (length x) (length x / dim * dim)) as [Hx|];
    [|discriminate].
  cbn [bind].
  set (p := chunks (length x / dim) dim x).
  destruct (vstack_w dim [[start]; p]) as [p1| |] eqn:E1; cbn [bind];
    try discriminate.
  intros E2.
  assert (Hw : has_width dim path).
  { unfold vstack_w in E2.
    destruct (forallb (forallb (fun r => length r =? dim)%nat) [p1; [end_]])
      eqn:Hall; [|discriminate].
    inversion E2; subst path. cbn [concat app].
    cbn [forallb] in Hall. apply andb_true_iff in Hall.
    destruct Hall as [H1 H2]. apply andb_true_iff in H2.
    apply Forall_app. split; now apply has_width_forallb; tauto. }
  apply vstack_w_Ok in E1. apply vstack_w_Ok in E2.
  cbn [concat app] in E1, E2. subst p1 path.
  repeat split; auto.
  - f_equal. replace (p ++ []) with p by (symmetry; apply app_nil_r).
    reflexivity.
Qed.

End ShapeProps.

Section GradientShape.
Import Np Lap.

Variable dim : nat.
Variable vf_func : matrix -> matrix.
Variable jac_func : matrix -> tensor3.

(** The shapes the interfaces promise: the vector field keeps the shape of
    the array of centres, the Jacobian has [dim] rows of [dim] columns. *)
Hypothesis vf_shape :
  forall m, has_width dim m ->
            length (vf_func m) = length m /\ has_width dim (vf_func m).
Hypothesis jac_shape :
  forall m, length (jac_func m) = dim
            /\ Forall (fun row => length row = dim) (jac_func m).

Lemma length_fold_vadd (rows : matrix) :
  has_width dim rows ->
  length (fold_right vadd (zeros dim) rows) = dim.
Proof.
  induction 1 as [|r rows Hr Hrows IH]; cbn [fold_right].
  - unfold zeros. apply repeat_length.
  - unfold vadd. rewrite length_map2_min. unfold vadd in IH. lia.
Qed.

Lemma length_vecmat (v : vec) (J : tensor3) (s : nat) :
  dim <> 0%nat -> length J = dim ->
  Forall (fun row => length row = dim) J ->
  length (vecmat v (slice_last J s)) = dim.
Proof.
  intros Hdim HJ Hrows. unfold vecmat.
  assert (Hslice : has_width dim (slice_last J s)).
  { unfold slice_last. apply Forall_forall. intros r Hr.
    apply in_map_iff in Hr. destruct Hr as [row [<- Hrow]].
    rewrite length_map. rewrite Forall_forall in Hrows. now apply Hrows. }
  assert (Hhd : length (hd [] (slice_last J s)) = dim).
  { destruct J as [|row J]; [cbn in HJ; congruence|].
    cbn [slice_last map hd]. rewrite length_map.
    now inversion Hrows. }
  rewrite Hhd. apply length_fold_vadd.
  clear Hhd. revert v.
  induction Hslice as [|r M Hr HM IH]; intros v; destruct v as [|a v];
    cbn [map2]; try constructor.
  - unfold vscale. now rewrite length_map.
  - apply IH.
Qed.

Lemma has_width_setitem (z : matrix) (j : nat) (r : vec) :
  length r = dim -> has_width dim z -> has_width dim (setitem z j r).
Proof.
  intros Hr Hz. revert j. induction Hz as [|r0 z Hr0 Hz IHz]; intros j;
    [constructor|].
  destruct j; cbn [setitem].
  - apply Forall_cons; [exact Hr|exact Hz].
  - apply Forall_cons; [exact Hr0|apply IHz].
Qed.

Lemma has_width_fold_setitem (g : nat -> vec) (js : list nat) :
  (forall j, length (g j) = dim) ->
  forall z : matrix,
    has_width dim z ->
    has_width dim (fold_left (fun z s => setitem z s (g s)) js z).
Proof.
  intros Hg. induction js as [|j js IH]; intros z Hz; [exact Hz|].
  cbn [fold_left]. apply IH. now apply has_width_setitem.
Qed.

Lemma has_width_repeat (r : vec) n :
  length r = dim -> has_width dim (repeat r n).
Proof.
  intros Hr. apply Forall_forall. intros x Hx.
  apply repeat_spec in Hx. now subst.
Qed.

(** The gradient of a path of rows of [dim] entries has one row of [dim]
    entries for every interior point. *)
Lemma action_grad_shape (path : matrix) (D0 dt : R) :
  dim <> 0%nat -> has_width dim path ->
  length (action_grad path vf_func jac_func D0 dt) = (length path - 2)%nat
  /\ has_width dim (action_grad path vf_func jac_func D0 dt).
Proof.
  intros Hdim Hpath. unfold action_grad.
  set (x := mmulr (madd (init path) (rest path)) 0.5).
  set (v := mdiv (diff0 path) dt).
  set (dv := msub v (vf_func x)).
  assert (Hx : has_width dim x /\ length x = (length path - 1)%nat).
  { subst x. unfold mmulr, madd, vmulr. split.
    - apply (has_width_map dim (fun a => a * 0.5)).
      apply has_width_map2; [now apply has_width_init
                            |now apply has_width_rest].
    - rewrite length_map, length_map2_min, length_init, length_rest. lia. }
  destruct Hx as [Hxw Hxl].
  assert (Hv : has_width dim v /\ length v = (length path - 1)%nat).
  { subst v. unfold mdiv, diff0, msub, vdiv, vsub. split.
    - apply (has_width_map dim (fun a => a / dt)).
      apply has_width_map2; [now apply has_width_rest
                            |now apply has_width_init].
    - rewrite length_map, length_map2_min, length_init, length_rest. lia. }
  destruct Hv as [Hvw Hvl].
  destruct (vf_shape x Hxw) as [Hfl Hfw].
  assert (Hdv : has_width dim dv /\ length dv = (length path - 1)%nat).
  { subst dv. unfold msub, vsub. split.
    - now apply has_width_map2.
    - rewrite length_map2_min, Hvl, Hfl, Hxl. lia. }
  destruct Hdv as [Hdvw Hdvl].
  set (z := fold_left _ _ _).
  assert (Hz : has_width dim z /\ length z = length dv).
  { subst z. split.
    - apply (has_width_fold_setitem
               (fun s => vecmat (nth s dv []) (slice_last (jac_func x) s))).
      + intros j. destruct (jac_shape x) as [HJ Hrows].
        now apply length_vecmat.
      + unfold zeros2. inversion Hdvw as [|r dv' Hr Hrest Hdv'].
        * cbn [length repeat]. constructor.
        * apply has_width_repeat. cbn [hd]. unfold zeros.
          now rewrite repeat_length.
    - rewrite (fold_setitem_length
                 (fun _ s => vecmat (nth s dv []) (slice_last (jac_func x) s))).
      unfold zeros2. apply repeat_length. }
  destruct Hz as [Hzw Hzl].
  unfold msub, mdiv, mscale, madd, vsub, vdiv, vscale, vadd. split.
  - rewrite length_map2_min, !length_map, !length_map2_min,
      !length_init, !length_rest, Hzl, Hdvl. lia.
  - apply has_width_map2.
    + apply (has_width_map dim (fun a => a / D0)).
      apply has_width_map2; [now apply has_width_init
                            |now apply has_width_rest].
    + apply (has_width_map dim (fun a => dt / (2 * D0) * a)).
      apply has_width_map2; [now apply has_width_init
                            |now apply has_width_rest].
Qed.

End GradientShape.

Section GradientClaim.
Import Np Lap.

(** X6.  For a vector field that keeps the shape of its argument and a
    Jacobian array of shape [dim x dim x n] for [n] centres (one [dim] by
    [dim] slice per centre), the gradient that [action_grad_aux] computes
    for the interior vector [x] has exactly as many entries as [x]. *)
Theorem gradient_matches_variables :
  forall (dim : nat) (vf_func : matrix -> matrix)
         (jac_func : matrix -> tensor3) (x start end_ : vec) (D0 dt : R)
         (grad : vec),
    (forall m, has_width dim m ->
               length (vf_func m) = length m /\ has_width dim (vf_func m)) ->
    (forall m, length (jac_func m) = dim
               /\ Forall (fun row =>
                            length row = dim
                            /\ Forall (fun cell => length cell = length m)
                                      row)
                         (jac_func m)) ->
    action_grad_aux x vf_func jac_func dim (Some start) (Some end_) D0 dt
    = Ok grad ->
    length grad = length x.
Proof.
  intros dim vf_func jac_func x start end_ D0 dt grad Hvf Hjac3 Hrun.
  assert (Hjac : forall m, length (jac_func m) = dim
                           /\ Forall (fun row => length row = dim)
                                     (jac_func m)).
  { intros m. destruct (Hjac3 m) as [H1 H2]. split; [exact H1|].
    eapply Forall_impl; [|exact H2]. intros row [Hrow _]. exact Hrow. }
  unfold action_grad_aux in Hrun.
  destruct (reshape_path x dim (Some start) (Some end_)) as [path| |] eqn:Hp;
    cbn [bind] in Hrun; try discriminate.
  injection Hrun as <-.
  apply reshape_path_shape in Hp. destruct Hp as [Hdim [Hx [Hpath Hw]]].
  destruct (action_grad_shape dim vf_func jac_func Hvf Hjac path D0 dt
                              Hdim Hw) as [Hlen Hgw].
  rewrite (length_flatten_width dim) by exact Hgw.
  rewrite Hlen, Hpath. cbn [length]. rewrite length_app. cbn [length].
  assert (Hch : forall rows (v : vec), length (chunks rows dim v) = rows).
  { induction rows as [|rows IH]; intros v; cbn [chunks length];
      [reflexivity|]. now rewrite IH. }
  rewrite Hch. lia.
Qed.

Lemma gradient_matches_variables_witness :
  exists grad,
    action_grad_aux [1] (fun m => m) (fun m => [[map (fun _ => 0) m]]) 1
                    (Some [0]) (Some [2]) 1 1 = Ok grad
    /\ length grad = length [1].
Proof.
  eexists. split; [reflexivity|].
  apply (gradient_matches_variables 1 (fun m => m)
           (fun m => [[map (fun _ => 0) m]]) [1] [0] [2] 1 1).
  - intros m Hm. split; [reflexivity|exact Hm].
  - intros m. split; [reflexivity|].
    constructor; [|constructor]. split; [reflexivity|].
    constructor; [apply length_map|constructor].
  - reflexivity.
Defined.

End GradientClaim.

Section Geometry.
Import Np.



Lemma norm_nonneg (v : vec) : 0 <= norm v.
Proof. unfold norm. apply sqrt_pos. Qed.




Lemma length_vsub (u v : vec) :
  length u = length v -> length (vsub u v) = length u.
Proof. intros H. unfold vsub. now apply length_map2. Qed.



End Geometry.

Section FilterMore.
Import Np Utils.


(** The loop of lines 1457-1461 adds up the segments of the polyline. *)
Lemma arclength_fold (points : matrix) :
  forall (before : matrix) (prev : vec) (acc : R),
    fold_left (arclength_step (before ++ prev :: points)
                              (hd [] (before ++ [prev])))
              (seq (length before + 1) (length points)) acc
    = acc + polyline_from prev points.
Proof.
  induction points as [|x points IH]; intros before prev acc.
  - cbn [length seq fold_left polyline_from]. lra.
  - cbn [length seq fold_left polyline_from].
    replace (S (length before + 1))
      with (length (before ++ [prev]) + 1)%nat
      by (rewrite length_app; cbn [length]; lia).
    replace (before ++ prev :: x :: points)
      with ((before ++ [prev]) ++ x :: points)
      by (rewrite <- app_assoc; reflexivity).
    replace (hd [] (before ++ [prev]))
      with (hd [] ((before ++ [prev]) ++ [x]))
      by (destruct before; reflexivity).
    rewrite IH.
    replace (arclength_step ((before ++ [prev]) ++ x :: points)
               (hd [] ((before ++ [prev]) ++ [x])) acc (length before + 1))
      with (acc + norm (vsub x prev)); [lra|].
    unfold arclength_step.
    assert (Hx : nth (length before + 1)
                     ((before ++ [prev]) ++ x :: points) [] = x).
    { rewrite app_nth2 by (rewrite length_app; cbn [length]; lia).
      rewrite length_app. cbn [length].
      now rewrite Nat.sub_diag. }
    assert (Hp : nth (length before + 1 - 1)
                     ((before ++ [prev]) ++ x :: points) [] = prev).
    { replace (length before + 1 - 1)%nat with (length before) by lia.
      rewrite <- app_assoc. rewrite app_nth2 by lia.
      now rewrite Nat.sub_diag. }
    rewrite Hx, Hp.
    destruct (Nat.eqb_spec (length before + 1) 1) as [E|E]; [|reflexivity].
    destruct before as [|b before]; [reflexivity|].
    cbn [length] in E. lia.
Qed.

Lemma polyline_length_structural x0 points :
  polyline_length (x0 :: points) = polyline_from x0 points.
Proof.
  unfold polyline_length. cbn [hd].
  replace (length (x0 :: points) - 1)%nat with (length points)
    by (cbn [length]; lia).
  pose proof (arclength_fold points [] x0 0) as H.
  cbn [app length Nat.add hd] in H. rewrite H. lra.
Qed.

Lemma keep_far_width dim prev points tol :
  has_width dim points -> has_width dim (keep_far prev points tol).
Proof.
  intros H. revert prev. induction H as [|x points Hx Hp IH]; intros prev;
    cbn [keep_far]; [constructor|].
  destruct (Rltb _ tol); [apply IH|].
  constructor; [exact Hx|apply IH].
Qed.


(** X7.  [remove_redundant_points_trajectory] fails on an empty path only.
    On any other path the mask it returns has one flag for every input
    point, the first flag is [False], and the output holds exactly the
    points whose flag is [False], in their order. *)
Theorem filter_mask_selects_output :
  forall (X : matrix) (tol : R),
    (X = [] ->
     remove_redundant_points_trajectory X tol = Raise IndexError)
    /\ (X <> [] ->
        exists X' arclength discard,
          remove_redundant_points_trajectory X tol
          = Ok (X', arclength, discard)
          /\ length discard = length X
          /\ nth_error discard 0 = Some false
          /\ X' = select_not discard X
          /\ hd_error X' = hd_error X).
Proof.
  intros X tol. split.
  - intros ->. reflexivity.
  - intros HX. destruct X as [|x0 points]; [contradiction|].
    rewrite remove_redundant_structural.
    eexists _, _, _. split; [reflexivity|].
    split; [cbn [length]; now rewrite length_close_flags|].
    split; [reflexivity|]. split; [|reflexivity].
    cbn [select_not]. now rewrite select_not_close_flags.
Qed.

Lemma filter_mask_selects_output_witness :
  exists X' arclength discard,
    remove_redundant_points_trajectory [[0]; [1]] (1 / 2)
    = Ok (X', arclength, discard)
    /\ length discard = length [[0]; [1]]
    /\ nth_error discard 0 = Some false
    /\ X' = select_not discard [[0]; [1]]
    /\ hd_error X' = hd_error [[0]; [1]].
Proof.
  apply (proj2 (filter_mask_selects_output [[0]; [1]] (1 / 2))).
  discriminate.
Defined.

Lemma keep_far_nonpositive tol points :
  tol <= 0 ->
  forall prev,
    keep_far prev points tol = points
    /\ close_flags prev points tol = repeat false (length points).
Proof.
  intros Htol. induction points as [|x points IH]; intros prev;
    cbn [keep_far close_flags length repeat]; [split; reflexivity|].
  pose proof (norm_nonneg (vsub x prev)) as Hn.
  rewrite Rltb_false by lra.
  destruct (IH x) as [H1 H2]. now rewrite H1, H2.
Qed.

(** X8.  With a tolerance that is zero or negative the filter removes
    nothing: it returns the path as it is, a mask of [False] only, and the
    length of the whole polyline. *)
Theorem filter_keeps_all_for_nonpositive_tol :
  forall (x0 : vec) (points : matrix) (tol : R),
    tol <= 0 ->
    remove_redundant_points_trajectory (x0 :: points) tol
    = Ok (x0 :: points, polyline_from x0 points,
          repeat false (length (x0 :: points))).
Proof.
  intros x0 points tol Htol.
  rewrite remove_redundant_structural.
  destruct (keep_far_nonpositive tol points Htol x0) as [H1 H2].
  rewrite H1, H2, polyline_length_structural. reflexivity.
Qed.

Lemma filter_keeps_all_for_nonpositive_tol_witness :
  remove_redundant_points_trajectory ([0] :: [[0]; [1]]) 0
  = Ok ([0] :: [[0]; [1]], polyline_from [0] [[0]; [1]],
        repeat false (length ([0] :: [[0]; [1]]))).
Proof.
  apply (filter_keeps_all_for_nonpositive_tol [0] [[0]; [1]] 0). lra.
Defined.



End FilterMore.

Section SamplerMore.
Import Np Utils.

(** The inner loop reads [X] at the indices of its range and at the index
    before each of them only. *)
Lemma scan_segments_reads (X1 X2 : matrix) t step x0 t0 i js :
  (forall j, In j js ->
             nth j X1 ([] : vec) = nth j X2 []
             /\ nth (j - 1) X1 ([] : vec) = nth (j - 1) X2 []) ->
  forall l d,
    scan_segments X1 t step x0 t0 i js l d
    = scan_segments X2 t step x0 t0 i js l d.
Proof.
  induction js as [|j js IH]; intros Hsame l d; [reflexivity|].
  cbn [scan_segments].
  destruct (Hsame j (or_introl eq_refl)) as [Hj Hj1].
  rewrite Hj, Hj1.
  destruct (Rgeb _ step); [reflexivity|].
  apply IH. intros k Hk. apply Hsame. now right.
Qed.

Lemma sampler_loop_last_point X p q t step fuel :
  forall st,
    sampler_loop fuel (X ++ [p]) t step st
    = sampler_loop fuel (X ++ [q]) t step st.
Proof.
  assert (Hlen : forall r : vec, (length (X ++ [r]) - 1)%nat = length X)
    by (intros r; rewrite length_app; cbn [length]; lia).
  induction fuel as [|fuel IH]; intros st; cbn [sampler_loop];
    rewrite !Hlen; [reflexivity|].
  destruct ((s_i st <? length X)%nat && negb (s_terminate st));
    [|reflexivity].
  unfold sampler_turn. rewrite !Hlen.
  rewrite (scan_segments_reads (X ++ [p]) (X ++ [q])).
  - destruct (scan_segments (X ++ [q]) t step (s_x0 st) (s_t0 st) (s_i st)
                (seq (s_i st) (length X - s_i st)) 0 0) as [[| ]| |];
      cbn [bind]; try reflexivity; apply IH.
  - intros j Hj. apply in_seq in Hj.
    rewrite !(app_nth1 X) by lia. split; reflexivity.
Qed.

(** X10.  [arclength_sampling] never reads the last point of [X]: with
    another last point it gives the same samples, the same arclength and
    the same times. *)
Theorem sampler_ignores_last_point :
  forall (fuel : nat) (X : matrix) (p q : vec) (step_length : R)
         (t : option vec),
    arclength_sampling fuel (X ++ [p]) step_length t
    = arclength_sampling fuel (X ++ [q]) step_length t.
Proof.
  intros fuel X p q step t. unfold arclength_sampling.
  destruct X as [|x0 X].
  - cbn [app getitem nth_error bind].
    destruct (match t with
              | Some t1 => t0 <- getitem t1 0 ;; Ok (Some t0)
              | None => Ok None
              end) as [t0| |]; cbn [bind]; try reflexivity.
    destruct fuel; reflexivity.
  - cbn [getitem nth_error bind].
    destruct (match t with
              | Some t1 => t0 <- getitem t1 0 ;; Ok (Some t0)
              | None => Ok None
              end) as [t0| |]; cbn [bind]; try reflexivity.
    cbn [app getitem nth_error bind]. rewrite !app_comm_cons.
    now rewrite (sampler_loop_last_point (x0 :: X) p q).
Qed.

(** X11.  A path of one or two points gives no sample: the loop does not
    run, the result is the empty array and the arclength [0], with an empty
    list of times when times are given. *)
Theorem sampler_short_path :
  forall (fuel : nat) (X : matrix) (step_length : R),
    X <> [] -> (length X <= 2)%nat ->
    arclength_sampling fuel X step_length None = Ok (Arr1 [], 0, None)
    /\ forall t0 t,
         arclength_sampling fuel X step_length (Some (t0 :: t))
         = Ok (Arr1 [], 0, Some []).
Proof.
  intros fuel X step HX Hlen.
  destruct X as [|x0 [|x1 [|x2 X]]]; [contradiction| | |cbn [length] in Hlen; lia];
    split; intros; destruct fuel; reflexivity.
Qed.

Lemma sampler_short_path_witness :
  arclength_sampling 0 [[0]; [1]] 1 None = Ok (Arr1 [], 0, None)
  /\ forall t0 t,
       arclength_sampling 0 [[0]; [1]] 1 (Some (t0 :: t))
       = Ok (Arr1 [], 0, Some []).
Proof.
  apply (sampler_short_path 0 [[0]; [1]] 1); [discriminate|cbn [length]; lia].
Defined.

(** With a step that is not positive the first segment is always long
    enough: every turn emits a point, keeps [i = 1] and does not set
    [terminate]. *)
Lemma sampler_loop_nonpositive_step X t step fuel :
  (3 <= length X)%nat -> step <= 0 ->
  (forall ts, t = Some ts -> (2 <= length ts)%nat) ->
  forall st,
    s_i st = 1%nat -> s_terminate st = false ->
    sampler_loop fuel X t step st = OutOfFuel.
Proof.
  intros Hlen Hstep Ht.
  induction fuel as [|fuel IH]; intros st Hi Hterm; cbn [sampler_loop];
    rewrite Hi, Hterm;
    replace (1 <? length X - 1)%nat with true
      by (symmetry; apply Nat.ltb_lt; lia);
    cbn [negb andb]; [reflexivity|].
  unfold sampler_turn. rewrite Hi.
  replace (length X - 1 - 1)%nat with (S (length X - 3)) by lia.
  cbn [seq scan_segments Nat.eqb].
  pose proof (norm_nonneg (vsub (nth 1 X []) (s_x0 st))) as Hd.
  rewrite Rgeb_true by lra.
  assert (Htau : exists tau,
             interpolate_time t (s_t0 st) 1 1 step 0
                              (norm (vsub (nth 1 X []) (s_x0 st)))
             = Ok tau).
  { unfold interpolate_time. destruct t as [ts|]; [|now eexists].
    destruct (s_t0 st) as [t0|]; [|now eexists].
    cbn [Nat.eqb bind]. specialize (Ht ts eq_refl).
    destruct ts as [|a [|b ts]]; cbn [length] in Ht; try lia.
    cbn [getitem nth_error bind]. now eexists. }
  destruct Htau as [tau ->]. cbn [bind].
  apply IH; cbn [s_i s_terminate]; [reflexivity|].
  rewrite Rltb_false by lra. exact Hterm.
Qed.

(** X12.  With a step length that is zero or negative,
    [arclength_sampling] does not return on a path of three or more points:
    whatever the fuel, the loop is still running when the fuel is used up
    (times, when given, for the first two points at least). *)
Theorem sampler_nonpositive_step_never_returns :
  forall (fuel : nat) (X : matrix) (step_length : R) (t : option vec),
    (3 <= length X)%nat -> step_length <= 0 ->
    (forall ts, t = Some ts -> (2 <= length ts)%nat) ->
    arclength_sampling fuel X step_length t = OutOfFuel.
Proof.
  intros fuel X step t Hlen Hstep Ht. unfold arclength_sampling.
  destruct X as [|x0 X]; [cbn [length] in Hlen; lia|].
  cbn [getitem nth_error bind].
  destruct t as [ts|].
  - specialize (Ht ts eq_refl) as Hts.
    destruct ts as [|a ts]; [cbn [length] in Hts; lia|].
    cbn [getitem nth_error bind].
    rewrite sampler_loop_nonpositive_step; auto.
  - cbn [bind]. rewrite sampler_loop_nonpositive_step; auto.
Qed.

Lemma sampler_nonpositive_step_never_returns_witness :
  arclength_sampling 5 [[0]; [1]; [2]] 0 None = OutOfFuel.
Proof.
  apply (sampler_nonpositive_step_never_returns 5 [[0]; [1]; [2]] 0 None).
  - cbn [length]. lia.
  - lra.
  - discriminate.
Defined.

Lemma scan_segments_tau X ts step x0 t0 i js :
  forall l d j y tau l' d',
    scan_segments X (Some ts) step x0 (Some t0) i js l d
    = Ok (Hit j y tau l' d') ->
    exists tv, tau = Some tv.
Proof.
  induction js as [|j0 js IH]; intros l d j y tau l' d' Hscan;
    [discriminate|].
  cbn [scan_segments] in Hscan.
  destruct (Rgeb _ step).
  - unfold interpolate_time in Hscan.
    destruct (if (j0 =? i)%nat then Ok t0 else getitem ts (j0 - 1))
      as [tau0| |]; cbn [bind] in Hscan; try discriminate.
    destruct (getitem ts j0) as [tj| |]; cbn [bind] in Hscan;
      try discriminate.
    injection Hscan as _ _ Htau _ _. rewrite <- Htau. now eexists.
  - eapply IH. exact Hscan.
Qed.

Lemma scan_segments_no_tau X step x0 t0 i js :
  forall l d j y tau l' d',
    scan_segments X None step x0 t0 i js l d = Ok (Hit j y tau l' d') ->
    tau = None.
Proof.
  induction js as [|j0 js IH]; intros l d j y tau l' d' Hscan;
    [discriminate|].
  cbn [scan_segments] in Hscan.
  destruct (Rgeb _ step).
  - cbn [interpolate_time bind] in Hscan.
    injection Hscan as _ _ Htau _ _. now rewrite <- Htau.
  - eapply IH. exact Hscan.
Qed.

Lemma sampler_loop_times X t step fuel :
  forall st st',
    times_match t (s_Y st) (s_T st) ->
    (forall ts, t = Some ts -> exists t0, s_t0 st = Some t0) ->
    sampler_loop fuel X t step st = Ok st' ->
    times_match t (s_Y st') (s_T st').
Proof.
  induction fuel as [|fuel IH]; intros st st' HT Ht0 Hloop;
    cbn [sampler_loop] in Hloop;
    destruct ((s_i st <? length X - 1)%nat && negb (s_terminate st));
    try discriminate; try (now injection Hloop as <-).
  unfold sampler_turn in Hloop.
  destruct (scan_segments X t step (s_x0 st) (s_t0 st) (s_i st)
              (seq (s_i st) (length X - 1 - s_i st)) 0 0)
    as [[j y tau l d|l d]| |] eqn:Hscan; cbn [bind] in Hloop;
    try discriminate.
  - apply IH in Hloop; [exact Hloop| |]; cbn [s_Y s_T s_t0].
    + unfold times_match in *. destruct t as [ts|].
      * destruct (Ht0 ts eq_refl) as [t0 Ht0'].
        rewrite Ht0' in Hscan.
        destruct (scan_segments_tau _ _ _ _ _ _ _ _ _ _ _ _ _ _ Hscan)
          as [tv ->].
        destruct HT as [times [-> Hlen]].
        exists (times ++ [tv]). split; [reflexivity|].
        rewrite !length_app. cbn [length]. lia.
      * rewrite HT. reflexivity.
    + intros ts Hts. subst t.
      destruct (Ht0 ts eq_refl) as [t0 Ht0'].
      rewrite Ht0' in Hscan.
      destruct (scan_segments_tau _ _ _ _ _ _ _ _ _ _ _ _ _ _ Hscan)
        as [tv ->].
      now eexists.
  - apply IH in Hloop; [exact Hloop| |]; cbn [s_Y s_T s_t0]; assumption.
Qed.

(** X13.  When [arclength_sampling] returns, it returns one time for every
    sample if times were given, and no list of times otherwise. *)
Theorem sampler_times_match_samples :
  forall (fuel : nat) (X : matrix) (step_length : R) (t : option vec)
         samples arclength T,
    arclength_sampling fuel X step_length t = Ok (samples, arclength, T) ->
    exists Y, samples = np_array Y /\ times_match t Y T.
Proof.
  intros fuel X step t samples arclength T Hrun.
  unfold arclength_sampling in Hrun.
  destruct (getitem X 0) as [x0| |]; cbn [bind] in Hrun; try discriminate.
  destruct (match t with
            | Some t1 => t0 <- getitem t1 0 ;; Ok (Some t0)
            | None => Ok None
            end) as [t0| |] eqn:Ht0; cbn [bind] in Hrun; try discriminate.
  match type of Hrun with
  | context [sampler_loop fuel X t step ?st0] =>
      destruct (sampler_loop fuel X t step st0) as [st| |] eqn:Hloop
  end; cbn [bind] in Hrun; try discriminate.
  injection Hrun as <- _ <-.
  exists (s_Y st). split; [reflexivity|].
  apply sampler_loop_times in Hloop; [exact Hloop| |]; cbn [s_Y s_T s_t0].
  - unfold times_match. destruct t; [|reflexivity].
    exists []. split; reflexivity.
  - intros ts ->. destruct (getitem ts 0) as [a| |]; cbn [bind] in Ht0;
      try discriminate.
    injection Ht0 as <-. now eexists.
Qed.

Lemma sampler_times_match_samples_witness :
  exists Y, Arr2 [[1]] = np_array Y /\ times_match (Some [0; 1; 2]) Y (Some [1]).
Proof.
  apply (sampler_times_match_samples 2 [[0]; [1]; [10]] 1 (Some [0; 1; 2])
                                     (Arr2 [[1]]) 2 (Some [1])).
  unfold arclength_sampling. cbn [getitem nth_error bind].
  cbn [sampler_loop s_i s_terminate length Nat.sub Nat.ltb Nat.leb
       negb andb].
  assert (H1 : sampler_turn [[0]; [1]; [10]] (Some [0; 1; 2]) 1
                 (mkSampler [] [0] (Some []) (Some 0) 1 false 0)
               = Ok (mkSampler [[1]] [1] (Some [1]) (Some 1) 1 false 1))
    by turn_tac.
  assert (H2 : sampler_turn [[0]; [1]; [10]] (Some [0; 1; 2]) 1
                 (mkSampler [[1]] [1] (Some [1]) (Some 1) 1 false 1)
               = Ok (mkSampler [[1]] [1] (Some [1]) (Some 1) 1 true 2))
    by turn_tac.
  rewrite H1. cbn [bind].
  cbn [sampler_loop s_i s_terminate length Nat.sub Nat.ltb Nat.leb
       negb andb].
  rewrite H2. reflexivity.
Defined.

End SamplerMore.

Section SamplerSpacing.
Import Np Utils.

Lemma last_cons {A} (l : list A) :
  forall x a, last (x :: l) a = last l x.
Proof.
  induction l as [|b l IH]; intros x a; [reflexivity|].
  change (last (x :: b :: l) a) with (last (b :: l) a).
  now rewrite !IH.
Qed.

Lemma polyline_from_snoc (points : matrix) :
  forall (a z : vec),
    polyline_from a (points ++ [z])
    = polyline_from a points + norm (vsub z (last points a)).
Proof.
  induction points as [|x points IH]; intros a z.
  - cbn [app polyline_from last]. lra.
  - cbn [app polyline_from]. rewrite IH.
    rewrite last_cons. lra.
Qed.

Lemma nth_skipn_add {A} (l : list A) (d : A) :
  forall i k, nth k (skipn i l) d = nth (i + k) l d.
Proof.
  induction l as [|a l IH]; intros [|i] k; cbn [skipn Nat.add];
    try reflexivity.
  - now destruct k.
  - now rewrite IH.
Qed.

Lemma firstn_snoc {A} (l : list A) (d : A) :
  forall k, (k < length l)%nat ->
            firstn (S k) l = firstn k l ++ [nth k l d].
Proof.
  induction l as [|a l IH]; intros k Hk; cbn [length] in Hk; [lia|].
  destruct k as [|k]; [reflexivity|].
  cbn [firstn nth app]. f_equal. apply IH. lia.
Qed.

Lemma points_between_snoc (X : matrix) i j :
  (i <= j)%nat -> (j < length X)%nat ->
  points_between X i (S j) = points_between X i j ++ [nth j X []].
Proof.
  intros Hij Hj. unfold points_between.
  replace (S j - i)%nat with (S (j - i)) by lia.
  rewrite (firstn_snoc (skipn i X) ([] : vec))
    by (rewrite length_skipn; lia).
  rewrite nth_skipn_add. do 3 f_equal. lia.
Qed.

Lemma last_points_between (X : matrix) (x0 : vec) i j :
  (i <= j)%nat -> (j <= length X)%nat ->
  last (points_between X i j) x0
  = if (j =? i)%nat then x0 else nth (j - 1) X [].
Proof.
  intros Hij Hj. destruct (Nat.eqb_spec j i) as [->|Hne].
  - unfold points_between. now rewrite Nat.sub_diag.
  - replace j with (S (j - 1)) at 1 by lia.
    rewrite points_between_snoc by lia. apply last_last.
Qed.

Lemma dot_rescaled (c d : R) (v : vec) :
  dot (vdiv (vscale c v) d) (vdiv (vscale c v) d)
  = (c / d) * (c / d) * dot v v.
Proof.
  induction v as [|a v IH]; [unfold dot, sum; simpl; lra|].
  change (dot (vdiv (vscale c (a :: v)) d) (vdiv (vscale c (a :: v)) d))
    with (c * a / d * (c * a / d)
          + dot (vdiv (vscale c v) d) (vdiv (vscale c v) d)).
  change (dot (a :: v) (a :: v)) with (a * a + dot v v).
  rewrite IH. unfold Rdiv. ring.
Qed.

Lemma vsub_vadd_cancel (x w : vec) :
  length w = length x -> vsub (vadd x w) x = w.
Proof.
  revert w. induction x as [|a x IH]; intros [|b w] H; simpl in H;
    try discriminate; [reflexivity|].
  unfold vsub, vadd in *. cbn [map2]. f_equal; [lra|].
  apply IH. lia.
Qed.

(** The point placed on a segment lies [c] away from the start [x]. *)
Lemma norm_of_advance (x v : vec) (c : R) :
  length v = length x -> 0 < norm v -> 0 <= c ->
  norm (vsub (vadd x (vdiv (vscale c v) (norm v))) x) = c.
Proof.
  intros Hlen Hpos Hc.
  rewrite vsub_vadd_cancel
    by (unfold vdiv, vscale; rewrite !length_map; exact Hlen).
  unfold norm at 1. rewrite dot_rescaled.
  assert (Hsq : norm v * norm v = dot v v)
    by (unfold norm; apply sqrt_sqrt, dot_self_nonneg).
  rewrite <- Hsq.
  replace (c / norm v * (c / norm v) * (norm v * norm v)) with (c * c)
    by (field; lra).
  now apply sqrt_square.
Qed.

(** The inner loop keeps in [l] the length of the polyline from [x0]
    through the points it has passed, and places the sample it emits at
    [step] along that polyline. *)
Lemma scan_segments_one_step dim (X : matrix) t step (x0 : vec) t0 i :
  0 < step -> has_width dim X -> length x0 = dim ->
  forall n j0 l d j y tau l' d',
    (i <= j0)%nat -> (j0 + n <= length X)%nat ->
    l = polyline_from x0 (points_between X i j0) -> l < step ->
    scan_segments X t step x0 t0 i (seq j0 n) l d
    = Ok (Hit j y tau l' d') ->
    polyline_from x0 (points_between X i j ++ [y]) = step.
Proof.
  intros Hstep HX Hx0.
  induction n as [|n IH]; intros j0 l d j y tau l' d' Hi Hn Hl Hlt Hscan;
    [discriminate|].
  cbn [seq scan_segments] in Hscan.
  pose proof (last_points_between X x0 i j0 Hi ltac:(lia)) as Hlast.
  set (x := if (j0 =? i)%nat then x0 else nth (j0 - 1) X []) in *.
  assert (Htan : (if (j0 =? i)%nat then vsub (nth j0 X []) x0
                  else vsub (nth j0 X []) (nth (j0 - 1) X []))
                 = vsub (nth j0 X []) x)
    by (subst x; destruct (j0 =? i)%nat; reflexivity).
  rewrite Htan in Hscan.
  assert (Hcur : length (nth j0 X []) = dim)
    by (apply has_width_nth; [assumption|lia]).
  assert (Hx : length x = dim).
  { subst x. destruct (j0 =? i)%nat; [exact Hx0|].
    apply has_width_nth; [assumption|lia]. }
  set (tangent := vsub (nth j0 X []) x) in *.
  assert (Hlen : length tangent = length x).
  { subst tangent. rewrite length_vsub; congruence. }
  destruct (Rgeb (l + norm tangent) step) eqn:Hge.
  - destruct (interpolate_time t t0 i j0 step l (norm tangent))
      as [tau0| |]; cbn [bind] in Hscan; try discriminate.
    injection Hscan as <- <- _ _ _.
    rewrite polyline_from_snoc, Hlast, <- Hl.
    unfold Rgeb in Hge.
    destruct (Rge_dec (l + norm tangent) step) as [Hge'|]; [|discriminate].
    rewrite norm_of_advance; [lra|exact Hlen|lra|lra].
  - unfold Rgeb in Hge.
    destruct (Rge_dec (l + norm tangent) step) as [|Hlt']; [discriminate|].
    eapply (IH (S j0) (l + norm tangent)); [lia|lia| |lra|exact Hscan].
    rewrite points_between_snoc by lia.
    rewrite polyline_from_snoc, Hlast, <- Hl. reflexivity.
Qed.

(** X14.  A turn of the sampler's loop that emits a point places it exactly
    one step ahead along the path: the polyline from the previous sample
    (or from [X[0]] in the first turn) through the points of [X] passed in
    this turn to the new sample has the length [step_length].  The next turn
    starts from the new sample. *)
Theorem sample_lies_one_step_ahead :
  forall (dim : nat) (X : matrix) (t : option vec) (step_length : R)
         (st st' : sampler) (y : vec),
    0 < step_length -> has_width dim X -> length (s_x0 st) = dim ->
    sampler_turn X t step_length st = Ok st' ->
    s_Y st' = s_Y st ++ [y] ->
    s_x0 st' = y
    /\ polyline_from (s_x0 st) (points_between X (s_i st) (s_i st') ++ [y])
       = step_length.
Proof.
  intros dim X t step st st' y Hstep HX Hx0 Hturn HY.
  unfold sampler_turn in Hturn.
  destruct (scan_segments X t step (s_x0 st) (s_t0 st) (s_i st)
              (seq (s_i st) (length X - 1 - s_i st)) 0 0)
    as [[j y' tau l d|l d]| |] eqn:Hscan; cbn [bind] in Hturn;
    try discriminate; injection Hturn as <-; cbn [s_Y s_x0 s_i] in *.
  - apply app_inv_head in HY. injection HY as ->.
    split; [reflexivity|].
    eapply scan_segments_one_step;
      [exact Hstep|exact HX|exact Hx0| | | | |exact Hscan].
    + lia.
    + destruct (le_lt_dec (s_i st) (length X - 1)); [lia|].
      replace (length X - 1 - s_i st)%nat with 0%nat in Hscan by lia.
      discriminate.
    + unfold points_between. rewrite Nat.sub_diag. reflexivity.
    + exact Hstep.
  - exfalso. apply (f_equal (@length vec)) in HY.
    rewrite length_app in HY. cbn [length] in HY. lia.
Qed.

Lemma sample_lies_one_step_ahead_witness :
  s_x0 (mkSampler [[1]] [1] None None 1 false 1) = [1]
  /\ polyline_from (s_x0 (mkSampler [] [0] None None 1 false 0))
       (points_between [[0]; [1]; [10]]
                (s_i (mkSampler [] [0] None None 1 false 0))
                (s_i (mkSampler [[1]] [1] None None 1 false 1)) ++ [[1]])
     = 1.
Proof.
  apply (sample_lies_one_step_ahead 1 [[0]; [1]; [10]] None 1
           (mkSampler [] [0] None None 1 false 0)
           (mkSampler [[1]] [1] None None 1 false 1) [1]).
  - lra.
  - repeat constructor.
  - reflexivity.
  - turn_tac.
  - reflexivity.
Defined.

End SamplerSpacing.

Section IntegrateMore.
Import Np Utils.

Variable odeint : (vec -> vec) -> vec -> vec -> matrix.
Variable f : vec -> vec.
Variable n_feature : nat.

(** What the solver is trusted to do for states of [n_feature] entries: one
    row for each time, each row a state. *)
Hypothesis odeint_shape :
  forall (y0 t : vec),
    length y0 = n_feature ->
    length (odeint f y0 t) = length t
    /\ has_width n_feature (odeint f y0 t).

Lemma integrate_one_way direction y0 t :
  direction = "forward" \/ direction = "backward" ->
  integrate_one odeint direction f y0 t
  = Ok (one_way odeint f t direction y0).
Proof. intros [-> | ->]; reflexivity. Qed.

Lemma one_way_shape direction y0 t :
  length y0 = n_feature ->
  length (one_way odeint f t direction y0) = length t
  /\ has_width n_feature (one_way odeint f t direction y0).
Proof.
  intros Hy0. unfold one_way.
  destruct (String.eqb direction "backward").
  - destruct (odeint_shape y0 (vneg t) Hy0) as [Hl Hw].
    split; [|exact Hw]. rewrite Hl. unfold vneg. apply length_map.
  - now apply odeint_shape.
Qed.

(** The loop over the cells, started after [a] cells with the rows [Y]
    gathered so far, when every cell gives a block [block y0] of width
    [w]. *)
Lemma integrate_cells_blocks direction (block : vec -> matrix) w t
      (m : matrix) :
  (forall y0, length y0 = n_feature ->
              integrate_one odeint direction f y0 t = Ok (block y0)
              /\ has_width w (block y0)) ->
  has_width n_feature m ->
  forall k a (Y : matrix),
    (a + k = length m)%nat ->
    has_width w Y ->
    integrate_cells odeint direction f t (Arr2 m) (seq a k) (Some Y)
    = Ok (Some (Y ++ concat (map block (skipn a m)))).
Proof.
  intros Hblock Hm. induction k as [|k IH]; intros a Y Hlen HY.
  - cbn [seq integrate_cells].
    rewrite skipn_all2 by lia. cbn [map concat]. now rewrite app_nil_r.
  - cbn [seq integrate_cells row_of].
    destruct (nth_error m a) as [y0|] eqn:Hy0;
      [|apply nth_error_None in Hy0; lia].
    unfold getitem. rewrite Hy0. cbn [bind].
    assert (Hw : length y0 = n_feature).
    { apply nth_error_In in Hy0. unfold has_width in Hm.
      rewrite Forall_forall in Hm. now apply Hm. }
    destruct (Hblock y0 Hw) as [Hone Hwide].
    rewrite Hone. cbn [bind].
    rewrite (vstack_pair w) by assumption.
    cbn [bind]. rewrite IH; [|lia|apply Forall_app; split; assumption].
    do 2 f_equal. rewrite <- app_assoc. f_equal.
    rewrite (skipn_step m a y0 Hy0). reflexivity.
Qed.

(** The whole loop on a batch that is not empty. *)
Lemma integrate_cells_all direction (block : vec -> matrix) w t
      (y0 : vec) (cells : matrix) :
  (forall y, length y = n_feature ->
             integrate_one odeint direction f y t = Ok (block y)
             /\ has_width w (block y)) ->
  has_width n_feature (y0 :: cells) ->
  integrate_cells odeint direction f t (Arr2 (y0 :: cells))
                  (seq 0 (length (y0 :: cells))) None
  = Ok (Some (concat (map block (y0 :: cells)))).
Proof.
  intros Hblock Hm.
  cbn [length seq integrate_cells row_of getitem nth_error bind].
  assert (Hy0 : length y0 = n_feature) by (now inversion Hm).
  destruct (Hblock y0 Hy0) as [Hone Hwide]. rewrite Hone. cbn [bind].
  rewrite (integrate_cells_blocks direction block w t (y0 :: cells)
             Hblock Hm (length cells) 1 (block y0))
    by (cbn [length]; auto; lia).
  reflexivity.
Qed.

Lemma one_way_block direction t :
  direction = "forward" \/ direction = "backward" ->
  forall y, length y = n_feature ->
            integrate_one odeint direction f y t
            = Ok (one_way odeint f t direction y)
            /\ has_width n_feature (one_way odeint f t direction y).
Proof.
  intros Hdir y Hy. split; [now apply integrate_one_way|].
  now apply one_way_shape.
Qed.

(** X15.  In the directions ['forward'] and ['backward'] and without
    averaging, [integrate_vf] stacks the runs of the cells in the order of
    the cells, and returns the grid [t] as it was given, also when the
    solver ran on [-t].  For a single cell the flag [average] changes
    nothing. *)
Theorem one_way_runs_are_stacked :
  forall (y0 : vec) (cells : matrix) (t : vec) (direction : String.string),
    has_width n_feature (y0 :: cells) ->
    direction = "forward" \/ direction = "backward" ->
    integrate_vf odeint (Arr2 (y0 :: cells)) t direction f false
    = Ok (t, Some (concat (map (one_way odeint f t direction)
                               (y0 :: cells))))
    /\ integrate_vf odeint (Arr2 [y0]) t direction f true
       = integrate_vf odeint (Arr2 [y0]) t direction f false.
Proof.
  intros y0 cells t direction Hm Hdir. split.
  - unfold integrate_vf. cbn [shape0 shape1 bind].
    rewrite (integrate_cells_all direction (one_way odeint f t direction)
               n_feature t y0 cells (one_way_block direction t Hdir) Hm).
    cbn [bind]. rewrite andb_false_r. reflexivity.
  - unfold integrate_vf. cbn [shape0 shape1 bind length Nat.ltb Nat.leb].
    reflexivity.
Qed.

Lemma take_rows_in_range (Y : matrix) (idx : list nat) :
  Forall (fun j => (j < length Y)%nat) idx ->
  take_rows Y idx = Ok (map (fun j => nth j Y []) idx).
Proof.
  induction 1 as [|j idx Hj Hidx IH]; [reflexivity|].
  cbn [take_rows map]. unfold getitem.
  rewrite (nth_error_nth' Y ([] : vec) Hj). cbn [bind].
  rewrite IH. reflexivity.
Qed.

Lemma length_mean0 w (rows : matrix) :
  rows <> [] -> has_width w rows -> length (mean0 rows) = w.
Proof.
  intros Hne Hw. unfold mean0, vdiv. rewrite length_map.
  destruct rows as [|r rows]; [contradiction|].
  assert (Hr : length r = w) by (now inversion Hw).
  cbn [hd]. rewrite Hr. now apply length_fold_vadd.
Qed.

(** The rows the averaging loop reads at step [i] are in range when
    [i < t_len] and [n_cell * t_len <= len(Y)]. *)
Lemma strided_rows (Y : matrix) n_cell t_len i :
  (i < t_len)%nat -> (n_cell * t_len <= length Y)%nat ->
  take_rows Y (map (fun k => k * t_len + i)%nat (seq 0 n_cell))
  = Ok (map (fun k => nth (k * t_len + i)%nat Y []) (seq 0 n_cell)).
Proof.
  intros Hi HY. rewrite take_rows_in_range.
  - now rewrite map_map.
  - apply Forall_forall. intros j Hj. apply in_map_iff in Hj.
    destruct Hj as [k [<- Hk]]. apply in_seq in Hk. nia.
Qed.

Lemma strided_mean_width w (Y : matrix) n_cell t_len i :
  has_width w Y -> (0 < n_cell)%nat ->
  (i < t_len)%nat -> (n_cell * t_len <= length Y)%nat ->
  length (strided_mean Y n_cell t_len i) = w.
Proof.
  intros HY Hn Hi Hlen. unfold strided_mean. apply length_mean0.
  - destruct n_cell; [lia|]. discriminate.
  - apply Forall_forall. intros r Hr. apply in_map_iff in Hr.
    destruct Hr as [k [<- Hk]]. apply in_seq in Hk.
    apply has_width_nth; [exact HY|nia].
Qed.

(** The averaging loop writes the strided means into the rows it
    visits. *)
Lemma average_rows_fills (Y : matrix) n_cell t_len :
  has_width n_feature Y -> (0 < n_cell)%nat ->
  (n_cell * t_len <= length Y)%nat ->
  forall k a (avg : matrix),
    (a + k <= t_len)%nat -> (t_len <= length avg)%nat ->
    average_rows n_cell n_feature t_len Y (seq a k) avg
    = Ok (fold_left (fun acc j => setitem acc j
                                    (strided_mean Y n_cell t_len j))
                    (seq a k) avg).
Proof.
  intros HY Hn Hlen. induction k as [|k IH]; intros a avg Hak Havg;
    [reflexivity|].
  cbn [seq average_rows fold_left].
  rewrite strided_rows by lia. cbn [bind].
  unfold assign_row.
  replace (length avg <=? a)%nat with false
    by (symmetry; apply Nat.leb_gt; lia).
  fold (strided_mean Y n_cell t_len a).
  rewrite (strided_mean_width n_feature) by (auto; lia).
  rewrite Nat.eqb_refl. cbn [bind].
  apply IH; [lia|]. now rewrite length_setitem.
Qed.

Lemma filled_rows (g : nat -> vec) (k n : nat) (z : vec) :
  (k <= n)%nat ->
  fold_left (fun acc j => setitem acc j (g j)) (seq 0 k) (repeat z n)
  = map g (seq 0 k) ++ repeat z (n - k).
Proof.
  intros Hk. apply nth_error_ext. intros i.
  rewrite fold_setitem_nth by (rewrite repeat_length; lia).
  cbn [Nat.leb andb Nat.add].
  destruct (Nat.ltb_spec i k) as [Hi|Hi].
  - rewrite nth_error_app1 by (rewrite length_map, length_seq; exact Hi).
    rewrite nth_error_map.
    rewrite (nth_error_nth' (seq 0 k) 0%nat)
      by (rewrite length_seq; exact Hi).
    cbn [option_map]. now rewrite seq_nth.
  - rewrite nth_error_app2 by (rewrite length_map, length_seq; exact Hi).
    rewrite length_map, length_seq.
    destruct (Nat.ltb_spec i n) as [Hin|Hin].
    + rewrite !nth_error_repeat by lia. reflexivity.
    + transitivity (@None vec).
      * apply nth_error_None. rewrite repeat_length. lia.
      * symmetry. apply nth_error_None. rewrite repeat_length. lia.
Qed.

(** X16.  With averaging, two or more cells and the direction ['forward']
    or ['backward'], [integrate_vf] returns [len(t)] rows, of which it
    fills the first [t_len = len(t) // n_cell] only: row [i] is the mean of
    the rows [k * t_len + i] of the stacked runs, one for every cell [k];
    the other rows stay zero. *)
Theorem average_fills_strided_means :
  forall (cells : matrix) (t : vec) (direction : String.string),
    has_width n_feature cells -> (2 <= length cells)%nat ->
    direction = "forward" \/ direction = "backward" ->
    let n_cell := length cells in
    let t_len := (length t / n_cell)%nat in
    let Y := concat (map (one_way odeint f t direction) cells) in
    integrate_vf odeint (Arr2 cells) t direction f true
    = Ok (t, Some (map (strided_mean Y n_cell t_len) (seq 0 t_len)
                   ++ zeros2 (length t - t_len) n_feature)).
Proof.
  intros cells t direction Hm Hn Hdir n_cell t_len Y.
  destruct cells as [|y0 cells]; [cbn [length] in Hn; lia|].
  assert (Hy0 : length y0 = n_feature) by (now inversion Hm).
  unfold integrate_vf. cbn [shape0 shape1 bind hd]. rewrite Hy0.
  rewrite (integrate_cells_all direction (one_way odeint f t direction)
             n_feature t y0 cells (one_way_block direction t Hdir) Hm).
  cbn [bind]. fold n_cell. fold Y.
  replace (1 <? n_cell)%nat with true
    by (symmetry; apply Nat.ltb_lt; exact Hn).
  replace (String.eqb direction "both") with false
    by (destruct Hdir as [-> | ->]; reflexivity).
  cbn [andb]. fold t_len.
  assert (HYlen : length Y = (n_cell * length t)%nat).
  { subst Y. apply length_concat_blocks. intros y Hy.
    apply one_way_shape. unfold has_width in Hm.
    rewrite Forall_forall in Hm. now apply Hm. }
  assert (HYw : has_width n_feature Y).
  { subst Y. apply has_width_concat_blocks. intros y Hy.
    apply one_way_shape. unfold has_width in Hm.
    rewrite Forall_forall in Hm. now apply Hm. }
  assert (Htlen : (t_len <= length t)%nat).
  { subst t_len. apply Nat.Div0.div_le_upper_bound. nia. }
  rewrite (average_rows_fills Y n_cell t_len HYw ltac:(lia)).
  - cbn [bind]. unfold zeros2. rewrite filled_rows by exact Htlen.
    reflexivity.
  - rewrite HYlen. nia.
  - cbn [Nat.add]. lia.
  - unfold zeros2. rewrite repeat_length. exact Htlen.
Qed.

(** X17.  With averaging, two or more cells and the direction ['both'],
    [integrate_vf] fails with a [ValueError] as soon as there is a row to
    fill ([len(t) >= n_cell]) and the states have at least one entry: the
    stacked rows are twice as wide as the rows of [avg]. *)
Theorem both_average_raises :
  forall (cells : matrix) (t : vec),
    has_width n_feature cells -> (2 <= length cells)%nat ->
    (length cells <= length t)%nat -> (1 <= n_feature)%nat ->
    integrate_vf odeint (Arr2 cells) t "both" f true = Raise ValueError.
Proof.
  intros cells t Hm Hn Ht Hf.
  destruct cells as [|y0 cells]; [cbn [length] in Hn; lia|].
  assert (Hy0 : length y0 = n_feature) by (now inversion Hm).
  set (n_cell := length (y0 :: cells)) in *.
  set (Y := concat (map (side_by_side odeint f t) (y0 :: cells))).
  assert (Hblock : forall y, length y = n_feature ->
            integrate_one odeint "both" f y t = Ok (side_by_side odeint f t y)
            /\ has_width (n_feature + n_feature)
                         (side_by_side odeint f t y)).
  { intros y Hy.
    destruct (side_by_side_shape odeint f n_feature odeint_shape t y Hy)
      as [H1 [_ H2]]. now split. }
  unfold integrate_vf. cbn [shape0 shape1 bind hd]. rewrite Hy0.
  rewrite (integrate_cells_all "both" (side_by_side odeint f t)
             (n_feature + n_feature) t y0 cells Hblock Hm).
  cbn [bind]. fold n_cell. fold Y.
  replace (1 <? n_cell)%nat with true
    by (symmetry; apply Nat.ltb_lt; exact Hn).
  cbn [String.eqb Ascii.eqb Bool.eqb andb].
  assert (HYlen : length Y = (n_cell * length t)%nat).
  { subst Y. apply length_concat_blocks. intros y Hy.
    apply (side_by_side_shape odeint f n_feature odeint_shape).
    unfold has_width in Hm. rewrite Forall_forall in Hm. now apply Hm. }
  assert (HYw : has_width (n_feature + n_feature) Y).
  { subst Y. apply has_width_concat_blocks. intros y Hy.
    apply (side_by_side_shape odeint f n_feature odeint_shape).
    unfold has_width in Hm. rewrite Forall_forall in Hm. now apply Hm. }
  set (t_len := (length t / n_cell)%nat).
  assert (Hpos : (1 <= t_len)%nat).
  { subst t_len. apply Nat.div_le_lower_bound; lia. }
  assert (Hle : (t_len <= length t)%nat).
  { subst t_len. apply Nat.Div0.div_le_upper_bound. nia. }
  destruct t_len as [|t_len'] eqn:Et; [lia|].
  cbn [seq average_rows].
  rewrite strided_rows by (try lia; rewrite HYlen; nia). cbn [bind].
  unfold assign_row, zeros2. rewrite repeat_length.
  replace (length t * 2 <=? 0)%nat with false
    by (symmetry; apply Nat.leb_gt; lia).
  fold (strided_mean Y n_cell (S t_len') 0).
  assert (Hw : length (strided_mean Y n_cell (S t_len') 0)
               = (n_feature + n_feature)%nat)
    by (apply strided_mean_width; try assumption; try lia;
        rewrite HYlen; nia).
  rewrite Hw.
  replace (n_feature + n_feature =? n_feature)%nat with false
    by (symmetry; apply Nat.eqb_neq; lia).
  destruct (strided_mean Y n_cell (S t_len') 0) as [|c [|c' row]];
    cbn [length] in Hw; try lia; reflexivity.
Qed.

End IntegrateMore.

Section IntegrateMoreWitnesses.
Import Np Utils StandIns.

Lemma one_way_runs_are_stacked_witness :
  integrate_vf odeint_tangent (Arr2 ([1] :: [[2]])) [0; 1] "backward"
               (fun x => x) false
  = Ok ([0; 1],
        Some (concat (map (one_way odeint_tangent (fun x => x) [0; 1]
                                   "backward")
                          ([1] :: [[2]]))))
  /\ integrate_vf odeint_tangent (Arr2 [[1]]) [0; 1] "backward"
                  (fun x => x) true
     = integrate_vf odeint_tangent (Arr2 [[1]]) [0; 1] "backward"
                    (fun x => x) false.
Proof.
  apply (one_way_runs_are_stacked odeint_tangent (fun x => x) 1
           (odeint_tangent_shape 1) [1] [[2]] [0; 1] "backward").
  - repeat constructor.
  - now right.
Defined.

Lemma average_fills_strided_means_witness :
  integrate_vf odeint_tangent (Arr2 [[1]; [2]]) [0; 1; 2] "forward"
               (fun x => x) true
  = Ok ([0; 1; 2],
        Some (map (strided_mean
                     (concat (map (one_way odeint_tangent (fun x => x)
                                           [0; 1; 2] "forward")
                                  [[1]; [2]]))
                     (length [[1]; [2]])
                     (length [0; 1; 2] / length [[1]; [2]]))
                  (seq 0 (length [0; 1; 2] / length [[1]; [2]]))
              ++ zeros2 (length [0; 1; 2]
                         - length [0; 1; 2] / length [[1]; [2]]) 1)).
Proof.
  apply (average_fills_strided_means odeint_tangent (fun x => x) 1
           (odeint_tangent_shape 1) [[1]; [2]] [0; 1; 2] "forward").
  - repeat constructor.
  - cbn [length]. lia.
  - now left.
Defined.

Lemma both_average_raises_witness :
  integrate_vf odeint_tangent (Arr2 [[1]; [2]]) [0; 1; 2] "both"
               (fun x => x) true
  = Raise ValueError.
Proof.
  apply (both_average_raises odeint_tangent (fun x => x) 1
           (odeint_tangent_shape 1) [[1]; [2]] [0; 1; 2]).
  - repeat constructor.
  - cbn [length]. lia.
  - cbn [length]. lia.
  - lia.
Defined.

End IntegrateMoreWitnesses.

Section FateMore.
Import Np Utils FateM.

(** X18.  [fate] never returns a result.  With a valid direction and at
    least one initial state it fails with an [IndexError]: it hands the
    one dimensional [init_states[i, :]] to [integrate_vf], which reads
    [shape[1]] of it.  With a valid direction and no initial state it fails
    at its [return], where [t] is unbound.  An array that is not two
    dimensional fails on its shape, and any other direction raises the
    direction error. *)
Theorem fate_never_returns :
  forall (odeint : (vec -> vec) -> vec -> vec -> matrix)
         (V_func : vec -> vec) (t_linspace : vec)
         (direction : String.string) (average : bool),
    (forall init_states result,
        fate odeint V_func init_states t_linspace direction average
        <> Ok result)
    /\ (valid_direction direction ->
        (forall y0 cells,
            fate odeint V_func (Arr2 (y0 :: cells)) t_linspace direction
                 average
            = Raise IndexError)
        /\ fate odeint V_func (Arr2 []) t_linspace direction average
           = Raise UnboundLocalError).
Proof.
  intros odeint V_func t_linspace direction average.
  assert (Hcell : forall k n_cell n_feature n_steps y0 cells n st,
             fate_cells odeint k n_cell n_feature n_steps direction V_func
                        (Arr2 (y0 :: cells)) t_linspace (seq 0 (S n)) st
             = Raise IndexError).
  { intros k n_cell n_feature n_steps y0 cells n [[t0 p] av].
    cbn [seq fate_cells row_of getitem nth_error bind].
    unfold integrate_vf. cbn [shape0 shape1 bind]. reflexivity. }
  assert (Hsome : forall y0 cells,
             valid_direction direction ->
             fate odeint V_func (Arr2 (y0 :: cells)) t_linspace direction
                  average
             = Raise IndexError).
  { intros y0 cells Hdir. unfold fate. cbn [shape0 shape1 bind length].
    destruct Hdir as [-> | [-> | ->]];
      cbn [String.eqb Ascii.eqb Bool.eqb orb];
      rewrite (Hcell _ _ _ _ y0 cells (length cells) _);
      reflexivity. }
  assert (Hnone : valid_direction direction ->
             fate odeint V_func (Arr2 []) t_linspace direction average
             = Raise UnboundLocalError).
  { intros Hdir. unfold fate. cbn [shape0 shape1 bind length].
    destruct Hdir as [-> | [-> | ->]]; reflexivity. }
  split; [|intros Hdir; split; [intros y0 cells; now apply Hsome|
                                now apply Hnone]].
  intros init_states result Hrun.
  destruct init_states as [r|v|m].
  - discriminate.
  - unfold fate in Hrun. cbn [shape0 shape1 bind] in Hrun. discriminate.
  - destruct (String.eqb direction "both") eqn:Eb;
      [|destruct (String.eqb direction "forward"
                  || String.eqb direction "backward") eqn:Ef].
    + assert (Hdir : valid_direction direction)
        by (right; right; now apply String.eqb_eq).
      destruct m as [|y0 cells];
        [rewrite (Hnone Hdir) in Hrun|rewrite (Hsome _ _ Hdir) in Hrun];
        discriminate.
    + assert (Hdir : valid_direction direction).
      { apply orb_true_iff in Ef. destruct Ef as [E|E];
          apply String.eqb_eq in E; [now left|right; now left]. }
      destruct m as [|y0 cells];
        [rewrite (Hnone Hdir) in Hrun|rewrite (Hsome _ _ Hdir) in Hrun];
        discriminate.
    + unfold fate in Hrun. cbn [shape0 shape1 bind] in Hrun.
      rewrite Eb, Ef in Hrun. discriminate.
Qed.

Lemma fate_never_returns_witness :
  (forall y0 cells,
      fate StandIns.odeint_tangent (fun x => x) (Arr2 (y0 :: cells))
           [0; 1] "forward" false
      = Raise IndexError)
  /\ fate StandIns.odeint_tangent (fun x => x) (Arr2 []) [0; 1]
          "forward" false
     = Raise UnboundLocalError.
Proof.
  apply (fate_never_returns StandIns.odeint_tangent (fun x => x) [0; 1]
           "forward" false).
  now left.
Defined.

End FateMore.

Section NearestCell.
Import Np Utils UtilsMore.






End NearestCell.

Section Dictionaries.
Import UtilsMore.

Context {V : Type}.

Lemma dict_get_set (d : pydict V) k v k' :
  dict_get (dict_set d k v) k'
  = if String.eqb k k' then Some v else dict_get d k'.
Proof.
  induction d as [|[k0 v0] d IH]; cbn [dict_set dict_get].
  - reflexivity.
  - destruct (String.eqb_spec k0 k) as [->|Hne]; cbn [dict_get].
    + destruct (String.eqb k k'); reflexivity.
    + rewrite IH. destruct (String.eqb_spec k0 k') as [->|Hne'];
        [|reflexivity].
      destruct (String.eqb_spec k k') as [->|_]; [contradiction|reflexivity].
Qed.

Lemma dict_get_In (d : pydict V) k :
  In k (map fst d) <-> dict_get d k <> None.
Proof.
  induction d as [|[k0 v0] d IH]; cbn [map dict_get fst In].
  - split; [contradiction|congruence].
  - destruct (String.eqb_spec k0 k) as [->|Hne].
    + split; [discriminate|now left].
    + rewrite <- IH. split; [intros [H|H]; [contradiction|exact H]|now right].
Qed.

Lemma dict_set_keys (d : pydict V) k v :
  dict_get d k <> None -> map fst (dict_set d k v) = map fst d.
Proof.
  induction d as [|[k0 v0] d IH]; cbn [dict_set dict_get map fst];
    [congruence|].
  destruct (String.eqb_spec k0 k) as [->|Hne]; [reflexivity|].
  intros H. cbn [map fst]. now rewrite IH.
Qed.

(** The loop of [dict1.update(...)] over the keys [keys], all present in
    the dictionary it updates. *)
Lemma update_fold (dict2 : pydict V) (keys : list String.string) :
  forall d : pydict V,
    (forall k, In k keys -> dict_get d k <> None) ->
    let d' := fold_left (fun d k => match dict_get dict2 k with
                                    | Some v => dict_set d k v
                                    | None => d
                                    end) keys d in
    map fst d' = map fst d
    /\ forall k, dict_get d' k
                 = match dict_get dict2 k with
                   | Some v => if in_dec String.string_dec k keys
                               then Some v else dict_get d k
                   | None => dict_get d k
                   end.
Proof.
  induction keys as [|k0 keys IH]; intros d Hkeys.
  - cbn [fold_left]. split; [reflexivity|]. intros k.
    destruct (dict_get dict2 k); [|reflexivity].
    destruct (in_dec String.string_dec k []) as [[]|]; reflexivity.
  - cbn [fold_left].
    set (d1 := match dict_get dict2 k0 with
               | Some v => dict_set d k0 v
               | None => d
               end).
    assert (Hkeys1 : map fst d1 = map fst d).
    { subst d1. destruct (dict_get dict2 k0); [|reflexivity].
      apply dict_set_keys, Hkeys. now left. }
    assert (Hpresent : forall k, In k keys -> dict_get d1 k <> None).
    { intros k Hk. apply dict_get_In. rewrite Hkeys1.
      apply dict_get_In, Hkeys. now right. }
    destruct (IH d1 Hpresent) as [IHk IHg].
    split; [now rewrite IHk|].
    intros k. rewrite IHg.
    destruct (dict_get dict2 k) as [v|] eqn:Hk2.
    + destruct (in_dec String.string_dec k keys) as [Hin|Hnin];
        destruct (in_dec String.string_dec k (k0 :: keys)) as [Hin'|Hnin'];
        try reflexivity.
      * exfalso. apply Hnin'. now right.
      * destruct Hin' as [->|Hin']; [|contradiction].
        subst d1. rewrite Hk2, dict_get_set, String.eqb_refl. reflexivity.
      * subst d1. destruct (dict_get dict2 k0) as [v0|]; [|reflexivity].
        rewrite dict_get_set.
        destruct (String.eqb_spec k0 k) as [->|_]; [|reflexivity].
        exfalso. apply Hnin'. now left.
    + subst d1. destruct (dict_get dict2 k0) as [v0|] eqn:Hk0;
        [|reflexivity].
      rewrite dict_get_set.
      destruct (String.eqb_spec k0 k) as [->|_]; [congruence|reflexivity].
Qed.

(** X20.  [update_dict(dict1, dict2)] keeps the keys of [dict1] and their
    order and adds none; a key of [dict1] that [dict2] also has gets the
    value of [dict2], every other key keeps its value. *)
Theorem update_dict_overrides_shared_keys :
  forall (dict1 dict2 : pydict V) (k : String.string),
    map fst (update_dict dict1 dict2) = map fst dict1
    /\ dict_get (update_dict dict1 dict2) k
       = match dict_get dict1 k, dict_get dict2 k with
         | Some _, Some v2 => Some v2
         | Some v1, None => Some v1
         | None, _ => None
         end.
Proof.
  intros dict1 dict2 k. unfold update_dict.
  assert (Hcommon : forall k', In k' (common_keys dict1 dict2) <->
                               dict_get dict1 k' <> None
                               /\ dict_get dict2 k' <> None).
  { intros k'. unfold common_keys. rewrite filter_In, dict_get_In.
    destruct (dict_get dict2 k'); split; intros [H1 H2];
      split; congruence. }
  destruct (update_fold dict2 (common_keys dict1 dict2) dict1) as [Hk Hg].
  { intros k' Hk'. now apply Hcommon in Hk'. }
  split; [exact Hk|]. rewrite Hg.
  destruct (dict_get dict2 k) as [v2|] eqn:H2.
  - destruct (in_dec String.string_dec k (common_keys dict1 dict2))
      as [Hin|Hnin].
    + apply Hcommon in Hin. destruct Hin as [H1 _].
      destruct (dict_get dict1 k); [reflexivity|congruence].
    + destruct (dict_get dict1 k) as [v1|] eqn:H1; [|reflexivity].
      exfalso. apply Hnin, Hcommon. rewrite H1, H2. split; discriminate.
  - destruct (dict_get dict1 k); reflexivity.
Qed.

End Dictionaries.

Section Mapper.
Import UtilsMore.

Lemma get_mapper_inverse_items :
  get_mapper_inverse
  = [ ("M_s", "X_spliced");
      ("M_u", "X_unspliced");
      ("M_n", "X_new");
      ("M_o", "X_old");
      ("M_t", "X_total");
      ("M_uu", "X_uu");
      ("M_ul", "X_ul");
      ("M_su", "X_su");
      ("M_sl", "X_sl");
      ("M_p", "X_protein");
      ("X", "X") ].
Proof. vm_compute. reflexivity. Qed.

(** X21.  [get_mapper_inverse()] is the inverse of [get_mapper()]: it maps
    [v] to [k] exactly when the mapper maps [k] to [v] (no two keys of the
    mapper share a value, so no item is lost). *)
Theorem mapper_inverse_inverts :
  forall k v : String.string,
    dict_get get_mapper k = Some v <-> dict_get get_mapper_inverse v = Some k.
Proof.
  intros k v. rewrite get_mapper_inverse_items. unfold get_mapper.
  cbn [dict_get]. split; intros H.
  - repeat match type of H with
      | context [String.eqb ?a k] =>
          destruct (String.eqb a k) eqn:E;
          [apply String.eqb_eq in E; subst k; injection H as H; subst v;
           reflexivity|clear E]
      end.
    discriminate.
  - repeat match type of H with
      | context [String.eqb ?a v] =>
          destruct (String.eqb a v) eqn:E;
          [apply String.eqb_eq in E; subst v; injection H as H; subst k;
           reflexivity|clear E]
      end.
    discriminate.
Qed.

End Mapper.

Section ActionMore.
Import Np Lap.

Lemma sum_zero_all (v : vec) :
  Forall (fun a => 0 <= a) v ->
  (sum v = 0 <-> Forall (fun a => a = 0) v).
Proof.
  unfold sum. induction 1 as [|a v Ha Hv IH]; cbn [fold_right].
  - split; [constructor|reflexivity].
  - assert (Hs : 0 <= fold_right Rplus 0 v).
    { clear IH. induction Hv; cbn [fold_right]; lra. }
    split.
    + intros H. constructor; [lra|]. apply IH. lra.
    + intros H. inversion H; subst. apply IH in H3. lra.
Qed.

Lemma dot_self_zero (u : vec) :
  dot u u = 0 <-> Forall (fun a => a = 0) u.
Proof.
  induction u as [|a u IH].
  - split; [constructor|reflexivity].
  - change (dot (a :: u) (a :: u)) with (a * a + dot u u).
    pose proof (dot_self_nonneg u) as Hu.
    split.
    + intros H. constructor; [nra|]. apply IH. nra.
    + intros H. inversion H; subst. apply IH in H3. rewrite H3. ring.
Qed.

Lemma vsub_zero_eq (v w : vec) :
  length v = length w ->
  (Forall (fun a => a = 0) (vsub v w) <-> v = w).
Proof.
  revert w. induction v as [|a v IH]; intros [|b w] H; simpl in H;
    try discriminate.
  - split; [reflexivity|constructor].
  - unfold vsub in *. cbn [map2]. split.
    + intros Hz. inversion Hz; subst. f_equal; [lra|].
      apply IH; [lia|assumption].
    + intros E. injection E as -> ->. constructor; [lra|].
      apply IH; [lia|reflexivity].
Qed.

Lemma mismatch_zero dim (f : vec -> vec) dt (a b : vec) :
  length a = dim -> length b = dim ->
  (forall x, length x = dim -> length (f x) = dim) ->
  (mismatch f dt (a, b) = 0 <-> velocity dt a b = f (midpoint a b)).
Proof.
  intros Ha Hb Hf. unfold mismatch. cbn [fst snd].
  rewrite sqr_norm, dot_self_zero. apply vsub_zero_eq.
  assert (Hm : length (midpoint a b) = dim).
  { unfold midpoint, vdiv, vadd. rewrite length_map, length_map2; congruence. }
  rewrite (Hf _ Hm).
  unfold velocity, vdiv, vsub. rewrite length_map, length_map2; congruence.
Qed.

Lemma segments_In (path : matrix) (a b : vec) :
  In (a, b) (segments path) -> In a path /\ In b path.
Proof.
  destruct path as [|x path]; [contradiction|].
  revert x. induction path as [|y path IH]; intros x; [contradiction|].
  change (segments (x :: y :: path)) with ((x, y) :: segments (y :: path)).
  intros [E|Hin].
  - injection E as -> ->. split; [now left|right; now left].
  - destruct (IH y Hin) as [H1 H2]. split; now right.
Qed.

(** X24.  For [D > 0] and [dt > 0] the action of a path under a pointwise
    vector field is zero exactly when every segment moves with the field:
    its finite-difference velocity equals the field at its midpoint. *)
Theorem action_zero_iff_path_follows_field :
  forall (dim : nat) (path : matrix) (f : vec -> vec) (D dt : R),
    0 < D -> 0 < dt ->
    has_width dim path ->
    (forall x, length x = dim -> length (f x) = dim) ->
    (action path (map f) D dt = 0
     <-> forall a b, In (a, b) (segments path) ->
                     velocity dt a b = f (midpoint a b)).
Proof.
  intros dim path f D dt HD Hdt Hpath Hf.
  rewrite action_as_sum. unfold action_formula.
  assert (Hc : 0 < dt / (2 * D)) by (apply Rdiv_lt_0_compat; lra).
  assert (Hnn : Forall (fun a => 0 <= a)
                       (map (mismatch f dt) (segments path))).
  { apply Forall_forall. intros m Hm. apply in_map_iff in Hm.
    destruct Hm as [seg [<- _]]. unfold mismatch. apply Rle_0_sqr. }
  assert (Hw : forall a b, In (a, b) (segments path) ->
                           length a = dim /\ length b = dim).
  { intros a b Hin. apply segments_In in Hin. destruct Hin as [H1 H2].
    unfold has_width in Hpath. rewrite Forall_forall in Hpath.
    split; now apply Hpath. }
  split.
  - intros H0 a b Hin.
    assert (Hs : sum (map (mismatch f dt) (segments path)) = 0) by nra.
    apply (sum_zero_all _ Hnn) in Hs. rewrite Forall_forall in Hs.
    destruct (Hw a b Hin) as [Ha Hb].
    apply (mismatch_zero dim f dt a b Ha Hb Hf).
    apply Hs. apply in_map_iff. now exists (a, b).
  - intros Hall.
    assert (Hs : sum (map (mismatch f dt) (segments path)) = 0).
    { apply (sum_zero_all _ Hnn). apply Forall_forall. intros m Hm.
      apply in_map_iff in Hm. destruct Hm as [[a b] [<- Hin]].
      destruct (Hw a b Hin) as [Ha Hb].
      apply (mismatch_zero dim f dt a b Ha Hb Hf). now apply Hall. }
    rewrite Hs. ring.
Qed.

Lemma action_zero_iff_path_follows_field_witness :
  action [[0; 0]; [1; 1]] (map (fun _ : vec => [1; 1])) 1 1 = 0
  <-> forall a b, In (a, b) (segments [[0; 0]; [1; 1]]) ->
                  velocity 1 a b = (fun _ : vec => [1; 1]) (midpoint a b).
Proof.
  apply (action_zero_iff_path_follows_field 2 [[0; 0]; [1; 1]]
           (fun _ => [1; 1]) 1 1); try lra.
  - repeat constructor.
  - intros x _. reflexivity.
Defined.

Lemma segments_firstn (X0 : matrix) :
  forall i, (S i < length X0)%nat ->
    segments (firstn (S (S i)) X0)
    = segments (firstn (S i) X0) ++ [(nth i X0 [], nth (S i) X0 [])].
Proof.
  destruct X0 as [|x X0]; [intros i H; cbn [length] in H; lia|].
  revert x. induction X0 as [|y X0 IH]; intros x i Hi;
    [cbn [length] in Hi; lia|].
  destruct i as [|i].
  - destruct X0; reflexivity.
  - change (firstn (S (S (S i))) (x :: y :: X0))
      with (x :: firstn (S (S i)) (y :: X0)).
    change (firstn (S (S i)) (x :: y :: X0))
      with (x :: firstn (S i) (y :: X0)).
    change (firstn (S (S i)) (y :: X0)) with (y :: firstn (S i) X0) at 1.
    change (segments (x :: y :: firstn (S i) X0))
      with ((x, y) :: segments (y :: firstn (S i) X0)).
    change (y :: firstn (S i) X0) with (firstn (S (S i)) (y :: X0)).
    rewrite (IH y i) by (cbn [length] in *; lia).
    change (firstn (S i) (y :: X0)) with (y :: firstn i X0).
    change (segments (x :: y :: firstn i X0))
      with ((x, y) :: segments (y :: firstn i X0)).
    reflexivity.
Qed.

(** The cached series of a [LeastActionPath], entry by entry. *)
Lemma cached_action_nth (X0 : matrix) (vf_func : matrix -> matrix)
      (D0 dt : R) (i : nat) :
  (i < length X0)%nat ->
  nth_error (_action (LeastActionPath_init X0 vf_func D0 dt)) i
  = Some (if (i =? 0)%nat then 0
          else action (firstn (i + 1) X0) vf_func D0 dt).
Proof.
  intros Hi. unfold LeastActionPath_init. cbn [_action base X].
  assert (Hz : length (zeros (length X0)) = length X0)
    by (unfold zeros; apply repeat_length).
  rewrite Hz.
  rewrite (fold_setitem_nth
             (fun j => action (firstn (j + 1) X0) vf_func D0 dt))
    by (rewrite Hz; lia).
  destruct i as [|i].
  - cbn [Nat.leb andb Nat.eqb]. unfold zeros.
    now apply nth_error_repeat.
  - replace ((1 <=? S i) && (S i <? 1 + (length X0 - 1)))%nat with true;
      [reflexivity|].
    symmetry. apply andb_true_iff. split;
      [apply Nat.leb_le|apply Nat.ltb_lt]; lia.
Qed.

(** X25.  Under a pointwise vector field and for [D > 0] and [dt > 0] the
    cached series of a [LeastActionPath] never decreases: every further
    segment adds its own share, which is not negative. *)
Theorem cumulative_action_never_decreases :
  forall (X0 : matrix) (f : vec -> vec) (D0 dt : R) (i : nat) (a b : R),
    0 < D0 -> 0 < dt ->
    let L := LeastActionPath_init X0 (map f) D0 dt in
    nth_error (_action L) i = Some a ->
    nth_error (_action L) (S i) = Some b ->
    b = a + dt / (2 * D0)
            * mismatch f dt (nth i X0 [], nth (S i) X0 [])
    /\ a <= b.
Proof.
  intros X0 f D0 dt i a b HD Hdt L Ha Hb.
  assert (Hlen : length (_action L) = length X0).
  { subst L. unfold LeastActionPath_init. cbn [_action base X].
    rewrite (fold_setitem_length
               (fun _ j => action (firstn (j + 1) X0) (map f) D0 dt)).
    unfold zeros. apply repeat_length. }
  assert (Hi : (S i < length X0)%nat).
  { rewrite <- Hlen. apply nth_error_Some. rewrite Hb. discriminate. }
  subst L. rewrite cached_action_nth in Ha, Hb by lia.
  rewrite !Nat.add_1_r in Ha, Hb.
  change (S i =? 0)%nat with false in Hb.
  assert (Ea : a = if (i =? 0)%nat then 0
                   else action (firstn (S i) X0) (map f) D0 dt)
    by congruence.
  assert (Eb : b = action (firstn (S (S i)) X0) (map f) D0 dt)
    by congruence.
  clear Ha Hb. subst a b.
  assert (Hprev : (if (i =? 0)%nat then 0
                   else action (firstn (S i) X0) (map f) D0 dt)
                  = action_formula (firstn (S i) X0) f D0 dt).
  { destruct i as [|i].
    - cbn [Nat.eqb]. unfold action_formula.
      destruct X0 as [|x [|y X0]]; cbn [firstn segments map];
        unfold sum; cbn [fold_right]; ring.
    - cbn [Nat.eqb]. now rewrite action_as_sum. }
  rewrite Hprev, action_as_sum.
  unfold action_formula. rewrite segments_firstn by lia.
  rewrite map_app, sum_app. cbn [map].
  assert (Hm : 0 <= mismatch f dt (nth i X0 [], nth (S i) X0 []))
    by (unfold mismatch; apply Rle_0_sqr).
  assert (Hc : 0 < dt / (2 * D0)) by (apply Rdiv_lt_0_compat; lra).
  assert (Hone : forall x, sum [x] = x)
    by (intros x; unfold sum; cbn [fold_right]; ring).
  rewrite Hone.
  split; [ring|]. apply Rmult_le_compat_l; lra.
Qed.

Lemma cumulative_action_never_decreases_witness :
  0 = 0 + 1 / (2 * 1)
          * mismatch (fun _ : vec => [1; 1]) 1
                     (nth 0 [[0; 0]; [1; 1]] [], nth 1 [[0; 0]; [1; 1]] [])
  /\ 0 <= 0.
Proof.
  apply (cumulative_action_never_decreases [[0; 0]; [1; 1]]
           (fun _ => [1; 1]) 1 1 0 0 0); try lra.
  - reflexivity.
  - cbn. f_equal. unfold action, dot, sum. simpl. lra.
Defined.

End ActionMore.

Section GoodnessOfFit.
Import Np UtilsMore.

Lemma sum_vadd (u v : vec) :
  length u = length v -> sum (vadd u v) = sum u + sum v.
Proof.
  unfold sum, vadd. revert v.
  induction u as [|a u IH]; intros [|b v] H; simpl in H; try discriminate.
  - cbn [map2 fold_right]. lra.
  - cbn [map2 fold_right]. rewrite IH by lia. lra.
Qed.

Lemma length_vadd (u v : vec) :
  length u = length v -> length (vadd u v) = length u.
Proof. intros H. unfold vadd. now apply length_map2. Qed.

Lemma sum_zeros n : sum (zeros n) = 0.
Proof.
  unfold sum, zeros. induction n as [|n IH]; cbn [repeat fold_right];
    [reflexivity|]. rewrite IH. lra.
Qed.

Lemma sum_columns w (rows : matrix) :
  has_width w rows ->
  length (fold_right vadd (zeros w) rows) = w
  /\ sum (fold_right vadd (zeros w) rows) = sum (map sum rows).
Proof.
  induction 1 as [|r rows Hr Hrows [IHl IHs]]; cbn [fold_right map].
  - split; [unfold zeros; apply repeat_length|].
    rewrite sum_zeros. reflexivity.
  - split.
    + rewrite length_vadd; congruence.
    + rewrite sum_vadd by congruence. rewrite IHs.
      unfold sum at 3. cbn [fold_right]. reflexivity.
Qed.

(** The residual sum of squares, row by row. *)
Lemma sum_column_squares w (d : matrix) :
  has_width w d ->
  sum (column_squares d) = sum (map (fun r => dot r r) d).
Proof.
  intros Hd. unfold column_squares.
  assert (Hsq : has_width w (map (fun r => map2 Rmult r r) d)).
  { apply Forall_forall. intros s Hs. apply in_map_iff in Hs.
    destruct Hs as [r [<- Hr]]. unfold has_width in Hd.
    rewrite Forall_forall in Hd. rewrite length_map2; auto. }
  destruct d as [|r0 d]; [cbn; unfold sum; reflexivity|].
  cbn [hd]. replace (length r0) with w by (inversion Hd; auto).
  destruct (sum_columns w _ Hsq) as [_ ->].
  rewrite map_map. reflexivity.
Qed.

Lemma msub_width w (A B : matrix) :
  has_width w A -> has_width w B -> has_width w (msub A B).
Proof.
  intros HA. revert B. induction HA as [|a A Ha HA IH]; intros B HB;
    [constructor|].
  destruct HB as [|b B Hb HB]; [constructor|].
  unfold msub in *. cbn [map2]. constructor; [|now apply IH].
  rewrite length_vsub; congruence.
Qed.

Lemma msub_zero_eq w (A B : matrix) :
  has_width w A -> has_width w B -> length A = length B ->
  (Forall (fun r => dot r r = 0) (msub A B) <-> A = B).
Proof.
  intros HA. revert B. induction HA as [|a A Ha HA IH]; intros B HB Hlen;
    destruct HB as [|b B Hb HB]; simpl in Hlen; try discriminate.
  - split; [reflexivity|constructor].
  - unfold msub in *. cbn [map2]. split.
    + intros H. inversion H as [|? ? H1 H2]; subst. f_equal.
      * apply dot_self_zero in H1. apply vsub_zero_eq in H1; congruence.
      * apply IH; auto.
    + intros E. injection E as -> ->. constructor.
      * apply dot_self_zero. apply vsub_zero_eq; congruence.
      * apply IH; auto.
Qed.

(** X27.  When the total sum of squares of [Y] is positive and the fit
    [f(X, k)] has the shape of [Y], [calc_R2] is never above 1, and it is 1
    when the fit equals [Y]. *)
Theorem r_squared_at_most_one :
  forall (w : nat) (X Y : matrix) (k : vec)
         (f : matrix -> vec -> matrix),
    has_width w Y -> has_width w (f X k) -> length (f X k) = length Y ->
    0 < SS_tot Y ->
    calc_R2 X Y k f <= 1
    /\ (f X k = Y -> calc_R2 X Y k f = 1).
Proof.
  intros w X Y k f HY HF Hlen Htot. unfold calc_R2.
  fold (SS_tot Y).
  pose proof (msub_width w _ _ HF HY) as Hd.
  rewrite (sum_column_squares w) by exact Hd.
  set (res := sum (map (fun r => dot r r) (msub (f X k) Y))).
  assert (Hnn : Forall (fun a => 0 <= a)
                       (map (fun r => dot r r) (msub (f X k) Y))).
  { apply Forall_forall. intros a Ha. apply in_map_iff in Ha.
    destruct Ha as [r [<- _]]. apply dot_self_nonneg. }
  assert (Hres : 0 <= res) by (apply sum_nonneg; exact Hnn).
  assert (Hinv : 0 < / SS_tot Y) by now apply Rinv_0_lt_compat.
  split; [unfold Rdiv; nra|].
  intros Hfit.
  assert (Hzero : res = 0).
  { subst res. apply (sum_zero_all _ Hnn).
    rewrite Forall_map. apply (msub_zero_eq w); assumption. }
  rewrite Hzero. unfold Rdiv. ring.
Qed.

Lemma r_squared_at_most_one_witness :
  calc_R2 [[1; 2]] [[2; 4]] [2] scale_rows <= 1
  /\ (scale_rows [[1; 2]] [2] = [[2; 4]]
      -> calc_R2 [[1; 2]] [[2; 4]] [2] scale_rows = 1).
Proof.
  apply (r_squared_at_most_one 2 [[1; 2]] [[2; 4]] [2] scale_rows).
  - repeat constructor.
  - repeat constructor.
  - reflexivity.
  - unfold SS_tot, row_squares, mean, dot, sum. cbn. lra.
Defined.

End GoodnessOfFit.

Section TriuMatrix.
Import Np UtilsMore.

Lemma nth_setitem {A} (l : list A) i j x d :
  nth j (setitem l i x) d
  = if (j =? i)%nat then (if (i <? length l)%nat then x else d)
    else nth j l d.
Proof.
  revert i j. induction l as [|a l IH]; intros i j.
  - cbn [setitem length]. destruct (j =? i)%nat; destruct j; reflexivity.
  - destruct i as [|i], j as [|j]; cbn [setitem nth length Nat.eqb];
      try reflexivity.
    rewrite IH. reflexivity.
Qed.

Lemma nth_repeat_lt {A} (a d : A) n i :
  (i < n)%nat -> nth i (repeat a n) d = a.
Proof.
  revert i. induction n as [|n IH]; intros [|i] H; cbn [repeat nth];
    try lia; auto. apply IH. lia.
Qed.

Lemma has_width_by_nth n (M : matrix) :
  (forall r, (r < length M)%nat -> length (nth r M []) = n) ->
  has_width n M.
Proof.
  intros H. apply Forall_forall. intros row Hrow.
  apply (In_nth _ _ ([] : vec)) in Hrow. destruct Hrow as [r [Hr <-]].
  now apply H.
Qed.

Lemma Rceil_spec (r : R) : IZR (Rceil r) - 1 < r <= IZR (Rceil r).
Proof.
  unfold Rceil. rewrite minus_IZR. destruct (archimed (- r)). lra.
Qed.

(** The size [form_triu_matrix] computes is the least [n] whose upper
    triangle holds [L] entries. *)
Lemma triu_size (L m : nat) :
  (2 * L <= m * (m + 1))%nat
  <-> (Z.to_nat (Rceil ((sqrt (1 + 8 * INR L) - 1) * 0.5)) <= m)%nat.
Proof.
  set (s := 1 + 8 * INR L).
  set (r := (sqrt s - 1) * 0.5).
  destruct (Rceil_spec r) as [Hlo Hhi].
  pose proof (pos_INR L) as HL. pose proof (pos_INR m) as Hm.
  assert (Hs : 0 <= s) by (subst s; lra).
  assert (Hsq : sqrt s * sqrt s = s) by (now apply sqrt_sqrt).
  pose proof (sqrt_pos s) as Hsp.
  assert (Hs1 : 1 <= sqrt s).
  { rewrite <- sqrt_1. apply sqrt_le_1_alt. subst s. lra. }
  assert (Hr0 : 0 <= r) by (subst r; lra).
  assert (Hz : (0 <= Rceil r)%Z) by (apply le_IZR; lra).
  assert (Hn : INR (Z.to_nat (Rceil r)) = IZR (Rceil r)).
  { rewrite INR_IZR_INZ. f_equal. lia. }
  assert (Hkey : r <= INR m <-> (2 * L <= m * (m + 1))%nat).
  { split.
    - intros Hrm. apply INR_le.
      rewrite !mult_INR, plus_INR. cbn [INR].
      assert (Ht : sqrt s <= 2 * INR m + 1) by (subst r; lra).
      assert (Hss : s <= (2 * INR m + 1) * (2 * INR m + 1)) by nra.
      subst s. nra.
    - intros Hnat. apply le_INR in Hnat.
      rewrite !mult_INR, plus_INR in Hnat. cbn [INR] in Hnat.
      assert (Hss : s <= (2 * INR m + 1) * (2 * INR m + 1))
        by (subst s; nra).
      assert (Ht : sqrt s <= 2 * INR m + 1).
      { apply Rnot_lt_le. intros Hgt. nra. }
      subst r. lra. }
  rewrite <- Hkey. split.
  - intros Hrm. apply Nat.lt_succ_r. apply INR_lt.
    rewrite Hn, S_INR. lra.
  - intros Hle. apply le_INR in Hle. rewrite Hn in Hle. lra.
Qed.

(** One row of the filling loop: from column [j0] on, row [i] takes the
    entries of [arr] from index [c] on, as far as they go. *)
Lemma triu_row_spec (arr : vec) (n i : nat) :
  (i < n)%nat ->
  forall k j0 (M : matrix) c,
    (j0 + k = n)%nat -> (i < length M)%nat ->
    length (nth i M []) = n ->
    let res := triu_row arr i (seq j0 k) M c in
    length (fst res) = length M
    /\ (forall r, r <> i -> nth r (fst res) [] = nth r M [])
    /\ length (nth i (fst res) []) = n
    /\ snd res = (c + Nat.min (n - Nat.max i j0) (length arr - c))%nat
    /\ forall j, (j < n)%nat ->
         nth j (nth i (fst res) []) 0
         = if ((Nat.max i j0 <=? j)
               && (j - Nat.max i j0 <? length arr - c))%nat
           then nth (c + (j - Nat.max i j0)) arr 0
           else nth j (nth i M []) 0.
Proof.
  intros Hi. induction k as [|k IH]; intros j0 M c Hk HM Hrow.
  - cbn [seq triu_row fst snd].
    split; [reflexivity|]. split; [reflexivity|]. split; [exact Hrow|].
    split; [lia|]. intros j Hj.
    destruct (Nat.leb_spec (Nat.max i j0) j); [lia|reflexivity].
  - cbn [seq triu_row].
    destruct (Nat.leb_spec i j0) as [Hij|Hij].
    + destruct (Nat.ltb_spec c (length arr)) as [Hc|Hc].
      * set (M1 := setitem2 M i j0 (nth c arr 0)).
        assert (HM1 : length M1 = length M)
          by (subst M1; unfold setitem2; apply length_setitem).
        assert (Hrow1 : nth i M1 []
                        = setitem (nth i M []) j0 (nth c arr 0)).
        { subst M1. unfold setitem2. rewrite nth_setitem.
          rewrite Nat.eqb_refl.
          destruct (Nat.ltb_spec i (length M)); [reflexivity|lia]. }
        assert (Hother : forall r, r <> i -> nth r M1 [] = nth r M []).
        { intros r Hr. subst M1. unfold setitem2. rewrite nth_setitem.
          destruct (Nat.eqb_spec r i); [contradiction|reflexivity]. }
        destruct (IH (S j0) M1 (S c) ltac:(lia) ltac:(lia))
          as [H1 [H2 [H3 [H4 H5]]]].
        { rewrite Hrow1, length_setitem. exact Hrow. }
        split; [lia|]. split; [intros r Hr; rewrite H2, Hother; auto|].
        split; [exact H3|]. split; [rewrite H4; lia|].
        intros j Hj. rewrite (H5 j Hj). rewrite Hrow1, nth_setitem.
        replace (Nat.max i (S j0)) with (S j0) by lia.
        replace (Nat.max i j0) with j0 by lia.
        destruct (Nat.leb_spec (S j0) j) as [Hlt|Hge].
        -- destruct (Nat.leb_spec j0 j); [|lia].
           cbn [andb].
           destruct (Nat.ltb_spec (j - S j0) (length arr - S c));
             destruct (Nat.ltb_spec (j - j0) (length arr - c));
             try lia.
           ++ f_equal. lia.
           ++ destruct (Nat.eqb_spec j j0); [lia|reflexivity].
        -- cbn [andb].
           destruct (Nat.eqb_spec j j0) as [->|Hne].
           ++ rewrite Hrow.
              destruct (Nat.ltb_spec j0 n); [|lia].
              destruct (Nat.leb_spec j0 j0); [|lia].
              destruct (Nat.ltb_spec (j0 - j0) (length arr - c)); [|lia].
              cbn [andb]. f_equal. lia.
           ++ destruct (Nat.leb_spec j0 j); [lia|reflexivity].
      * cbn [fst snd].
        split; [reflexivity|]. split; [reflexivity|]. split; [exact Hrow|].
        split; [lia|]. intros j Hj.
        destruct (Nat.ltb_spec (j - Nat.max i j0) (length arr - c));
          [lia|]. now rewrite andb_false_r.
    + destruct (IH (S j0) M c ltac:(lia) HM Hrow)
        as [H1 [H2 [H3 [H4 H5]]]].
      replace (Nat.max i j0) with (Nat.max i (S j0)) by lia.
      split; [exact H1|]. split; [exact H2|]. split; [exact H3|].
      split; [exact H4|exact H5].
Qed.

(** The loop over the rows, started at row [i0] with the rows before it
    filled and the rows from it on still zero. *)
Lemma triu_rows_spec (arr : vec) (n : nat) :
  forall k i0 (M : matrix) c,
    (i0 + k = n)%nat -> length M = n -> has_width n M ->
    c = Nat.min (length arr) (triu_offset n i0) ->
    (forall i j, (i0 <= i < n)%nat -> (j < n)%nat ->
                 nth j (nth i M []) 0 = 0) ->
    let res := fold_left (fun Mc i => triu_row arr i (seq 0 n)
                                               (fst Mc) (snd Mc))
                         (seq i0 k) (M, c) in
    length (fst res) = n
    /\ has_width n (fst res)
    /\ forall i j, (i < n)%nat -> (j < n)%nat ->
         nth j (nth i (fst res) []) 0
         = if (i0 <=? i)%nat
           then (if (i <=? j)%nat
                 then nth (triu_offset n i + (j - i)) arr 0 else 0)
           else nth j (nth i M []) 0.
Proof.
  induction k as [|k IH]; intros i0 M c Hk HM Hw Hc Hzero.
  - cbn [seq fold_left fst].
    split; [exact HM|]. split; [exact Hw|]. intros i j Hi Hj.
    destruct (Nat.leb_spec i0 i); [lia|reflexivity].
  - cbn [seq fold_left fst snd].
    assert (Hi0 : (i0 < n)%nat) by lia.
    assert (Hrow0 : length (nth i0 M []) = n)
      by (apply has_width_nth; [exact Hw|lia]).
    destruct (triu_row_spec arr n i0 Hi0 n 0%nat M c ltac:(lia)
                            ltac:(lia) Hrow0)
      as [H1 [H2 [H3 [H4 H5]]]].
    destruct (triu_row arr i0 (seq 0 n) M c) as [M1 c1] eqn:Hrun.
    cbn [fst snd] in *.
    assert (Hw1 : has_width n M1).
    { apply has_width_by_nth. intros r Hr.
      destruct (Nat.eq_dec r i0) as [->|Hne]; [exact H3|].
      rewrite H2 by exact Hne. apply has_width_nth; [exact Hw|lia]. }
    destruct (IH (S i0) M1 c1 ltac:(lia) ltac:(lia) Hw1)
      as [G1 [G2 G3]].
    { rewrite H4, Hc. cbn [triu_offset]. lia. }
    { intros i j Hi Hj. rewrite H2 by lia. apply Hzero; lia. }
    split; [exact G1|]. split; [exact G2|].
    intros i j Hi Hj. rewrite (G3 i j Hi Hj).
    destruct (Nat.leb_spec (S i0) i) as [Hgt|Hle].
    + destruct (Nat.leb_spec i0 i); [reflexivity|lia].
    + destruct (Nat.eq_dec i i0) as [->|Hne].
      * destruct (Nat.leb_spec i0 i0); [|lia].
        rewrite (H5 j Hj). replace (Nat.max i0 0) with i0 by lia.
        rewrite (Hzero i0 j) by lia.
        destruct (Nat.leb_spec i0 j) as [Hij|Hij]; [|reflexivity].
        cbn [andb].
        destruct (Nat.ltb_spec (j - i0) (length arr - c)) as [Hin|Hout].
        -- f_equal. lia.
        -- symmetry. apply nth_overflow. lia.
      * destruct (Nat.leb_spec i0 i); [lia|].
        rewrite H2 by exact Hne. reflexivity.
Qed.

(** X28.  [form_triu_matrix(arr)] returns a square matrix whose size is
    the least [n] with [len(arr) <= n (n + 1) / 2].  Below the diagonal it
    is zero; on and above the diagonal it holds the entries of [arr] row by
    row, in their order, and zeros where [arr] has run out. *)
Theorem triu_matrix_layout :
  forall (arr : vec),
    let M := form_triu_matrix arr in
    let n := length M in
    has_width n M
    /\ (forall m, (2 * length arr <= m * (m + 1))%nat <-> (n <= m)%nat)
    /\ forall i j, (i < n)%nat -> (j < n)%nat ->
         nth j (nth i M []) 0
         = if (i <=? j)%nat
           then nth (triu_offset n i + (j - i)) arr 0 else 0.
Proof.
  intros arr M n. subst n M. unfold form_triu_matrix.
  set (n := Z.to_nat (Rceil ((sqrt (1 + 8 * INR (length arr)) - 1) * 0.5))).
  assert (Hzeros : forall i j, (i < n)%nat -> (j < n)%nat ->
                     nth j (nth i (zeros2 n n) []) 0 = 0).
  { intros i j Hi Hj. unfold zeros2, zeros.
    rewrite (nth_repeat_lt _ ([] : vec)) by exact Hi.
    now apply nth_repeat_lt. }
  destruct (triu_rows_spec arr n n 0%nat (zeros2 n n) 0%nat)
    as [H1 [H2 H3]].
  - lia.
  - unfold zeros2. apply repeat_length.
  - unfold zeros2, zeros. apply Forall_forall. intros r Hr.
    apply repeat_spec in Hr. subst r. apply repeat_length.
  - cbn [triu_offset]. lia.
  - intros i j Hi Hj. apply Hzeros; lia.
  - rewrite H1. split; [exact H2|]. split.
    + intros m. subst n. apply triu_size.
    + intros i j Hi Hj. rewrite (H3 i j Hi Hj). reflexivity.
Qed.

End TriuMatrix.

Section GradientAtRest.
Import Np Lap.

Lemma zero_map2 (op : R -> R -> R) (u v : vec) :
  op 0 0 = 0 ->
  Forall (fun a => a = 0) u -> Forall (fun a => a = 0) v ->
  Forall (fun a => a = 0) (map2 op u v).
Proof.
  intros Hop Hu. revert v. induction Hu as [|a u Ha Hu IH]; intros v Hv;
    [constructor|].
  destruct Hv as [|b v Hb Hv]; [constructor|].
  cbn [map2]. constructor; [subst; exact Hop|now apply IH].
Qed.

Lemma zero_map (g : R -> R) (u : vec) :
  g 0 = 0 ->
  Forall (fun a => a = 0) u -> Forall (fun a => a = 0) (map g u).
Proof.
  intros Hg. induction 1 as [|a u Ha Hu IH]; [constructor|].
  cbn [map]. constructor; [subst; exact Hg|exact IH].
Qed.

Lemma zero_rows_map2 (op : vec -> vec -> vec) (A B : matrix) :
  (forall u v, Forall (fun a => a = 0) u -> Forall (fun a => a = 0) v ->
               Forall (fun a => a = 0) (op u v)) ->
  Forall (Forall (fun a => a = 0)) A ->
  Forall (Forall (fun a => a = 0)) B ->
  Forall (Forall (fun a => a = 0)) (map2 op A B).
Proof.
  intros Hop HA. revert B. induction HA as [|a A Ha HA IH]; intros B HB;
    [constructor|].
  destruct HB as [|b B Hb HB]; [constructor|].
  cbn [map2]. constructor; [now apply Hop|now apply IH].
Qed.

Lemma zero_rows_map (g : vec -> vec) (A : matrix) :
  (forall u, Forall (fun a => a = 0) u -> Forall (fun a => a = 0) (g u)) ->
  Forall (Forall (fun a => a = 0)) A ->
  Forall (Forall (fun a => a = 0)) (map g A).
Proof.
  intros Hg. induction 1 as [|a A Ha HA IH]; [constructor|].
  cbn [map]. constructor; [now apply Hg|exact IH].
Qed.

Lemma Forall_init {A} (P : A -> Prop) (l : list A) :
  Forall P l -> Forall P (init l).
Proof.
  unfold init. induction 1 as [|a l Ha Hl IH]; [constructor|].
  destruct l as [|b l]; [constructor|].
  change (removelast (a :: b :: l)) with (a :: removelast (b :: l)).
  constructor; assumption.
Qed.

Lemma Forall_rest {A} (P : A -> Prop) (l : list A) :
  Forall P l -> Forall P (rest l).
Proof. unfold rest. intros [|a l' Ha Hl]; [constructor|exact Hl]. Qed.

Lemma Forall_setitem {A} (P : A -> Prop) (l : list A) i x :
  Forall P l -> P x -> Forall P (setitem l i x).
Proof.
  intros Hl Hx. revert i. induction Hl as [|a l Ha Hl IH]; intros i;
    [constructor|].
  destruct i as [|i]; cbn [setitem]; constructor; auto.
Qed.

Lemma zero_zeros n : Forall (fun a => a = 0) (zeros n).
Proof.
  unfold zeros. apply Forall_forall. intros a Ha.
  now apply repeat_spec in Ha.
Qed.

(** A zero vector times any matrix is zero. *)
Lemma zero_vecmat (v : vec) (M : matrix) :
  Forall (fun a => a = 0) v -> Forall (fun a => a = 0) (vecmat v M).
Proof.
  intros Hv. unfold vecmat.
  assert (Hrows : Forall (Forall (fun a => a = 0)) (map2 vscale v M)).
  { revert M. induction Hv as [|c v Hc Hv IH]; intros M; [constructor|].
    destruct M as [|r M]; [constructor|].
    cbn [map2]. constructor; [|apply IH].
    subst c. unfold vscale. apply Forall_forall. intros a Ha.
    apply in_map_iff in Ha. destruct Ha as [b [<- _]]. ring. }
  induction Hrows as [|r rows Hr Hrows IH]; cbn [fold_right].
  - apply zero_zeros.
  - unfold vadd. apply zero_map2; [lra|exact Hr|exact IH].
Qed.

(** X29.  On a path whose every segment moves with the field (the paths
    of action zero), the gradient [action_grad] returns is zero in every
    entry, whatever the Jacobian is. *)
Theorem gradient_vanishes_on_field_lines :
  forall (path : matrix) (f : vec -> vec) (jac_func : matrix -> tensor3)
         (D dt : R),
    (forall a b, In (a, b) (segments path) ->
                 velocity dt a b = f (midpoint a b)) ->
    Forall (Forall (fun g => g = 0))
           (action_grad path (map f) jac_func D dt).
Proof.
  intros path f jac_func D dt Hfollow. unfold action_grad.
  rewrite residual_rows.
  set (dv := map (fun seg => vsub (velocity dt (fst seg) (snd seg))
                                  (f (midpoint (fst seg) (snd seg))))
                 (segments path)).
  assert (Hdv : Forall (Forall (fun a => a = 0)) dv).
  { subst dv. apply Forall_forall. intros r Hr. apply in_map_iff in Hr.
    destruct Hr as [[a b] [<- Hin]]. cbn [fst snd].
    rewrite (Hfollow a b Hin).
    set (u := f (midpoint a b)). clearbody u. unfold vsub.
    induction u as [|c u IH]; [constructor|].
    cbn [map2]. constructor; [lra|exact IH]. }
  set (J := jac_func _). clearbody J.
  set (z0 := zeros2 (length dv) (length (hd [] dv))).
  assert (Hz0 : Forall (Forall (fun a => a = 0)) z0).
  { subst z0. unfold zeros2. apply Forall_forall. intros r Hr.
    apply repeat_spec in Hr. subst r. apply zero_zeros. }
  set (z := fold_left
              (fun z s => setitem z s (vecmat (nth s dv []) (slice_last J s)))
              (seq 0 (length dv)) z0).
  assert (Hz : Forall (Forall (fun a => a = 0)) z).
  { subst z. generalize (seq 0 (length dv)). intros ss.
    revert Hz0. generalize z0. induction ss as [|s ss IH]; intros acc Hacc;
      [exact Hacc|].
    cbn [fold_left]. apply IH. apply Forall_setitem; [exact Hacc|].
    apply zero_vecmat.
    destruct (Nat.lt_ge_cases s (length dv)) as [Hs|Hs].
    - rewrite Forall_forall in Hdv. apply Hdv. now apply nth_In.
    - rewrite nth_overflow by exact Hs. constructor. }
  unfold msub, mdiv, mscale, madd.
  apply zero_rows_map2.
  - intros u v Hu Hv. unfold vsub. apply zero_map2; [lra|exact Hu|exact Hv].
  - apply zero_rows_map.
    + intros u Hu. unfold vdiv. apply zero_map; [|exact Hu].
      unfold Rdiv. ring.
    + apply zero_rows_map2.
      * intros u v Hu Hv. unfold vsub.
        apply zero_map2; [lra|exact Hu|exact Hv].
      * now apply Forall_init.
      * now apply Forall_rest.
  - apply zero_rows_map.
    + intros u Hu. unfold vscale. apply zero_map; [ring|exact Hu].
    + apply zero_rows_map2.
      * intros u v Hu Hv. unfold vadd.
        apply zero_map2; [lra|exact Hu|exact Hv].
      * now apply Forall_init.
      * now apply Forall_rest.
Qed.

Lemma gradient_vanishes_on_field_lines_witness :
  Forall (Forall (fun g => g = 0))
         (action_grad [[0]; [1]; [2]] (map (fun _ : vec => [1]))
                      (fun x => [[map (fun _ => 0) x]]) 1 1).
Proof.
  apply (gradient_vanishes_on_field_lines [[0]; [1]; [2]]
           (fun _ => [1]) (fun x => [[map (fun _ => 0) x]]) 1 1).
  intros a b Hin. cbn [segments In] in Hin.
  destruct Hin as [E|[E|[]]]; injection E as <- <-;
    unfold velocity, vdiv, vsub; cbn [map2 map]; f_equal; lra.
Defined.

End GradientAtRest.

Section SamplerLongStep.
Import Np Utils.

Lemma polyline_prefix_le (X : matrix) (x0 : vec) (a : nat) :
  forall k, (1 <= a)%nat -> (a + k <= length X)%nat ->
    polyline_from x0 (points_between X 1 a)
    <= polyline_from x0 (points_between X 1 (a + k)).
Proof.
  induction k as [|k IH]; intros Ha Hk.
  - rewrite Nat.add_0_r. lra.
  - specialize (IH Ha ltac:(lia)).
    replace (a + S k)%nat with (S (a + k)) by lia.
    rewrite points_between_snoc by lia.
    rewrite polyline_from_snoc.
    pose proof (norm_nonneg (vsub (nth (a + k) X [])
                                  (last (points_between X 1 (a + k)) x0))).
    lra.
Qed.

(** When the step is longer than the polyline from [x0] through every
    point of its range, the inner loop ends without a [break]: [l] is the
    length of that polyline and [d] the length of its last segment. *)
Lemma scan_segments_miss (X : matrix) (step : R) (x0 : vec) :
  forall k j0 l d,
    (1 <= j0)%nat -> (j0 + k <= length X)%nat ->
    l = polyline_from x0 (points_between X 1 j0) ->
    polyline_from x0 (points_between X 1 (j0 + k)) < step ->
    scan_segments X None step x0 None 1 (seq j0 k) l d
    = Ok (Miss (polyline_from x0 (points_between X 1 (j0 + k)))
               (if (k =? 0)%nat then d
                else norm (vsub (nth (j0 + k - 1) X [])
                                (last (points_between X 1 (j0 + k - 1))
                                      x0)))).
Proof.
  induction k as [|k IH]; intros j0 l d Hj0 Hk Hl Hstep.
  - cbn [seq scan_segments Nat.eqb]. rewrite Nat.add_0_r. now rewrite Hl.
  - cbn [seq scan_segments].
    pose proof (last_points_between X x0 1 j0 Hj0 ltac:(lia)) as Hlast.
    assert (Htan : (if (j0 =? 1)%nat then vsub (nth j0 X []) x0
                    else vsub (nth j0 X []) (nth (j0 - 1) X []))
                   = vsub (nth j0 X []) (last (points_between X 1 j0) x0))
      by (rewrite Hlast; destruct (j0 =? 1)%nat; reflexivity).
    rewrite Htan.
    set (dd := norm (vsub (nth j0 X []) (last (points_between X 1 j0) x0))).
    assert (Hnext : polyline_from x0 (points_between X 1 (S j0)) = l + dd).
    { rewrite points_between_snoc by lia.
      rewrite polyline_from_snoc, <- Hl. reflexivity. }
    pose proof (polyline_prefix_le X x0 (S j0) k ltac:(lia) ltac:(lia))
      as Hmono.
    replace (S j0 + k)%nat with (j0 + S k)%nat in Hmono by lia.
    rewrite Rgeb_false by lra.
    rewrite (IH (S j0) (l + dd) dd ltac:(lia) ltac:(lia) (eq_sym Hnext))
      by (replace (S j0 + k)%nat with (j0 + S k)%nat by lia; exact Hstep).
    replace (S j0 + k)%nat with (j0 + S k)%nat by lia.
    do 2 f_equal. cbn [Nat.eqb].
    destruct k as [|k].
    + cbn [Nat.eqb]. subst dd.
      replace (j0 + 1 - 1)%nat with j0 by lia. reflexivity.
    + cbn [Nat.eqb]. reflexivity.
Qed.

(** X30.  When [step_length] is more than the length of the polyline
    through all points of [X] but the last, [arclength_sampling] emits no
    sample.  It then returns, with one step as the arclength, only if the
    step also exceeds that length plus the length of the last segment
    read; otherwise it never returns. *)
Theorem sampler_step_beyond_path :
  forall (X : matrix) (step_length : R),
    (3 <= length X)%nat ->
    let total := polyline_from (hd [] X)
                               (points_between X 1 (length X - 1)) in
    let d_last := norm (vsub (nth (length X - 2) X [])
                             (nth (length X - 3) X [])) in
    total < step_length ->
    (total + d_last < step_length ->
     forall fuel,
       arclength_sampling (S fuel) X step_length None
       = Ok (Arr1 [], step_length, None))
    /\ (step_length <= total + d_last ->
        forall fuel,
          arclength_sampling fuel X step_length None = OutOfFuel).
Proof.
  intros X step Hlen total d_last Htotal.
  destruct X as [|x0 X']; [cbn [length] in Hlen; lia|].
  set (X := x0 :: X') in *. cbn [hd] in total.
  set (st0 := mkSampler [] x0 None None 1 false 0).
  assert (Hscan : scan_segments X None step (s_x0 st0) (s_t0 st0) (s_i st0)
                    (seq (s_i st0) (length X - 1 - s_i st0)) 0 0
                  = Ok (Miss total d_last)).
  { cbn [s_x0 s_t0 s_i st0].
    rewrite (scan_segments_miss X step x0 (length X - 1 - 1) 1 0 0).
    - replace (1 + (length X - 1 - 1))%nat with (length X - 1)%nat by lia.
      do 2 f_equal.
      destruct (Nat.eqb_spec (length X - 1 - 1) 0) as [E|_]; [lia|].
      subst d_last.
      replace (length X - 1 - 1)%nat with (length X - 2)%nat by lia.
      rewrite (last_points_between X x0 1 (length X - 2)) by lia.
      destruct (Nat.eqb_spec (length X - 2) 1) as [E|E].
      + replace (length X - 3)%nat with 0%nat by lia. reflexivity.
      + do 3 f_equal. lia.
    - lia.
    - lia.
    - unfold points_between. rewrite Nat.sub_diag. reflexivity.
    - replace (1 + (length X - 1 - 1))%nat with (length X - 1)%nat by lia.
      exact Htotal. }
  assert (Hcond : (s_i st0 <? length X - 1)%nat && negb (s_terminate st0)
                  = true).
  { cbn [s_i s_terminate st0 negb]. rewrite andb_true_r.
    apply Nat.ltb_lt. lia. }
  split.
  - intros Hshort fuel. unfold arclength_sampling.
    change (getitem X 0) with (Ok x0). cbn [bind]. fold st0.
    cbn [sampler_loop]. rewrite Hcond.
    unfold sampler_turn. rewrite Hscan. cbn [bind].
    rewrite Rltb_true by exact Hshort.
    destruct fuel; cbn [sampler_loop s_i s_terminate negb];
      rewrite andb_false_r; cbn [bind s_Y s_arclength s_T st0 np_array];
      do 3 f_equal; ring.
  - intros Hlong fuel. unfold arclength_sampling.
    change (getitem X 0) with (Ok x0). cbn [bind]. fold st0.
    pose proof (sampler_stuck X None step st0 total d_last Hcond Hscan
                              ltac:(apply Rltb_false; lra) fuel 0)
      as Hstuck.
    unfold with_arclength in Hstuck. cbn [s_Y s_x0 s_T s_t0 s_i
                                         s_terminate st0] in Hstuck.
    fold st0 in Hstuck. rewrite Hstuck. reflexivity.
Qed.

Lemma sampler_step_beyond_path_witness :
  (polyline_from (hd [] [[0]; [1]; [10]])
                 (points_between [[0]; [1]; [10]] 1
                                 (length [[0]; [1]; [10]] - 1))
   + norm (vsub (nth (length [[0]; [1]; [10]] - 2) [[0]; [1]; [10]] [])
                (nth (length [[0]; [1]; [10]] - 3) [[0]; [1]; [10]] []))
   < 3 ->
   forall fuel,
     arclength_sampling (S fuel) [[0]; [1]; [10]] 3 None
     = Ok (Arr1 [], 3, None))
  /\ (3 <= polyline_from (hd [] [[0]; [1]; [10]])
                         (points_between [[0]; [1]; [10]] 1
                                         (length [[0]; [1]; [10]] - 1))
           + norm (vsub (nth (length [[0]; [1]; [10]] - 2)
                             [[0]; [1]; [10]] [])
                        (nth (length [[0]; [1]; [10]] - 3)
                             [[0]; [1]; [10]] [])) ->
      forall fuel,
        arclength_sampling fuel [[0]; [1]; [10]] 3 None = OutOfFuel).
Proof.
  apply (sampler_step_beyond_path [[0]; [1]; [10]] 3).
  - cbn [length]. lia.
  - cbn [hd length Nat.sub points_between skipn firstn polyline_from].
    cmp_tac.
Defined.

End SamplerLongStep.
